(** * Cadence: access modifiers, the interface-declaration checker and the
    capability-controller migration

    A shallow embedding of [runtime/ast/access.go] (package [ast]), of
    the interface part of the semantic checker (package [sema]:
    [VisitInterfaceDeclaration], [declareInterfaceType],
    [declareInterfaceMembers], [checkInterfaceConformance],
    [checkInterfaceFunctions], [checkDuplicateInterfaceMembers]), of
    [runtime/capcons.go] (package [runtime]) and of [prepareValue] in
    [tools/storage-explorer/value.go], followed by the properties of these
    packages. *)

From stdpp Require Import base option list strings gmap sorting.

Set Warnings "-register-all".

(** ** Package [ast]: access modifiers *)

Module ast.

(** [type Separator uint8], with [Disjunction = iota] and [Conjunction]. *)
Inductive Separator := Disjunction | Conjunction.

Definition Separator_String (s : Separator) : string :=
  match s with
  | Disjunction => " |"
  | Conjunction => ","
  end.

(** A [*NominalType]: the Go map in [subset] is keyed by the pointer, so an
    entitlement is its address, not its name. *)
Definition NominalTypeRef := positive.

(** The interface [EntitlementSet] and its two implementations,
    [*ConjunctiveEntitlementSet] and [*DisjunctiveEntitlementSet]; the
    constructor argument is the field [Elements]. *)
Inductive EntitlementSet :=
  | NewConjunctiveEntitlementSet (Elements : list NominalTypeRef)
  | NewDisjunctiveEntitlementSet (Elements : list NominalTypeRef).

Definition Entitlements (s : EntitlementSet) : list NominalTypeRef :=
  match s with
  | NewConjunctiveEntitlementSet Elements => Elements
  | NewDisjunctiveEntitlementSet Elements => Elements
  end.

Definition EntitlementSet_Separator (s : EntitlementSet) : Separator :=
  match s with
  | NewConjunctiveEntitlementSet _ => Conjunction
  | NewDisjunctiveEntitlementSet _ => Disjunction
  end.

Record EntitlementAccess := NewEntitlementAccess {
  EntitlementSet_of : EntitlementSet
}.

(** [type PrimitiveAccess uint8]; the constants are numbered by [iota] in
    the order of their declaration. *)
Inductive PrimitiveAccess :=
  | AccessNotSpecified
  | AccessPrivate
  | AccessContract
  | AccessAccount
  | AccessPublic
  | AccessPublicSettable.

#[global] Instance PrimitiveAccess_eq_dec : EqDecision PrimitiveAccess.
Proof. solve_decision. Defined.

(** The [uint8] behind a constant. *)
Definition PrimitiveAccess_value (a : PrimitiveAccess) : N :=
  match a with
  | AccessNotSpecified => 0
  | AccessPrivate => 1
  | AccessContract => 2
  | AccessAccount => 3
  | AccessPublic => 4
  | AccessPublicSettable => 5
  end.

(** The constants in the order of the [const] block. *)
Definition PrimitiveAccess_constants : list PrimitiveAccess :=
  [AccessNotSpecified; AccessPrivate; AccessContract;
   AccessAccount; AccessPublic; AccessPublicSettable].

Definition BasicAccesses : list PrimitiveAccess :=
  [AccessNotSpecified; AccessPrivate; AccessPublic; AccessPublicSettable].

Definition AllAccesses : list PrimitiveAccess :=
  BasicAccesses ++ [AccessContract; AccessAccount].

Definition PrimitiveAccess_Keyword (a : PrimitiveAccess) : string :=
  match a with
  | AccessNotSpecified => EmptyString
  | AccessPrivate => "priv"
  | AccessPublic => "pub"
  | AccessPublicSettable => "pub(set)"
  | AccessAccount => "access(account)"
  | AccessContract => "access(contract)"
  end.

Definition PrimitiveAccess_Description (a : PrimitiveAccess) : string :=
  match a with
  | AccessNotSpecified => "not specified"
  | AccessPrivate => "private"
  | AccessPublic => "public"
  | AccessPublicSettable => "public settable"
  | AccessAccount => "account"
  | AccessContract => "contract"
  end.

(** A value of the interface [Access]: one of its two implementations, or
    the nil interface value. *)
Inductive Access :=
  | AccessOfPrimitive (a : PrimitiveAccess)
  | AccessOfEntitlement (e : EntitlementAccess)
  | AccessNil.

(** The first loop of [subset]: [otherSet[entitlement] = struct{}{}]. *)
Definition subset_otherSet (otherEntitlements : list NominalTypeRef)
  : gset NominalTypeRef :=
  foldl (fun otherSet entitlement => {[entitlement]} ∪ otherSet) ∅ otherEntitlements.

(** The second loop of [subset], which returns at the first entitlement
    that is not found. *)
Fixpoint subset_loop (otherSet : gset NominalTypeRef)
    (entitlements : list NominalTypeRef) : bool :=
  match entitlements with
  | [] => true
  | entitlement :: rest =>
      if decide (entitlement ∈ otherSet)
      then subset_loop otherSet rest
      else false
  end.

Definition subset (e other : EntitlementAccess) : bool :=
  let otherEntitlements := Entitlements (EntitlementSet_of other) in
  let otherSet := subset_otherSet otherEntitlements in
  subset_loop otherSet (Entitlements (EntitlementSet_of e)).

Definition IsLessPermissiveThan (e : EntitlementAccess) (other : Access) : bool :=
  match other with
  | AccessOfPrimitive other =>
      bool_decide (other = AccessPublic) || bool_decide (other = AccessPublicSettable)
  | AccessOfEntitlement other => subset e other
  | AccessNil => false
  end.

(** The entitlement access over the set without entitlements, of either
    kind of set. *)
Definition emptyEntitlementAccess (s : Separator) : EntitlementAccess :=
  match s with
  | Conjunction => NewEntitlementAccess (NewConjunctiveEntitlementSet [])
  | Disjunction => NewEntitlementAccess (NewDisjunctiveEntitlementSet [])
  end.

(** Modelled from the spec: the comparison of two primitive accesses is not
    in [access.go], which only numbers the constants ("order indicates
    permissiveness: from least to most permissive"). The spec's words:
    "Primitive vs Primitive: compare enumeration order; returns true iff
    a's ordinal is strictly less than b's ordinal." *)
Definition PrimitiveAccess_IsLessPermissiveThan (a b : PrimitiveAccess) : bool :=
  (PrimitiveAccess_value a <? PrimitiveAccess_value b)%N.

(** The position of a constant in the [const] block. *)
Fixpoint index_of (a : PrimitiveAccess) (l : list PrimitiveAccess) : nat :=
  match l with
  | [] => 0
  | b :: l' => if decide (a = b) then 0 else S (index_of a l')
  end.

(** *** The text of an entitlement access *)

Section EntitlementText.

(** [( *NominalType).String()], declared with the type in another file of
    the package: the name behind an address. *)
Variable NominalType_String : NominalTypeRef -> string.

(** The loop of [entitlementsString] from the entitlement of index [i] on;
    [len] is [len(e.EntitlementSet.Entitlements())], and the builder
    [prefix] is the text written to it so far. *)
Fixpoint entitlementsString_loop (separator : Separator) (len : Z) (i : Z)
    (entitlements : list NominalTypeRef) (prefix : string) : string :=
  match entitlements with
  | [] => prefix
  | entitlement :: rest =>
      let prefix := String.append prefix (NominalType_String entitlement) in
      let prefix :=
        if (i <? len - 1)%Z
        then String.append prefix (Separator_String separator)
        else prefix in
      entitlementsString_loop separator len (i + 1)%Z rest prefix
  end.

Definition entitlementsString (e : EntitlementAccess) (prefix : string) : string :=
  entitlementsString_loop
    (EntitlementSet_Separator (EntitlementSet_of e))
    (Z.of_nat (length (Entitlements (EntitlementSet_of e))))
    0%Z
    (Entitlements (EntitlementSet_of e))
    prefix.

Definition EntitlementAccess_String (e : EntitlementAccess) : string :=
  let str := EmptyString in
  let str := String.append str "ConjunctiveEntitlementAccess " in
  let str := entitlementsString e str in
  str.

Definition EntitlementAccess_Keyword (e : EntitlementAccess) : string :=
  let str := EmptyString in
  let str := String.append str "access(" in
  let str := entitlementsString e str in
  let str := String.append str ")" in
  str.

End EntitlementText.

Definition EntitlementAccess_Description (e : EntitlementAccess) : string :=
  "entitled access".

End ast.

(** ** Package [sema]: the interface part of the checker *)

Module sema.

(** *** Values of the packages [common] and [ast] that the checker handles *)

(** [common.CompositeKind] and [common.DeclarationKind] are enumerations of
    the package [common], which is not embedded here. The interface checker
    names one constant of each; every other constant is kept by its
    number. *)
Inductive CompositeKind :=
  | CompositeKindContract
  | CompositeKindOther (code : N).

Inductive DeclarationKind :=
  | DeclarationKindFunction
  | DeclarationKindOther (code : N).

#[global] Instance CompositeKind_eq_dec : EqDecision CompositeKind.
Proof. solve_decision. Defined.

#[global] Instance DeclarationKind_eq_dec : EqDecision DeclarationKind.
Proof. solve_decision. Defined.

(** [ContainerKind]: the checker passes [ContainerKindInterface] on. *)
Inductive ContainerKind :=
  | ContainerKindInterface
  | ContainerKindOther (code : N).

Record Position := { Offset : Z; Line : Z; Column : Z }.

Record Identifier := {
  Identifier_Identifier : string;
  Identifier_Pos : Position
}.

(** [ast.NewRangeFromPositioned(checker.memoryGauge, identifier)]: the
    range is kept as the identifier it is computed from. *)
Inductive Range :=
  | NewRangeFromPositioned (positioned : Identifier).

(** A pointer is the address of the object it points to. *)
Definition loc := positive.

(** A [*ast.FunctionBlock], as [checkInterfaceFunctions] observes it: the
    results of [HasStatements()], [PreConditions.IsEmpty()],
    [PostConditions.IsEmpty()] and [StartPosition()]. *)
Record FunctionBlock := {
  HasStatements : bool;
  PreConditions_IsEmpty : bool;
  PostConditions_IsEmpty : bool;
  FunctionBlock_StartPosition : Position
}.

(** A [*ast.FunctionDeclaration]; [FunctionBlock] is [None] for the nil
    pointer of a declaration without a block. *)
Record FunctionDeclaration := {
  FunctionDeclaration_Identifier : Identifier;
  FunctionDeclaration_FunctionBlock : option FunctionBlock;
  FunctionDeclaration_EndPosition : Position
}.

(** Member declarations that the checker hands to other passes without
    looking into them. *)
Record FieldDeclaration := { FieldDeclaration_Identifier : Identifier }.
Record SpecialFunctionDeclaration := {
  SpecialFunctionDeclaration_Kind : DeclarationKind;
  SpecialFunctionDeclaration_FunctionDeclaration : FunctionDeclaration
}.
Record CompositeDeclaration := {
  CompositeDeclaration_ptr : loc;
  CompositeDeclaration_CompositeKind : CompositeKind;
  CompositeDeclaration_Identifier : Identifier
}.

(** A [*ast.InterfaceDeclaration]. [decl_ptr] is the address of the node,
    the key of the elaboration's maps. The fields of [Members] are the
    results of [Members.Fields()], [Members.Functions()],
    [Members.SpecialFunctions()], [Members.Interfaces()] and
    [Members.Composites()]. *)
Inductive InterfaceDeclaration := {
  decl_ptr : loc;
  decl_Access : ast.Access;
  decl_CompositeKind : CompositeKind;
  decl_Identifier : Identifier;
  decl_DocString : string;
  decl_StartPos : Position;
  decl_EndPosition : Position;
  Members_Fields : list FieldDeclaration;
  Members_Functions : list FunctionDeclaration;
  Members_SpecialFunctions : list SpecialFunctionDeclaration;
  Members_Interfaces : list InterfaceDeclaration;
  Members_Composites : list CompositeDeclaration
}.

(** The interface declarations of a declaration tree: the declaration and,
    recursively, the interfaces nested in it. *)
Fixpoint interface_declarations (d : InterfaceDeclaration) : list InterfaceDeclaration :=
  d :: (fix nested (l : list InterfaceDeclaration) : list InterfaceDeclaration :=
          match l with
          | [] => []
          | n :: l' => interface_declarations n ++ nested l'
          end) (Members_Interfaces d).

(** Induction on a declaration tree. *)
Fixpoint InterfaceDeclaration_tree_ind (P : InterfaceDeclaration -> Prop)
    (step : forall d, Forall P (Members_Interfaces d) -> P d)
    (d : InterfaceDeclaration) : P d :=
  step d
    ((fix nested (l : list InterfaceDeclaration) : Forall P l :=
        match l return Forall P l with
        | [] => @List.Forall_nil _ P
        | n :: l' =>
            @List.Forall_cons _ P n l' (InterfaceDeclaration_tree_ind P step n) (nested l')
        end) (Members_Interfaces d)).

(** A value of the interface [ast.Declaration], as
    [declareInterfaceNestedTypes] observes it through its methods;
    [DeclarationIdentifier] is [None] when the method returns nil. *)
Record Declaration := {
  DeclarationIdentifier : option Identifier;
  Declaration_DeclarationKind : DeclarationKind;
  DeclarationAccess : ast.Access;
  DeclarationDocString : string
}.

(** *** Semantic types *)

(** A value of the interface [Type]: a [*InterfaceType], a [*CompositeType]
    (the two implementations of [CompositeKindedType]), or a type of
    another kind, kept by a number. *)
Inductive SemaType :=
  | InterfaceTypeRef (l : loc)
  | CompositeTypeRef (l : loc)
  | OtherType (code : N).

#[global] Instance SemaType_eq_dec : EqDecision SemaType.
Proof. solve_decision. Defined.

#[global] Instance SemaType_countable : Countable SemaType.
Proof.
  refine (inj_countable'
    (fun t => match t with
              | InterfaceTypeRef l => inl l
              | CompositeTypeRef l => inr (inl l)
              | OtherType n => inr (inr n)
              end)
    (fun s => match s with
              | inl l => InterfaceTypeRef l
              | inr (inl l) => CompositeTypeRef l
              | inr (inr n) => OtherType n
              end) _).
  by intros [].
Defined.

(** The type assertion [t.(CompositeKindedType)]. *)
Definition asCompositeKindedType (t : SemaType) : option SemaType :=
  match t with
  | InterfaceTypeRef _ | CompositeTypeRef _ => Some t
  | OtherType _ => None
  end.

(** The type assertion [t.( *InterfaceType)] in its two-result form: the
    second result. *)
Definition isInterfaceType (t : SemaType) : bool :=
  match t with
  | InterfaceTypeRef _ => true
  | _ => false
  end.

(** A [*Member]. The struct is declared in another file of the package;
    these are the fields that the interface checker reads and that the data
    model of the specification lists. *)
Record Member := {
  Member_ContainerType : SemaType;
  Member_Identifier : Identifier;
  Member_Access : ast.Access;
  Member_TypeAnnotation : SemaType;
  Member_DeclarationKind : DeclarationKind;
  HasImplementation : bool;
  HasConditions : bool
}.

(** Modelled from the spec: [StringMemberOrderedMap] and
    [StringTypeOrderedMap] are generated ordered maps; their code is
    missing here. They are the "mapping from name to Member"
    and "mapping from name to nested type" of the data model: one entry per
    name, in the order of insertion. *)
Module orderedmap.

Definition OrderedMap (V : Type) := list (string * V).

Fixpoint Get {V} (m : OrderedMap V) (key : string) : option V :=
  match m with
  | [] => None
  | (k, v) :: m' => if decide (k = key) then Some v else Get m' key
  end.

(** [Set]: the value of an existing key is replaced where the key stands,
    a new key is added at the end. *)
Fixpoint Set_ {V} (m : OrderedMap V) (key : string) (value : V) : OrderedMap V :=
  match m with
  | [] => [(key, value)]
  | (k, v) :: m' =>
      if decide (k = key) then (k, value) :: m' else (k, v) :: Set_ m' key value
  end.

End orderedmap.

Abbreviation StringMemberOrderedMap := (orderedmap.OrderedMap Member).
Abbreviation StringTypeOrderedMap := (orderedmap.OrderedMap SemaType).

Definition Location := N.

(** The object behind a [*InterfaceType]. *)
Record InterfaceType := {
  InterfaceType_Location : Location;
  InterfaceType_Identifier : string;
  InterfaceType_CompositeKind : CompositeKind;
  ExplicitInterfaceConformances : list loc;
  NestedTypes : StringTypeOrderedMap;
  Members : StringMemberOrderedMap;
  Fields : list string;
  InitializerParameters : list (string * SemaType);
  InterfaceType_containerType : option SemaType
}.

(** The object behind a [*CompositeType], with the fields that the
    interface checker touches. *)
Record CompositeType := {
  CompositeType_Identifier : string;
  CompositeType_Kind : CompositeKind;
  CompositeType_containerType : option SemaType
}.

(** Assignments to the fields of a [*InterfaceType]. *)
Definition with_ExplicitInterfaceConformances (v : list loc) (t : InterfaceType) :=
  {| InterfaceType_Location := InterfaceType_Location t;
     InterfaceType_Identifier := InterfaceType_Identifier t;
     InterfaceType_CompositeKind := InterfaceType_CompositeKind t;
     ExplicitInterfaceConformances := v;
     NestedTypes := NestedTypes t;
     Members := Members t;
     Fields := Fields t;
     InitializerParameters := InitializerParameters t;
     InterfaceType_containerType := InterfaceType_containerType t |}.

Definition with_NestedTypes (v : StringTypeOrderedMap) (t : InterfaceType) :=
  {| InterfaceType_Location := InterfaceType_Location t;
     InterfaceType_Identifier := InterfaceType_Identifier t;
     InterfaceType_CompositeKind := InterfaceType_CompositeKind t;
     ExplicitInterfaceConformances := ExplicitInterfaceConformances t;
     NestedTypes := v;
     Members := Members t;
     Fields := Fields t;
     InitializerParameters := InitializerParameters t;
     InterfaceType_containerType := InterfaceType_containerType t |}.

Definition with_Members (v : StringMemberOrderedMap) (t : InterfaceType) :=
  {| InterfaceType_Location := InterfaceType_Location t;
     InterfaceType_Identifier := InterfaceType_Identifier t;
     InterfaceType_CompositeKind := InterfaceType_CompositeKind t;
     ExplicitInterfaceConformances := ExplicitInterfaceConformances t;
     NestedTypes := NestedTypes t;
     Members := v;
     Fields := Fields t;
     InitializerParameters := InitializerParameters t;
     InterfaceType_containerType := InterfaceType_containerType t |}.

Definition with_Fields (v : list string) (t : InterfaceType) :=
  {| InterfaceType_Location := InterfaceType_Location t;
     InterfaceType_Identifier := InterfaceType_Identifier t;
     InterfaceType_CompositeKind := InterfaceType_CompositeKind t;
     ExplicitInterfaceConformances := ExplicitInterfaceConformances t;
     NestedTypes := NestedTypes t;
     Members := Members t;
     Fields := v;
     InitializerParameters := InitializerParameters t;
     InterfaceType_containerType := InterfaceType_containerType t |}.

Definition with_InitializerParameters (v : list (string * SemaType)) (t : InterfaceType) :=
  {| InterfaceType_Location := InterfaceType_Location t;
     InterfaceType_Identifier := InterfaceType_Identifier t;
     InterfaceType_CompositeKind := InterfaceType_CompositeKind t;
     ExplicitInterfaceConformances := ExplicitInterfaceConformances t;
     NestedTypes := NestedTypes t;
     Members := Members t;
     Fields := Fields t;
     InitializerParameters := v;
     InterfaceType_containerType := InterfaceType_containerType t |}.

(** [SetContainerType] of a [*InterfaceType] and of a [*CompositeType]. *)
Definition InterfaceType_SetContainerType (v : SemaType) (t : InterfaceType) :=
  {| InterfaceType_Location := InterfaceType_Location t;
     InterfaceType_Identifier := InterfaceType_Identifier t;
     InterfaceType_CompositeKind := InterfaceType_CompositeKind t;
     ExplicitInterfaceConformances := ExplicitInterfaceConformances t;
     NestedTypes := NestedTypes t;
     Members := Members t;
     Fields := Fields t;
     InitializerParameters := InitializerParameters t;
     InterfaceType_containerType := Some v |}.

Definition CompositeType_SetContainerType (v : SemaType) (t : CompositeType) :=
  {| CompositeType_Identifier := CompositeType_Identifier t;
     CompositeType_Kind := CompositeType_Kind t;
     CompositeType_containerType := Some v |}.

(** *** Diagnostics *)

(** The errors that the interface checker builds; [OtherError] stands for
    an error built elsewhere (the [err] that [declareType] returns). *)
Inductive CheckerError :=
  | InterfaceMemberConflictError
      (InterfaceType ConflictingInterfaceType : loc)
      (MemberName : string)
      (MemberKind ConflictingMemberKind : DeclarationKind)
      (range : Range)
  | InvalidImplementationError
      (Pos : Position)
      (ContainerKind ImplementedKind : DeclarationKind)
  | InvalidInterfaceDeclarationError
      (CompositeKind : CompositeKind)
      (range : Range)
  | OtherError (code : N).

(** A panic: [errors.NewUnreachableError()], or a panic of the Go runtime
    (a nil pointer dereferenced, a type assertion that fails). *)
Inductive PanicKind := UnreachableError | RuntimeError.

Inductive Result (A : Type) :=
  | Ok (a : A)
  | Panic (p : PanicKind).
Arguments Ok {A} a.
Arguments Panic {A} p.

(** *** The checker *)

Record typeDeclaration := {
  typeDeclaration_identifier : Identifier;
  typeDeclaration_ty : SemaType;
  typeDeclaration_declarationKind : DeclarationKind;
  typeDeclaration_access : ast.Access;
  typeDeclaration_docString : string;
  allowOuterScopeShadowing : bool
}.

Record functionDeclarationOptions := {
  mustExit : bool;
  declareFunction : bool;
  checkResourceLoss : bool
}.

(** [checker.Elaboration]: its three maps about interfaces. The first two
    are keyed by the address of a declaration and of an interface type; an
    absent key reads as nil. *)
Record Elaboration := {
  InterfaceDeclarationTypes : gmap loc loc;
  InterfaceTypeDeclarations : gmap loc loc;
  InterfaceNestedDeclarations : gmap loc (gmap string Declaration)
}.

Section WithEnv.

(** What the checker holds besides the fields below (the type and value
    activations, the position information, the configuration): the passes
    of the other files of the package read and write it. *)
Variable Env : Type.

(** A [*Checker]. The objects that its pointers reach are part of it:
    [interfaceTypes] and [compositeTypes] map an address to the object. *)
Record Checker := {
  errors : list CheckerError;
  Checker_Elaboration : Elaboration;
  interfaceTypes : gmap loc InterfaceType;
  compositeTypes : gmap loc CompositeType;
  containerTypes : gmap SemaType bool;
  Checker_Location : Location;
  PositionInfo_notNil : bool;
  env : Env
}.

Definition with_errors (v : list CheckerError) (c : Checker) : Checker :=
  {| errors := v;
     Checker_Elaboration := Checker_Elaboration c;
     interfaceTypes := interfaceTypes c;
     compositeTypes := compositeTypes c;
     containerTypes := containerTypes c;
     Checker_Location := Checker_Location c;
     PositionInfo_notNil := PositionInfo_notNil c;
     env := env c |}.

Definition with_Elaboration (v : Elaboration) (c : Checker) : Checker :=
  {| errors := errors c;
     Checker_Elaboration := v;
     interfaceTypes := interfaceTypes c;
     compositeTypes := compositeTypes c;
     containerTypes := containerTypes c;
     Checker_Location := Checker_Location c;
     PositionInfo_notNil := PositionInfo_notNil c;
     env := env c |}.

Definition with_interfaceTypes (v : gmap loc InterfaceType) (c : Checker) : Checker :=
  {| errors := errors c;
     Checker_Elaboration := Checker_Elaboration c;
     interfaceTypes := v;
     compositeTypes := compositeTypes c;
     containerTypes := containerTypes c;
     Checker_Location := Checker_Location c;
     PositionInfo_notNil := PositionInfo_notNil c;
     env := env c |}.

Definition with_compositeTypes (v : gmap loc CompositeType) (c : Checker) : Checker :=
  {| errors := errors c;
     Checker_Elaboration := Checker_Elaboration c;
     interfaceTypes := interfaceTypes c;
     compositeTypes := v;
     containerTypes := containerTypes c;
     Checker_Location := Checker_Location c;
     PositionInfo_notNil := PositionInfo_notNil c;
     env := env c |}.

Definition with_containerTypes (v : gmap SemaType bool) (c : Checker) : Checker :=
  {| errors := errors c;
     Checker_Elaboration := Checker_Elaboration c;
     interfaceTypes := interfaceTypes c;
     compositeTypes := compositeTypes c;
     containerTypes := v;
     Checker_Location := Checker_Location c;
     PositionInfo_notNil := PositionInfo_notNil c;
     env := env c |}.

(** A method of the checker that may panic: the state is threaded, and a
    panic ends the pass without one. *)
Definition M (A : Type) : Type := Checker -> Result (A * Checker).

Definition ret {A} (a : A) : M A := fun c => Ok (a, c).

Definition bind {A B} (m : M A) (k : A -> M B) : M B :=
  fun c =>
    match m c with
    | Ok (a, c') => k a c'
    | Panic p => Panic p
    end.

Definition panic {A} (p : PanicKind) : M A := fun _ => Panic p.

(** A step that only changes the checker. *)
Definition run (f : Checker -> Checker) : M unit := fun c => Ok (tt, f c).

(** A step that returns a value and changes the checker. *)
Definition call {A} (f : Checker -> A * Checker) : M A := fun c => Ok (f c).

Definition get : M Checker := fun c => Ok (c, c).

Definition forM_ {A} (l : list A) (body : A -> M unit) : M unit :=
  (fix loop (l : list A) : M unit :=
     match l with
     | [] => ret tt
     | x :: l' => bind (body x) (fun _ => loop l')
     end) l.

(** Modelled from the spec: [checker.report] is missing here (it is
    declared with the checker). It is the "diagnostic reporter accepting structured errors
    without halting the pass (non-fatal accumulation)"; the callers here
    pass it the optional [err] of [declareType], which may be nil. *)
Definition report (err : option CheckerError) (c : Checker) : Checker :=
  match err with
  | None => c
  | Some e => with_errors (errors c ++ [e]) c
  end.

End WithEnv.

Arguments errors {Env} c.
Arguments Checker_Elaboration {Env} c.
Arguments interfaceTypes {Env} c.
Arguments compositeTypes {Env} c.
Arguments containerTypes {Env} c.
Arguments Checker_Location {Env} c.
Arguments PositionInfo_notNil {Env} c.
Arguments env {Env} c.
Arguments with_errors {Env} v c.
Arguments with_Elaboration {Env} v c.
Arguments with_interfaceTypes {Env} v c.
Arguments with_compositeTypes {Env} v c.
Arguments with_containerTypes {Env} v c.
Arguments ret {Env A} a _.
Arguments bind {Env A B} m k _.
Arguments panic {Env A} p _.
Arguments run {Env} f _.
Arguments call {Env A} f _.
Arguments get {Env} _.
Arguments forM_ {Env A} l body _.
Arguments report {Env} err c.

Declare Scope checker_scope.
Delimit Scope checker_scope with checker.
Notation "'let*' x ':=' m 'in' k" := (bind m (fun x => k))
  (at level 10, x pattern, m at level 100, k at level 200) : checker_scope.
Open Scope checker_scope.

(** *** The passes of the other files

    Each method that the interface checker calls and that is declared in
    another file or package is a parameter. A method of the checker gets
    the checker and gives the checker back, with its results when it has
    some; none of them panics. Where the source computes an argument from
    the declaration only to pass it on
    ([declaration.Members.Initializers()],
    [declaration.DeclarationDocString()], ...), the declaration is passed.
    [memberSatisfied] reads the checker and returns its verdict.
    [ForeachDistinct] gives the conformances that it calls its callback
    with, in the order of the calls: the callback of
    [VisitInterfaceDeclaration] always returns true, so none is skipped. A
    [*Variable] is an address. *)
Class Collaborators (Env : Type) := {
  (* package common *)
  CompositeKind_DeclarationKind : CompositeKind -> bool -> DeclarationKind;
  CompositeKind_SupportsInterfaces : CompositeKind -> bool;
  (* package ast *)
  InterfaceDeclaration_DeclarationKind : InterfaceDeclaration -> DeclarationKind;
  (* conformances *)
  memberSatisfied : loc -> Member -> Member -> Checker Env -> bool;
  checkConformanceKindMatch :
    InterfaceDeclaration -> loc -> loc -> Checker Env -> Checker Env;
  ForeachDistinct : list loc -> Checker Env -> list loc;
  explicitInterfaceConformances :
    InterfaceDeclaration -> loc -> Checker Env -> list loc * Checker Env;
  (* scopes *)
  typeActivations_Enter : Checker Env -> Checker Env;
  typeActivations_Leave : Position -> Checker Env -> Checker Env;
  typeActivations_declareType :
    typeDeclaration -> Checker Env -> (option loc * option CheckerError) * Checker Env;
  enterValueScope : Checker Env -> Checker Env;
  leaveValueScope : Position -> bool -> Checker Env -> Checker Env;
  declareSelfValue : SemaType -> string -> Checker Env -> Checker Env;
  recordVariableDeclarationOccurrence : string -> loc -> Checker Env -> Checker Env;
  (* declaration of nested declarations and of members *)
  declareNestedDeclarations :
    CompositeKind -> DeclarationKind ->
    list CompositeDeclaration -> list InterfaceDeclaration ->
    Checker Env -> (gmap string Declaration * list loc * list loc) * Checker Env;
  defaultMembersAndOrigins :
    InterfaceDeclaration -> loc -> ContainerKind -> DeclarationKind ->
    Checker Env ->
    (StringMemberOrderedMap * list string * list (string * Position)) * Checker Env;
  checkMemberStorability : StringMemberOrderedMap -> Checker Env -> Checker Env;
  recordMemberOrigins : loc -> list (string * Position) -> Checker Env -> Checker Env;
  initializerParameters :
    InterfaceDeclaration -> Checker Env -> list (string * SemaType) * Checker Env;
  declareCompositeMembersAndValue :
    CompositeDeclaration -> ContainerKind -> Checker Env -> Checker Env;
  (* checks *)
  checkDeclarationAccessModifier :
    ast.Access -> DeclarationKind -> Position -> bool -> Checker Env -> Checker Env;
  checkFieldsAccessModifier : list FieldDeclaration -> Checker Env -> Checker Env;
  checkNestedIdentifiers : InterfaceDeclaration -> Checker Env -> Checker Env;
  checkInitializers :
    InterfaceDeclaration -> loc -> list (string * SemaType) -> ContainerKind ->
    Checker Env -> Checker Env;
  checkUnknownSpecialFunctions :
    list SpecialFunctionDeclaration -> Checker Env -> Checker Env;
  checkSpecialFunctionDefaultImplementation :
    InterfaceDeclaration -> Checker Env -> Checker Env;
  checkResourceFieldNesting :
    StringMemberOrderedMap -> CompositeKind -> InterfaceDeclaration -> loc ->
    Checker Env -> Checker Env;
  checkDestructors :
    InterfaceDeclaration -> StringMemberOrderedMap -> loc -> ContainerKind ->
    Checker Env -> Checker Env;
  visitFunctionDeclaration :
    FunctionDeclaration -> functionDeclarationOptions -> Checker Env -> Checker Env;
  visitCompositeDeclaration :
    CompositeDeclaration -> ContainerKind -> Checker Env -> Checker Env
}.

Section Passes.

Context {Env : Type} `{!Collaborators Env}.

Local Abbreviation Checker := (Checker Env).
Local Abbreviation M := (M Env).

(** A loop over a list that threads local variables of the enclosing
    function (the inherited maps). *)
Fixpoint foldM {A S} (l : list A) (body : A -> S -> M S) (s : S) : M S :=
  match l with
  | [] => ret s
  | x :: l' => let* s' := body x s in foldM l' body s'
  end.

(** Reading a field through a [*InterfaceType]; the pointer must point to
    an object. *)
Definition derefInterfaceType (l : loc) : M InterfaceType :=
  fun c =>
    match interfaceTypes c !! l with
    | Some t => Ok (t, c)
    | None => Panic RuntimeError
    end.

(** [GetCompositeKind()] of a [CompositeKindedType]. *)
Definition GetCompositeKind (t : SemaType) : M CompositeKind :=
  fun c =>
    match t with
    | InterfaceTypeRef l =>
        match interfaceTypes c !! l with
        | Some o => Ok (InterfaceType_CompositeKind o, c)
        | None => Panic RuntimeError
        end
    | CompositeTypeRef l =>
        match compositeTypes c !! l with
        | Some o => Ok (CompositeType_Kind o, c)
        | None => Panic RuntimeError
        end
    | OtherType _ => Panic RuntimeError
    end.

Definition checkDuplicateInterfaceMembers
    (interfaceType : loc) (interfaceMember : Member)
    (conflictingInterfaceType : loc) (conflictingMember : Member)
    (getRange : unit -> Range) (checker : Checker) : Checker :=
  let reportMemberConflictError (checker : Checker) :=
    report (Some (InterfaceMemberConflictError
                    interfaceType
                    conflictingInterfaceType
                    (Identifier_Identifier (Member_Identifier interfaceMember))
                    (Member_DeclarationKind interfaceMember)
                    (Member_DeclarationKind conflictingMember)
                    (getRange tt))) checker in
  if negb (memberSatisfied interfaceType interfaceMember conflictingMember checker)
  then reportMemberConflictError checker
  else
    if HasConditions interfaceMember
       || HasImplementation interfaceMember
       || HasConditions conflictingMember
       || HasImplementation conflictingMember
    then reportMemberConflictError checker
    else checker.

(** The first closure of [checkInterfaceConformance], the body of
    [conformance.Members.Foreach]. The Go map [inheritedMembers] is
    written in place; here the closure gives the written map back. *)
Definition checkInterfaceConformance_member
    (interfaceDeclaration : InterfaceDeclaration)
    (interfaceType conformance : loc)
    (entry : string * Member) (inheritedMembers : gmap string Member)
  : M (gmap string Member) :=
  let '(name, conformanceMember) := entry in
  (* Check if the members coming from other conformances have conflicts. *)
  let* _ :=
    match inheritedMembers !! name with
    | Some conflictingMember =>
        match Member_ContainerType conflictingMember with
        | InterfaceTypeRef conflictingInterface =>
            run (checkDuplicateInterfaceMembers
                   conformance
                   conformanceMember
                   conflictingInterface
                   conflictingMember
                   (fun _ => NewRangeFromPositioned (decl_Identifier interfaceDeclaration)))
        | _ => panic RuntimeError
        end
    | None => ret tt
    end in
  let inheritedMembers := <[name := conformanceMember]> inheritedMembers in
  (* Check if the members coming from the current declaration have conflicts. *)
  let* interfaceTypeObject := derefInterfaceType interfaceType in
  match orderedmap.Get (Members interfaceTypeObject) name with
  | None => ret inheritedMembers
  | Some declarationMember =>
      let* _ :=
        run (checkDuplicateInterfaceMembers
               interfaceType
               declarationMember
               conformance
               conformanceMember
               (fun _ => NewRangeFromPositioned (Member_Identifier declarationMember))) in
      ret inheritedMembers
  end.

Definition reportTypeConflictError
    (interfaceDeclaration : InterfaceDeclaration)
    (interfaceType conformance : loc)
    (typeName : string) (typ : SemaType) (otherType : SemaType) : M unit :=
  match asCompositeKindedType otherType with
  | None => ret tt
  | Some otherCompositeType =>
      let isInterface := isInterfaceType typ in
      let isOtherTypeInterface := isInterfaceType otherCompositeType in
      let* kind := GetCompositeKind typ in
      let* otherKind := GetCompositeKind otherCompositeType in
      run (report (Some (InterfaceMemberConflictError
                           interfaceType
                           conformance
                           typeName
                           (CompositeKind_DeclarationKind kind isInterface)
                           (CompositeKind_DeclarationKind otherKind isOtherTypeInterface)
                           (NewRangeFromPositioned (decl_Identifier interfaceDeclaration)))))
  end.

(** The second closure, the body of [conformance.NestedTypes.Foreach]. *)
Definition checkInterfaceConformance_nestedType
    (interfaceDeclaration : InterfaceDeclaration)
    (interfaceType conformance : loc)
    (entry : string * SemaType) (inheritedNestedTypes : gmap string SemaType)
  : M (gmap string SemaType) :=
  let '(name, typeRequirement) := entry in
  match asCompositeKindedType typeRequirement with
  | None => ret inheritedNestedTypes
  | Some compositeType =>
      let rest :=
        let inheritedNestedTypes := <[name := typeRequirement]> inheritedNestedTypes in
        (* Check if the type definitions coming from the current declaration
           have conflicts. *)
        let* interfaceTypeObject := derefInterfaceType interfaceType in
        match orderedmap.Get (NestedTypes interfaceTypeObject) name with
        | Some nestedType =>
            let* _ :=
              reportTypeConflictError interfaceDeclaration interfaceType conformance
                name compositeType nestedType in
            ret inheritedNestedTypes
        | None => ret inheritedNestedTypes
        end in
      (* Check if the type definitions coming from other conformances have
         conflicts. *)
      match inheritedNestedTypes !! name with
      | Some inheritedType =>
          match asCompositeKindedType inheritedType with
          | None => ret inheritedNestedTypes
          | Some inheritedCompositeType =>
              let* _ :=
                reportTypeConflictError interfaceDeclaration interfaceType conformance
                  name compositeType inheritedCompositeType in
              rest
          end
      | None => rest
      end
  end.

(** The two Go maps are written in place by the closures; here they come
    in as a pair and the written maps are returned. *)
Definition checkInterfaceConformance
    (interfaceDeclaration : InterfaceDeclaration)
    (interfaceType conformance : loc)
    (inherited : gmap string Member * gmap string SemaType)
  : M (gmap string Member * gmap string SemaType) :=
  let '(inheritedMembers, inheritedNestedTypes) := inherited in
  (* Ensure the composite kinds match *)
  let* _ := run (checkConformanceKindMatch interfaceDeclaration interfaceType conformance) in
  (* Check for member (functions and fields) conflicts *)
  let* conformanceObject := derefInterfaceType conformance in
  let* inheritedMembers :=
    foldM (Members conformanceObject)
      (checkInterfaceConformance_member interfaceDeclaration interfaceType conformance)
      inheritedMembers in
  (* Check for nested type conflicts *)
  let* conformanceObject := derefInterfaceType conformance in
  let* inheritedNestedTypes :=
    foldM (NestedTypes conformanceObject)
      (checkInterfaceConformance_nestedType interfaceDeclaration interfaceType conformance)
      inheritedNestedTypes in
  ret (inheritedMembers, inheritedNestedTypes).

(** The closure that [checkInterfaceFunctions] runs for each function. *)
Definition checkInterfaceFunctions_function
    (selfType : SemaType) (declarationKind : DeclarationKind) (selfDocString : string)
    (function : FunctionDeclaration) (checker : Checker) : Checker :=
  let checker := enterValueScope checker in
  let checker := declareSelfValue selfType selfDocString checker in
  let mustExit := false in
  let checkResourceLoss := false in
  let '(mustExit, checkResourceLoss, checker) :=
    match FunctionDeclaration_FunctionBlock function with
    | Some functionBlock =>
        if HasStatements functionBlock then
          (true, true, checker)
        else if PreConditions_IsEmpty functionBlock
                && PostConditions_IsEmpty functionBlock then
          (mustExit, checkResourceLoss,
           report (Some (InvalidImplementationError
                           (FunctionBlock_StartPosition functionBlock)
                           declarationKind
                           DeclarationKindFunction)) checker)
        else (mustExit, checkResourceLoss, checker)
    | None => (mustExit, checkResourceLoss, checker)
    end in
  let checker :=
    visitFunctionDeclaration
      function
      {| mustExit := mustExit;
         declareFunction := false;
         checkResourceLoss := checkResourceLoss |}
      checker in
  (* deferred *)
  leaveValueScope (FunctionDeclaration_EndPosition function) false checker.

Definition checkInterfaceFunctions
    (functions : list FunctionDeclaration)
    (selfType : SemaType) (declarationKind : DeclarationKind) (selfDocString : string)
    (checker : Checker) : Checker :=
  foldl (fun checker function =>
           checkInterfaceFunctions_function selfType declarationKind selfDocString
             function checker)
        checker functions.

(** A write through a [*InterfaceType] and through a value of the
    interface [Type] that holds a nested type. *)
Definition updateInterfaceType (l : loc) (f : InterfaceType -> InterfaceType) : M unit :=
  let* object := derefInterfaceType l in
  run (fun c => with_interfaceTypes (<[l := f object]> (interfaceTypes c)) c).

Definition derefCompositeType (l : loc) : M CompositeType :=
  fun c =>
    match compositeTypes c !! l with
    | Some t => Ok (t, c)
    | None => Panic RuntimeError
    end.

Definition updateCompositeType (l : loc) (f : CompositeType -> CompositeType) : M unit :=
  let* object := derefCompositeType l in
  run (fun c => with_compositeTypes (<[l := f object]> (compositeTypes c)) c).

(** [&InterfaceType{...}]: the object gets an address that no interface
    type has. *)
Definition newInterfaceType (object : InterfaceType) : M loc :=
  fun c =>
    let l := fresh (dom (interfaceTypes c)) in
    Ok (l, with_interfaceTypes (<[l := object]> (interfaceTypes c)) c).

Definition declareInterfaceNestedTypes (declaration : InterfaceDeclaration) : M unit :=
  let* checker := get in
  let interfaceType :=
    InterfaceDeclarationTypes (Checker_Elaboration checker) !! decl_ptr declaration in
  let nestedDeclarations :=
    default ∅
      (InterfaceNestedDeclarations (Checker_Elaboration checker) !! decl_ptr declaration) in
  let* interfaceTypeObject :=
    match interfaceType with
    | Some interfaceType => derefInterfaceType interfaceType
    | None => panic RuntimeError
    end in
  forM_ (NestedTypes interfaceTypeObject) (fun '(name, nestedType) =>
    match nestedDeclarations !! name with
    | None => panic RuntimeError
    | Some nestedDeclaration =>
        match DeclarationIdentifier nestedDeclaration with
        | None =>
            (* It should be impossible to have a nested declaration
               that does not have an identifier *)
            panic UnreachableError
        | Some identifier =>
            let* (_, err) :=
              call (typeActivations_declareType
                      {| typeDeclaration_identifier := identifier;
                         typeDeclaration_ty := nestedType;
                         typeDeclaration_declarationKind :=
                           Declaration_DeclarationKind nestedDeclaration;
                         typeDeclaration_access := DeclarationAccess nestedDeclaration;
                         typeDeclaration_docString := DeclarationDocString nestedDeclaration;
                         allowOuterScopeShadowing := false |}) in
            run (report err)
        end
    end).

(** [declareInterfaceType], up to the two writes to the elaboration. *)
Definition declareInterfaceType_register (declaration : InterfaceDeclaration) : M loc :=
  let identifier := decl_Identifier declaration in
  let* checker := get in
  let* interfaceType :=
    newInterfaceType
      {| InterfaceType_Location := Checker_Location checker;
         InterfaceType_Identifier := Identifier_Identifier identifier;
         InterfaceType_CompositeKind := decl_CompositeKind declaration;
         ExplicitInterfaceConformances := [];
         NestedTypes := [];
         Members := [];
         Fields := [];
         InitializerParameters := [];
         InterfaceType_containerType := None |} in
  let* (variable, err) :=
    call (typeActivations_declareType
            {| typeDeclaration_identifier := identifier;
               typeDeclaration_ty := InterfaceTypeRef interfaceType;
               typeDeclaration_declarationKind :=
                 InterfaceDeclaration_DeclarationKind declaration;
               typeDeclaration_access := decl_Access declaration;
               typeDeclaration_docString := decl_DocString declaration;
               allowOuterScopeShadowing := false |}) in
  let* _ := run (report err) in
  let* checker := get in
  let* _ :=
    match PositionInfo_notNil checker, variable with
    | true, Some variable =>
        run (recordVariableDeclarationOccurrence
               (Identifier_Identifier identifier) variable)
    | _, _ => ret tt
    end in
  (* Resolve conformances *)
  let* conformances := call (explicitInterfaceConformances declaration interfaceType) in
  let* _ := updateInterfaceType interfaceType (with_ExplicitInterfaceConformances conformances) in
  let* _ :=
    run (fun c =>
      let e := Checker_Elaboration c in
      with_Elaboration
        {| InterfaceDeclarationTypes :=
             <[decl_ptr declaration := interfaceType]> (InterfaceDeclarationTypes e);
           InterfaceTypeDeclarations := InterfaceTypeDeclarations e;
           InterfaceNestedDeclarations := InterfaceNestedDeclarations e |} c) in
  let* _ :=
    run (fun c =>
      let e := Checker_Elaboration c in
      with_Elaboration
        {| InterfaceDeclarationTypes := InterfaceDeclarationTypes e;
           InterfaceTypeDeclarations :=
             <[interfaceType := decl_ptr declaration]> (InterfaceTypeDeclarations e);
           InterfaceNestedDeclarations := InterfaceNestedDeclarations e |} c) in
  ret interfaceType.

(** The two loops at the end of [declareInterfaceType]. *)
Definition linkNestedInterfaceTypes (interfaceType : loc) (nestedInterfaceTypes : list loc)
  : M unit :=
  forM_ nestedInterfaceTypes (fun nestedInterfaceType =>
    let* nested := derefInterfaceType nestedInterfaceType in
    let* _ :=
      updateInterfaceType interfaceType (fun t =>
        with_NestedTypes
          (orderedmap.Set_ (NestedTypes t) (InterfaceType_Identifier nested)
             (InterfaceTypeRef nestedInterfaceType)) t) in
    updateInterfaceType nestedInterfaceType
      (InterfaceType_SetContainerType (InterfaceTypeRef interfaceType))).

Definition linkNestedCompositeTypes (interfaceType : loc) (nestedCompositeTypes : list loc)
  : M unit :=
  forM_ nestedCompositeTypes (fun nestedCompositeType =>
    let* nested := derefCompositeType nestedCompositeType in
    let* _ :=
      updateInterfaceType interfaceType (fun t =>
        with_NestedTypes
          (orderedmap.Set_ (NestedTypes t) (CompositeType_Identifier nested)
             (CompositeTypeRef nestedCompositeType)) t) in
    updateCompositeType nestedCompositeType
      (CompositeType_SetContainerType (InterfaceTypeRef interfaceType))).

(** [declareInterfaceType], from "Activate new scope for nested
    declarations" to the end. *)
Definition declareInterfaceType_nested
    (declaration : InterfaceDeclaration) (interfaceType : loc) : M loc :=
  (* Activate new scope for nested declarations *)
  let* _ := run typeActivations_Enter in
  let* _ := run enterValueScope in
  (* Check and declare nested types *)
  let* (nestedDeclarations, nestedInterfaceTypes, nestedCompositeTypes) :=
    call (declareNestedDeclarations
            (decl_CompositeKind declaration)
            (InterfaceDeclaration_DeclarationKind declaration)
            (Members_Composites declaration)
            (Members_Interfaces declaration)) in
  let* _ :=
    run (fun c =>
      let e := Checker_Elaboration c in
      with_Elaboration
        {| InterfaceDeclarationTypes := InterfaceDeclarationTypes e;
           InterfaceTypeDeclarations := InterfaceTypeDeclarations e;
           InterfaceNestedDeclarations :=
             <[decl_ptr declaration := nestedDeclarations]>
               (InterfaceNestedDeclarations e) |} c) in
  let* _ := linkNestedInterfaceTypes interfaceType nestedInterfaceTypes in
  let* _ := linkNestedCompositeTypes interfaceType nestedCompositeTypes in
  (* deferred, last first *)
  let* _ := run (leaveValueScope (decl_EndPosition declaration) false) in
  let* _ := run (typeActivations_Leave (decl_EndPosition declaration)) in
  ret interfaceType.

Definition declareInterfaceType (declaration : InterfaceDeclaration) : M loc :=
  let* interfaceType := declareInterfaceType_register declaration in
  let* _ :=
    if negb (CompositeKind_SupportsInterfaces (decl_CompositeKind declaration))
    then run (report (Some (InvalidInterfaceDeclarationError
                              (decl_CompositeKind declaration)
                              (NewRangeFromPositioned (decl_Identifier declaration)))))
    else ret tt in
  declareInterfaceType_nested declaration interfaceType.

Fixpoint declareInterfaceMembers (declaration : InterfaceDeclaration) : M unit :=
  let* checker := get in
  match InterfaceDeclarationTypes (Checker_Elaboration checker) !! decl_ptr declaration with
  | None => panic UnreachableError
  | Some interfaceType =>
      (* Activate new scope for nested declarations *)
      let* _ := run typeActivations_Enter in
      let* _ := run enterValueScope in
      (* Declare nested types *)
      let* _ := declareInterfaceNestedTypes declaration in
      (* Declare members *)
      let* (members, fields, origins) :=
        call (defaultMembersAndOrigins
                declaration
                interfaceType
                ContainerKindInterface
                (InterfaceDeclaration_DeclarationKind declaration)) in
      let* interfaceTypeObject := derefInterfaceType interfaceType in
      let* _ :=
        if decide (InterfaceType_CompositeKind interfaceTypeObject = CompositeKindContract)
        then run (checkMemberStorability members)
        else ret tt in
      let* _ := updateInterfaceType interfaceType (with_Members members) in
      let* _ := updateInterfaceType interfaceType (with_Fields fields) in
      let* checker := get in
      let* _ :=
        if PositionInfo_notNil checker
        then run (recordMemberOrigins interfaceType origins)
        else ret tt in
      (* NOTE: determine initializer parameter types while nested types are
         in scope *)
      let* parameters := call (initializerParameters declaration) in
      let* _ := updateInterfaceType interfaceType (with_InitializerParameters parameters) in
      (* Declare nested declarations' members *)
      let* _ := forM_ (Members_Interfaces declaration) declareInterfaceMembers in
      let* _ :=
        forM_ (Members_Composites declaration) (fun nestedCompositeDeclaration =>
          run (declareCompositeMembersAndValue
                 nestedCompositeDeclaration ContainerKindInterface)) in
      (* deferred, last first *)
      let* _ := run (leaveValueScope (decl_EndPosition declaration) false) in
      run (typeActivations_Leave (decl_EndPosition declaration))
  end.

(** [checker.containerTypes[interfaceType] = v]. *)
Definition setContainerType (interfaceType : loc) (v : bool) (c : Checker) : Checker :=
  with_containerTypes (<[InterfaceTypeRef interfaceType := v]> (containerTypes c)) c.

(** [ast.AcceptDeclaration] hands a nested [*ast.InterfaceDeclaration] to
    the method [VisitInterfaceDeclaration] of the visitor, the checker:
    the call is the recursive call. *)
Fixpoint VisitInterfaceDeclaration (declaration : InterfaceDeclaration) : M unit :=
  let kind := ContainerKindInterface in
  let* checker := get in
  match InterfaceDeclarationTypes (Checker_Elaboration checker) !! decl_ptr declaration with
  | None => panic UnreachableError
  | Some interfaceType =>
      let* _ := run (setContainerType interfaceType true) in
      let* _ :=
        run (checkDeclarationAccessModifier
               (decl_Access declaration)
               (InterfaceDeclaration_DeclarationKind declaration)
               (decl_StartPos declaration)
               true) in
      let inheritedMembers : gmap string Member := ∅ in
      let inheritedTypes : gmap string SemaType := ∅ in
      let* interfaceTypeObject := derefInterfaceType interfaceType in
      let* checker := get in
      let* _ :=
        foldM (ForeachDistinct (ExplicitInterfaceConformances interfaceTypeObject) checker)
          (fun conformance inherited =>
             checkInterfaceConformance declaration interfaceType conformance inherited)
          (inheritedMembers, inheritedTypes) in
      (* NOTE: functions are checked separately *)
      let* _ := run (checkFieldsAccessModifier (Members_Fields declaration)) in
      let* _ := run (checkNestedIdentifiers declaration) in
      (* Activate new scope for nested types *)
      let* _ := run typeActivations_Enter in
      (* Declare nested types *)
      let* _ := declareInterfaceNestedTypes declaration in
      let* interfaceTypeObject := derefInterfaceType interfaceType in
      let* _ :=
        run (checkInitializers
               declaration
               interfaceType
               (InitializerParameters interfaceTypeObject)
               kind) in
      let* _ := run (checkUnknownSpecialFunctions (Members_SpecialFunctions declaration)) in
      let* _ := run (checkSpecialFunctionDefaultImplementation declaration) in
      let* _ :=
        run (checkInterfaceFunctions
               (Members_Functions declaration)
               (InterfaceTypeRef interfaceType)
               (InterfaceDeclaration_DeclarationKind declaration)
               (decl_DocString declaration)) in
      let* interfaceTypeObject := derefInterfaceType interfaceType in
      let* _ :=
        run (checkResourceFieldNesting
               (Members interfaceTypeObject)
               (InterfaceType_CompositeKind interfaceTypeObject)
               declaration
               interfaceType) in
      let* interfaceTypeObject := derefInterfaceType interfaceType in
      let* _ :=
        run (checkDestructors
               declaration
               (Members interfaceTypeObject)
               interfaceType
               kind) in
      (* NOTE: visit interfaces first *)
      let* _ := forM_ (Members_Interfaces declaration) VisitInterfaceDeclaration in
      let* _ :=
        forM_ (Members_Composites declaration) (fun nestedComposite =>
          (* Composite declarations nested in interface declarations are
             type requirements, i.e. they should be checked like interfaces *)
          run (visitCompositeDeclaration nestedComposite kind)) in
      (* deferred, last first *)
      let* _ := run (typeActivations_Leave (decl_EndPosition declaration)) in
      run (setContainerType interfaceType false)
  end.

(** The checker after the first and after the second duplicate-member
    check of the closure over the members of a conformance. *)
Definition afterInheritedCheck (d : InterfaceDeclaration) (conformance : loc) (name : string) (m : Member)
    (inheritedMembers : gmap string Member) (c : Checker) : Checker :=
  match inheritedMembers !! name with
  | Some conflictingMember =>
      match Member_ContainerType conflictingMember with
      | InterfaceTypeRef conflictingInterface =>
          checkDuplicateInterfaceMembers conformance m conflictingInterface conflictingMember
            (fun _ => NewRangeFromPositioned (decl_Identifier d)) c
      | _ => c
      end
  | None => c
  end.

Definition afterOwnCheck (interfaceType conformance : loc) (name : string) (m : Member)
    (own : StringMemberOrderedMap) (c : Checker) : Checker :=
  match orderedmap.Get own name with
  | Some declarationMember =>
      checkDuplicateInterfaceMembers interfaceType declarationMember conformance m
        (fun _ => NewRangeFromPositioned (Member_Identifier declarationMember)) c
  | None => c
  end.

(** The composite kind of a composite-kinded type whose object the checker
    holds. *)
Definition compositeKindOf (c : Checker) (t : SemaType) : option CompositeKind :=
  match t with
  | InterfaceTypeRef l => InterfaceType_CompositeKind <$> interfaceTypes c !! l
  | CompositeTypeRef l => CompositeType_Kind <$> compositeTypes c !! l
  | OtherType _ => None
  end.

(** The diagnostics of a collision of the nested type [typ] of a
    conformance with the type [other] of the same name. *)
Definition typeConflictErrors (d : InterfaceDeclaration) (interfaceType conformance : loc)
    (typeName : string) (typ other : SemaType) (c : Checker) : list CheckerError :=
  match compositeKindOf c typ, compositeKindOf c other with
  | Some kind, Some otherKind =>
      [InterfaceMemberConflictError interfaceType conformance typeName
         (CompositeKind_DeclarationKind kind (isInterfaceType typ))
         (CompositeKind_DeclarationKind otherKind (isInterfaceType other))
         (NewRangeFromPositioned (decl_Identifier d))]
  | _, _ => []
  end.

(** *** What is asked of the passes of the other files *)

(** A pass that leaves the elaboration as it is. *)
Definition keepsElaboration (f : Checker -> Checker) : Prop :=
  forall c, Checker_Elaboration (f c) = Checker_Elaboration c.

Definition keepsElaborationR {A} (f : Checker -> A * Checker) : Prop :=
  forall c, Checker_Elaboration (f c).2 = Checker_Elaboration c.

(** The passes that [declareInterfaceMembers] and
    [VisitInterfaceDeclaration] call leave the elaboration as it is: only
    [declareInterfaceType] and the declaration of nested declarations
    write the three maps. *)
Record PassesKeepElaboration : Prop := {
  keeps_typeActivations_Enter : keepsElaboration typeActivations_Enter;
  keeps_typeActivations_Leave : forall p, keepsElaboration (typeActivations_Leave p);
  keeps_typeActivations_declareType :
    forall t, keepsElaborationR (typeActivations_declareType t);
  keeps_enterValueScope : keepsElaboration enterValueScope;
  keeps_leaveValueScope : forall p b, keepsElaboration (leaveValueScope p b);
  keeps_declareSelfValue : forall t s, keepsElaboration (declareSelfValue t s);
  keeps_defaultMembersAndOrigins :
    forall d l k dk, keepsElaborationR (defaultMembersAndOrigins d l k dk);
  keeps_checkMemberStorability : forall m, keepsElaboration (checkMemberStorability m);
  keeps_recordMemberOrigins : forall l o, keepsElaboration (recordMemberOrigins l o);
  keeps_initializerParameters : forall d, keepsElaborationR (initializerParameters d);
  keeps_declareCompositeMembersAndValue :
    forall d k, keepsElaboration (declareCompositeMembersAndValue d k);
  keeps_checkConformanceKindMatch :
    forall d l l', keepsElaboration (checkConformanceKindMatch d l l');
  keeps_checkDeclarationAccessModifier :
    forall a k p b, keepsElaboration (checkDeclarationAccessModifier a k p b);
  keeps_checkFieldsAccessModifier : forall l, keepsElaboration (checkFieldsAccessModifier l);
  keeps_checkNestedIdentifiers : forall d, keepsElaboration (checkNestedIdentifiers d);
  keeps_checkInitializers : forall d l ps k, keepsElaboration (checkInitializers d l ps k);
  keeps_checkUnknownSpecialFunctions :
    forall l, keepsElaboration (checkUnknownSpecialFunctions l);
  keeps_checkSpecialFunctionDefaultImplementation :
    forall d, keepsElaboration (checkSpecialFunctionDefaultImplementation d);
  keeps_checkResourceFieldNesting :
    forall m k d l, keepsElaboration (checkResourceFieldNesting m k d l);
  keeps_checkDestructors : forall d m l k, keepsElaboration (checkDestructors d m l k);
  keeps_visitFunctionDeclaration :
    forall f o, keepsElaboration (visitFunctionDeclaration f o);
  keeps_visitCompositeDeclaration :
    forall d k, keepsElaboration (visitCompositeDeclaration d k)
}.

(** The declare pass has completed for a declaration: the elaboration has
    an interface type for it and for every interface nested in it, and the
    nested declarations that it records for them have identifiers. *)
Definition typeDeclared (e : Elaboration) (d : InterfaceDeclaration) : Prop :=
  is_Some (InterfaceDeclarationTypes e !! decl_ptr d)
  /\ forall nestedDeclarations name nestedDeclaration,
       InterfaceNestedDeclarations e !! decl_ptr d = Some nestedDeclarations ->
       nestedDeclarations !! name = Some nestedDeclaration ->
       is_Some (DeclarationIdentifier nestedDeclaration).

Definition typesDeclared (e : Elaboration) (d : InterfaceDeclaration) : Prop :=
  Forall (typeDeclared e) (interface_declarations d).

(** A pass that only works on the scopes. *)
Definition onlyScopes (f : Checker -> Checker) : Prop :=
  forall c,
    errors (f c) = errors c
    /\ Checker_Elaboration (f c) = Checker_Elaboration c
    /\ interfaceTypes (f c) = interfaceTypes c
    /\ compositeTypes (f c) = compositeTypes c.

(** A pass that leaves every object where it is: no pass frees an interface
    type. *)
Definition keepsInterfaceTypes {A} (f : Checker -> A * Checker) : Prop :=
  forall c l, is_Some (interfaceTypes c !! l) -> is_Some (interfaceTypes (f c).2 !! l).

(** What [declareInterfaceType] needs of the passes it calls. The
    declaration of the nested declarations returns pointers to objects,
    drops no diagnostic, frees no interface type, and leaves the entries
    of the elaboration's first two maps in place. *)
Record DeclarePassFrame : Prop := {
  frame_declareType : forall t, keepsInterfaceTypes (typeActivations_declareType t);
  frame_recordVariableDeclarationOccurrence :
    forall n v, keepsInterfaceTypes (fun c => (tt, recordVariableDeclarationOccurrence n v c));
  frame_explicitInterfaceConformances :
    forall d l, keepsInterfaceTypes (explicitInterfaceConformances d l);
  frame_typeActivations_Enter : onlyScopes typeActivations_Enter;
  frame_typeActivations_Leave : forall p, onlyScopes (typeActivations_Leave p);
  frame_enterValueScope : onlyScopes enterValueScope;
  frame_leaveValueScope : forall p, onlyScopes (leaveValueScope p false);
  frame_declareNestedDeclarations :
    forall k dk cs is_ c,
      let '(_, nestedInterfaceTypes, nestedCompositeTypes, c') :=
        declareNestedDeclarations k dk cs is_ c in
      (forall n, n ∈ nestedInterfaceTypes -> is_Some (interfaceTypes c' !! n))
      /\ (forall n, n ∈ nestedCompositeTypes -> is_Some (compositeTypes c' !! n))
      /\ errors c `prefix_of` errors c'
      /\ (forall l, is_Some (interfaceTypes c !! l) -> is_Some (interfaceTypes c' !! l))
      /\ InterfaceDeclarationTypes (Checker_Elaboration c)
           ⊆ InterfaceDeclarationTypes (Checker_Elaboration c')
      /\ InterfaceTypeDeclarations (Checker_Elaboration c)
           ⊆ InterfaceTypeDeclarations (Checker_Elaboration c')
}.

(** The nested types are linked to the interface type at [interfaceType]:
    each has the interface type as its container type, and the interface
    type has a nested type under its name. *)
Definition nestedTypesLinked (c : Checker) (interfaceType : loc)
    (nestedInterfaceTypes nestedCompositeTypes : list loc) : Prop :=
  exists object,
    interfaceTypes c !! interfaceType = Some object
    /\ (forall n, n ∈ nestedInterfaceTypes ->
          exists o, interfaceTypes c !! n = Some o
                    /\ InterfaceType_containerType o = Some (InterfaceTypeRef interfaceType)
                    /\ is_Some (orderedmap.Get (NestedTypes object) (InterfaceType_Identifier o)))
    /\ (forall n, n ∈ nestedCompositeTypes ->
          exists o, compositeTypes c !! n = Some o
                    /\ CompositeType_containerType o = Some (InterfaceTypeRef interfaceType)
                    /\ is_Some (orderedmap.Get (NestedTypes object) (CompositeType_Identifier o))).

(** A computation that, from a checker whose elaboration satisfies [P],
    returns with the elaboration it started from, or ends in a panic of
    the Go runtime: it never ends in [UnreachableError]. *)
Definition keepsOrFails {A} (P : Elaboration -> Prop) (m : M A) : Prop :=
  forall c,
    P (Checker_Elaboration c) ->
    match m c with
    | Ok (_, c') => Checker_Elaboration c' = Checker_Elaboration c
    | Panic p => p = RuntimeError
    end.

(** From [c] to [c'] the diagnostics and the elaboration are the same,
    and every object is still there, under its name, with the nested types
    it had and, if its container type was [X], with that container type. *)
Definition objectsKept (X : SemaType) (c c' : Checker) : Prop :=
  errors c' = errors c
  /\ Checker_Elaboration c' = Checker_Elaboration c
  /\ (forall l o,
        interfaceTypes c !! l = Some o ->
        exists o',
          interfaceTypes c' !! l = Some o'
          /\ InterfaceType_Identifier o' = InterfaceType_Identifier o
          /\ (InterfaceType_containerType o = Some X ->
              InterfaceType_containerType o' = Some X)
          /\ (forall k, is_Some (orderedmap.Get (NestedTypes o) k) ->
                        is_Some (orderedmap.Get (NestedTypes o') k)))
  /\ (forall l o,
        compositeTypes c !! l = Some o ->
        exists o',
          compositeTypes c' !! l = Some o'
          /\ CompositeType_Identifier o' = CompositeType_Identifier o
          /\ (CompositeType_containerType o = Some X ->
              CompositeType_containerType o' = Some X)).

(** A computation that, when it returns, has only added diagnostics, at
    most [n] of them, to the checker it started from. *)
Definition addsDiagnostics {A} (n : nat) (m : M A) : Prop :=
  forall c,
    match m c with
    | Ok (_, c') => exists l, length l <= n /\ c' = with_errors (errors c ++ l) c
    | Panic _ => True
    end.

(** The diagnostic of [checkInterfaceFunctions] for a function of an
    interface of the given kind. *)
Definition functionDiagnostics (declarationKind : DeclarationKind)
    (function : FunctionDeclaration) : list CheckerError :=
  match FunctionDeclaration_FunctionBlock function with
  | Some block =>
      if negb (HasStatements block)
         && PreConditions_IsEmpty block && PostConditions_IsEmpty block
      then [InvalidImplementationError (FunctionBlock_StartPosition block)
              declarationKind DeclarationKindFunction]
      else []
  | None => []
  end.

(** A pass that leaves the diagnostics as they are. *)
Definition keepsErrors (f : Checker -> Checker) : Prop :=
  forall c, errors (f c) = errors c.

(** The nested types of an interface type that [declareInterfaceNestedTypes]
    cannot declare: the first one without a nested declaration, or with a
    nested declaration without identifier. *)
Fixpoint firstUndeclarable (nestedDeclarations : gmap string Declaration)
    (nestedTypes : StringTypeOrderedMap) : option PanicKind :=
  match nestedTypes with
  | [] => None
  | (name, _) :: rest =>
      match nestedDeclarations !! name with
      | None => Some RuntimeError
      | Some nestedDeclaration =>
          match DeclarationIdentifier nestedDeclaration with
          | None => Some UnreachableError
          | Some _ => firstUndeclarable nestedDeclarations rest
          end
      end
  end.

(** A computation that, when it returns, has left every interface type
    where it is. *)
Definition keepsObjects {A} (m : M A) : Prop :=
  forall c,
    match m c with
    | Ok (_, c') =>
        forall l, is_Some (interfaceTypes c !! l) -> is_Some (interfaceTypes c' !! l)
    | Panic _ => True
    end.

End Passes.

(** *** The shape of the body of an interface function

    The three cases of the function-signature checker, in the words of the
    specification: a body with statements, a body that is present but
    empty and has no pre- and no post-conditions, and no body or a body
    with conditions only. *)
Inductive FunctionBodyShape :=
  | BodyWithStatements
  | EmptyBodyWithoutConditions (block : FunctionBlock)
  | NoBodyOrConditionsOnly.

Definition functionBodyShape (function : FunctionDeclaration) : FunctionBodyShape :=
  match FunctionDeclaration_FunctionBlock function with
  | None => NoBodyOrConditionsOnly
  | Some block =>
      if HasStatements block then BodyWithStatements
      else if PreConditions_IsEmpty block && PostConditions_IsEmpty block
           then EmptyBodyWithoutConditions block
           else NoBodyOrConditionsOnly
  end.

(** *** A checker to run the passes on

    Passes that do nothing stand for the passes of the other files: the
    structural comparison of two members compares
    their types and their kinds, the kind numbered 5 does not support
    interfaces, and every conformance is visited in the order of its
    declaration. *)
Definition sample_collaborators : Collaborators unit := {|
  CompositeKind_DeclarationKind := fun k isInterface =>
    match k with
    | CompositeKindContract => DeclarationKindOther (if isInterface then 1 else 0)
    | CompositeKindOther n => DeclarationKindOther (2 * n + (if isInterface then 3 else 2))
    end;
  CompositeKind_SupportsInterfaces := fun k =>
    bool_decide (k <> CompositeKindOther 5);
  InterfaceDeclaration_DeclarationKind := fun d =>
    match decl_CompositeKind d with
    | CompositeKindContract => DeclarationKindOther 1
    | CompositeKindOther n => DeclarationKindOther (2 * n + 3)
    end;
  memberSatisfied := fun _ x y _ =>
    bool_decide (Member_TypeAnnotation x = Member_TypeAnnotation y)
    && bool_decide (Member_DeclarationKind x = Member_DeclarationKind y);
  checkConformanceKindMatch := fun _ _ _ c => c;
  ForeachDistinct := fun l _ => l;
  explicitInterfaceConformances := fun _ _ c => ([], c);
  typeActivations_Enter := fun c => c;
  typeActivations_Leave := fun _ c => c;
  typeActivations_declareType := fun _ c => ((None, None), c);
  enterValueScope := fun c => c;
  leaveValueScope := fun _ _ c => c;
  declareSelfValue := fun _ _ c => c;
  recordVariableDeclarationOccurrence := fun _ _ c => c;
  declareNestedDeclarations := fun _ _ _ _ c => ((∅, [], []), c);
  defaultMembersAndOrigins := fun _ _ _ _ c => (([], [], []), c);
  checkMemberStorability := fun _ c => c;
  recordMemberOrigins := fun _ _ c => c;
  initializerParameters := fun _ c => ([], c);
  declareCompositeMembersAndValue := fun _ _ c => c;
  checkDeclarationAccessModifier := fun _ _ _ _ c => c;
  checkFieldsAccessModifier := fun _ c => c;
  checkNestedIdentifiers := fun _ c => c;
  checkInitializers := fun _ _ _ _ c => c;
  checkUnknownSpecialFunctions := fun _ c => c;
  checkSpecialFunctionDefaultImplementation := fun _ c => c;
  checkResourceFieldNesting := fun _ _ _ _ c => c;
  checkDestructors := fun _ _ _ _ c => c;
  visitFunctionDeclaration := fun _ _ c => c;
  visitCompositeDeclaration := fun _ _ c => c
|}.

Definition sample_position : Position := {| Offset := 0; Line := 1; Column := 0 |}.

Definition sample_identifier (name : string) : Identifier :=
  {| Identifier_Identifier := name; Identifier_Pos := sample_position |}.

(** A checker without diagnostics that holds the given interface types
    and composite types. *)
Definition sample_checker
    (its : list (loc * InterfaceType)) (cts : list (loc * CompositeType)) : Checker unit :=
  {| errors := [];
     Checker_Elaboration :=
       {| InterfaceDeclarationTypes := ∅;
          InterfaceTypeDeclarations := ∅;
          InterfaceNestedDeclarations := ∅ |};
     interfaceTypes := list_to_map its;
     compositeTypes := list_to_map cts;
     containerTypes := ∅;
     Checker_Location := 0%N;
     PositionInfo_notNil := false;
     env := tt |}.

(** An interface type of the given kind with the given nested types and
    members, and nothing else. *)
Definition sample_interfaceType (name : string) (kind : CompositeKind)
    (nested : StringTypeOrderedMap) (members : StringMemberOrderedMap) : InterfaceType :=
  {| InterfaceType_Location := 0%N;
     InterfaceType_Identifier := name;
     InterfaceType_CompositeKind := kind;
     ExplicitInterfaceConformances := [];
     NestedTypes := nested;
     Members := members;
     Fields := [];
     InitializerParameters := [];
     InterfaceType_containerType := None |}.

(** An interface declaration of the given kind at the given address, with
    the given nested interface declarations and functions. *)
Definition sample_declaration (ptr : loc) (name : string) (kind : CompositeKind)
    (functions : list FunctionDeclaration) (interfaces : list InterfaceDeclaration)
  : InterfaceDeclaration :=
  {| decl_ptr := ptr;
     decl_Access := ast.AccessOfPrimitive ast.AccessPublic;
     decl_CompositeKind := kind;
     decl_Identifier := sample_identifier name;
     decl_DocString := EmptyString;
     decl_StartPos := sample_position;
     decl_EndPosition := sample_position;
     Members_Fields := [];
     Members_Functions := functions;
     Members_SpecialFunctions := [];
     Members_Interfaces := interfaces;
     Members_Composites := [] |}.

(** A function member of an interface type, with the given type. *)
Definition sample_member (container : loc) (name : string) (ty : N)
    (hasImplementation hasConditions : bool) : Member :=
  {| Member_ContainerType := InterfaceTypeRef container;
     Member_Identifier := sample_identifier name;
     Member_Access := ast.AccessOfPrimitive ast.AccessPublic;
     Member_TypeAnnotation := OtherType ty;
     Member_DeclarationKind := DeclarationKindFunction;
     HasImplementation := hasImplementation;
     HasConditions := hasConditions |}.

(** An interface [I] at address 1 that declares a nested interface [N]
    and a function [f], a conformance [C] at address 2 with a nested
    interface [N] and a function [f] of its own, an earlier conformance
    [B] at address 5 with a function [f], and the two nested interfaces at
    the addresses 3 and 4. *)
Definition example_checker : Checker unit :=
  sample_checker
    [(1%positive, sample_interfaceType "I" CompositeKindContract
                    [("N", InterfaceTypeRef 3%positive)]
                    [("f", sample_member 1%positive "f" 7%N false false)]);
     (2%positive, sample_interfaceType "C" CompositeKindContract
                    [("N", InterfaceTypeRef 4%positive)]
                    [("f", sample_member 2%positive "f" 7%N true false)]);
     (3%positive, sample_interfaceType "N" (CompositeKindOther 1) [] []);
     (4%positive, sample_interfaceType "N" (CompositeKindOther 1) [] []);
     (5%positive, sample_interfaceType "B" CompositeKindContract
                    []
                    [("f", sample_member 5%positive "f" 7%N false false)])]
    [].

Definition example_declaration : InterfaceDeclaration :=
  sample_declaration 10%positive "I" CompositeKindContract [] [].

(** A declaration of the kind that does not support interfaces. *)
Definition example_unsupported_declaration : InterfaceDeclaration :=
  sample_declaration 11%positive "E" (CompositeKindOther 5) [] [].

(** The members named [f] of the conformance [C] and of the earlier
    conformance [B], and the inherited members after [B] was checked. *)
Definition example_member : Member := sample_member 2%positive "f" 7%N true false.

Definition example_earlier_member : Member := sample_member 5%positive "f" 7%N false false.

Definition example_inheritedMembers : gmap string Member :=
  {["f" := example_earlier_member]}.

(** The checker after the declare pass on [example_declaration]. *)
Definition example_declared_checker : Checker unit :=
  match declareInterfaceType (Collaborators0 := sample_collaborators)
          example_declaration example_checker with
  | Ok (_, c) => c
  | Panic _ => example_checker
  end.

(** Three functions of an interface: one with statements, one with an
    empty body and no conditions, one with a pre-condition only. *)
Definition example_functions : list FunctionDeclaration :=
  [ {| FunctionDeclaration_Identifier := sample_identifier "f";
       FunctionDeclaration_FunctionBlock :=
         Some {| HasStatements := true;
                 PreConditions_IsEmpty := true;
                 PostConditions_IsEmpty := true;
                 FunctionBlock_StartPosition := sample_position |};
       FunctionDeclaration_EndPosition := sample_position |};
    {| FunctionDeclaration_Identifier := sample_identifier "g";
       FunctionDeclaration_FunctionBlock :=
         Some {| HasStatements := false;
                 PreConditions_IsEmpty := true;
                 PostConditions_IsEmpty := true;
                 FunctionBlock_StartPosition := sample_position |};
       FunctionDeclaration_EndPosition := sample_position |};
    {| FunctionDeclaration_Identifier := sample_identifier "h";
       FunctionDeclaration_FunctionBlock :=
         Some {| HasStatements := false;
                 PreConditions_IsEmpty := false;
                 PostConditions_IsEmpty := true;
                 FunctionBlock_StartPosition := sample_position |};
       FunctionDeclaration_EndPosition := sample_position |} ].

(** The interface type of the conformance [C] in [example_checker]. *)
Definition example_conformance_object : InterfaceType :=
  sample_interfaceType "C" CompositeKindContract
    [("N", InterfaceTypeRef 4%positive)]
    [("f", sample_member 2%positive "f" 7%N true false)].

Definition example_interface_object : InterfaceType :=
  sample_interfaceType "I" CompositeKindContract
    [("N", InterfaceTypeRef 3%positive)]
    [("f", sample_member 1%positive "f" 7%N false false)].

End sema.

(** ** Package [runtime]: the migration to capability controllers *)

Module runtime.

(** [common.Address] is an array of eight bytes; it is read here as the
    number the bytes spell, so that [common.ZeroAddress] is [0]. *)
Definition Address := N.
Definition ZeroAddress : Address := 0%N.

(** [interpreter.AddressValue] has the same underlying array:
    [interpreter.AddressValue(address)] and [ToAddress()] convert between
    the two types without changing the bytes. *)
Definition AddressValue := Address.
Definition AddressValue_of (address : Address) : AddressValue := address.
Definition AddressValue_ToAddress (address : AddressValue) : Address := address.

Definition UInt64Value := N.

(** The result of a call: it returns, it panics, or the model ran out of
    steps in one of the unbounded loops ([for { ... }], or a loop over an
    iterator of the storage). *)
Inductive Outcome (A : Type) : Type :=
  | Returned (a : A)
  | Panicked
  | OutOfSteps.
Arguments Returned {A} a.
Arguments Panicked {A}.
Arguments OutOfSteps {A}.

#[export] Instance Outcome_ret : MRet Outcome := @Returned.
#[export] Instance Outcome_bind : MBind Outcome := λ A B k o,
  match o with
  | Returned a => k a
  | Panicked => Panicked
  | OutOfSteps => OutOfSteps
  end.

Definition orPanic {A} (o : option A) : Outcome A :=
  match o with
  | Some a => Returned a
  | None => Panicked
  end.

(** [type AddressIterator interface]: a method returns the new state of
    the iterator beside its result; [None] is a panic. *)
Class AddressIterator (Iter : Type) := {
  NextAddress : Iter → option (Address * Iter);
  Reset : Iter → option Iter
}.

Record AddressSliceIterator := {
  Addresses : list Address;
  index : Z
}.

(** [func (a *AddressSliceIterator) NextAddress() common.Address].  Reading
    [a.Addresses[index]] at a negative index panics. *)
Definition AddressSliceIterator_NextAddress (a : AddressSliceIterator)
  : option (Address * AddressSliceIterator) :=
  let index := index a in
  if bool_decide (index >= Z.of_nat (length (Addresses a)))%Z
  then Some (ZeroAddress, a)
  else
    if bool_decide (index < 0)%Z then None
    else
      match Addresses a !! Z.to_nat index with
      | None => None
      | Some address =>
          Some (address, {| Addresses := Addresses a; index := (index + 1)%Z |})
      end.

(** [func (a *AddressSliceIterator) Reset()] *)
Definition AddressSliceIterator_Reset (a : AddressSliceIterator) : AddressSliceIterator :=
  {| Addresses := Addresses a; index := 0 |}.

#[export] Instance AddressSliceIterator_AddressIterator
  : AddressIterator AddressSliceIterator := {|
  NextAddress := AddressSliceIterator_NextAddress;
  Reset := λ a, Some (AddressSliceIterator_Reset a)
|}.

(** [n] calls of [NextAddress] in a row, with their results in order. *)
Fixpoint nextAddresses {Iter : Type} `{!AddressIterator Iter} (n : nat) (addressIterator : Iter)
  : option (list Address * Iter) :=
  match n with
  | 0 => Some ([], addressIterator)
  | S n =>
      match NextAddress addressIterator with
      | None => None
      | Some (address, addressIterator) =>
          match nextAddresses n addressIterator with
          | None => None
          | Some (addresses, addressIterator) => Some (address :: addresses, addressIterator)
          end
      end
  end.

(** The addresses of a list before its first zero address. *)
Fixpoint untilZero (addresses : list Address) : list Address :=
  match addresses with
  | [] => []
  | address :: rest =>
      if bool_decide (address = ZeroAddress) then [] else address :: untilZero rest
  end.

(** [common.PathDomain]: the three domains the migration names, and the
    other values of the type. *)
Inductive PathDomain :=
  | PathDomainStorage
  | PathDomainPrivate
  | PathDomainPublic
  | PathDomainOther (n : N).

#[export] Instance PathDomain_eq_dec : EqDecision PathDomain.
Proof. solve_decision. Defined.

#[export] Instance PathDomain_countable : Countable PathDomain.
Proof.
  apply (inj_countable'
           (λ d, match d with
                 | PathDomainStorage => 0
                 | PathDomainPrivate => 1
                 | PathDomainPublic => 2
                 | PathDomainOther n => 3 + n
                 end%N)
           (λ n, if bool_decide (n = 0) then PathDomainStorage
                 else if bool_decide (n = 1) then PathDomainPrivate
                 else if bool_decide (n = 2) then PathDomainPublic
                 else PathDomainOther (n - 3))%N).
  intros [| | |n]; try reflexivity.
  repeat (rewrite bool_decide_eq_false_2 by lia). f_equal. lia.
Defined.

(** [interpreter.PathValue] *)
Record PathValue := {
  PathValue_Domain : PathDomain;
  PathValue_Identifier : string
}.

Definition NewUnmeteredPathValue (domain : PathDomain) (identifier : string) : PathValue :=
  {| PathValue_Domain := domain; PathValue_Identifier := identifier |}.

#[export] Instance PathValue_eq_dec : EqDecision PathValue.
Proof. solve_decision. Defined.

#[export] Instance PathValue_countable : Countable PathValue.
Proof.
  apply (inj_countable' (λ p, (PathValue_Domain p, PathValue_Identifier p))
           (λ '(d, i), {| PathValue_Domain := d; PathValue_Identifier := i |})).
  intros []; reflexivity.
Defined.

(** [interpreter.AddressPath] *)
Record AddressPath := {
  AddressPath_Address : Address;
  AddressPath_Path : PathValue
}.

#[export] Instance AddressPath_eq_dec : EqDecision AddressPath.
Proof. solve_decision. Defined.

#[export] Instance AddressPath_countable : Countable AddressPath.
Proof.
  apply (inj_countable' (λ p, (AddressPath_Address p, AddressPath_Path p))
           (λ '(a, p), {| AddressPath_Address := a; AddressPath_Path := p |})).
  intros []; reflexivity.
Defined.

(** The key of a storage map, as its iterator returns it: an
    [interpreter.StringAtreeValue] or another [atree.Value]. *)
Inductive AtreeValue :=
  | StringAtreeValue (s : string)
  | OtherAtreeValue.

(** [*interpreter.PathCapabilityValue] *)
Record PathCapability (StaticType : Type) := {
  PathCapabilityValue_Address : AddressValue;
  PathCapabilityValue_Path : PathValue;
  PathCapabilityValue_BorrowType : StaticType
}.
Arguments PathCapabilityValue_Address {StaticType} _.
Arguments PathCapabilityValue_Path {StaticType} _.
Arguments PathCapabilityValue_BorrowType {StaticType} _.

(** [interpreter.Value]: the path capabilities, the ID capabilities that
    replace them, and the other values. *)
Inductive interpreter_Value (StaticType OtherValue : Type) :=
  | PathCapabilityValue (capability : PathCapability StaticType)
  | IDCapabilityValue (ID : UInt64Value) (address : AddressValue) (borrowType : StaticType)
  | OtherValue_ (value : OtherValue).
Arguments PathCapabilityValue {StaticType OtherValue} capability.
Arguments IDCapabilityValue {StaticType OtherValue} ID address borrowType.
Arguments OtherValue_ {StaticType OtherValue} value.

Definition NewUnmeteredIDCapabilityValue {StaticType OtherValue : Type}
    (id : UInt64Value) (address : AddressValue) (borrowType : StaticType)
  : interpreter_Value StaticType OtherValue :=
  IDCapabilityValue id address borrowType.

(** The calls a [CapConsMigrationReporter] receives. *)
Inductive ReporterCall :=
  | MigratedLink (addressPath : AddressPath) (capabilityID : UInt64Value)
  | MigratedPathCapability (address : Address) (addressPath : AddressPath)
  | MissingCapabilityID (address : Address) (addressPath : AddressPath).

(** The code the migration calls in the packages [interpreter], [stdlib]
    and [common], and on [*Storage].  [Storage] is the state of the objects
    the migration works on: the storage, the interpreter over it and the
    account ID generator.  [StorageMap] is a [*StorageMap], [MapIterator]
    the state of a [StorageMapIterator]; an iterator reads the storage as
    it is when it is asked for its next entry.  [None] is a nil result for
    [GetStorageMap] and for the key of an iterator, and a panic for the
    others. *)
Class MigrationEnvironment (Storage StorageMap MapIterator StaticType OtherValue : Type) := {
  MigrateLinkToCapabilityController :
    AddressValue → PathValue → Storage → option (UInt64Value * Storage);
  PathDomain_Identifier : PathDomain → string;
  GetStorageMap : Address → string → bool → Storage → option StorageMap;
  StorageMap_Iterator : StorageMap → Storage → MapIterator;
  StorageMap_Count : StorageMap → Storage → N;
  NextKey : MapIterator → Storage → option AtreeValue * MapIterator;
  Next : MapIterator → Storage
         → option (AtreeValue * interpreter_Value StaticType OtherValue) * MapIterator;
  StorageMap_SetValue :
    StorageMap → string → interpreter_Value StaticType OtherValue → Storage → option Storage;
  PathCapabilityValue_AddressPath : PathCapability StaticType → AddressPath;
  Commit : Storage → bool → option (option string * Storage)
}.

Section Migration.

Context {Storage StorageMap MapIterator StaticType OtherValue : Type}.
Context `{!MigrationEnvironment Storage StorageMap MapIterator StaticType OtherValue}.

Local Abbreviation Value' := (interpreter_Value StaticType OtherValue).

(** [type CapConsMigration struct]: [storage] stands for the fields
    [storage] and [interpreter]; [capabilityIDs] is [None] for the nil
    map.  [reporterCalls] is not a field of the struct: it is the list of
    the calls made on the reporter so far. *)
Record CapConsMigration := {
  storage : Storage;
  capabilityIDs : option (gmap AddressPath UInt64Value);
  reporterCalls : list ReporterCall
}.

Definition with_storage (s : Storage) (m : CapConsMigration) : CapConsMigration :=
  {| storage := s; capabilityIDs := capabilityIDs m; reporterCalls := reporterCalls m |}.

Definition with_capabilityIDs (ids : option (gmap AddressPath UInt64Value))
    (m : CapConsMigration) : CapConsMigration :=
  {| storage := storage m; capabilityIDs := ids; reporterCalls := reporterCalls m |}.

(** [if reporter != nil { reporter.<call> }] *)
Definition reportTo (reporter : bool) (call : ReporterCall) (m : CapConsMigration)
  : CapConsMigration :=
  if reporter
  then {| storage := storage m;
          capabilityIDs := capabilityIDs m;
          reporterCalls := reporterCalls m ++ [call] |}
  else m.

(** [func (m *CapConsMigration) migrateLink].  Writing an entry of a nil
    map panics. *)
Definition migrateLink (address : AddressValue) (path : PathValue) (reporter : bool)
    (m : CapConsMigration) : Outcome CapConsMigration :=
  '(capabilityID, storage') ←
    orPanic (MigrateLinkToCapabilityController address path (storage m));
  let m := with_storage storage' m in
  if bool_decide (capabilityID = 0%N) then mret m
  else
    (* Record new capability ID in source path mapping. *)
    let addressPath :=
      {| AddressPath_Address := AddressValue_ToAddress address;
         AddressPath_Path := path |} in
    ids ← orPanic (capabilityIDs m);
    let m := with_capabilityIDs (Some (<[addressPath := capabilityID]> ids)) m in
    mret (reportTo reporter (MigratedLink addressPath capabilityID) m).

(** [func (m *CapConsMigration) migratePathCapability].  [update] is the
    closure of the caller, which writes to the storage. *)
Definition migratePathCapability (address : Address) (value : Value')
    (update : Value' → Storage → Outcome Storage) (reporter : bool)
    (m : CapConsMigration) : Outcome CapConsMigration :=
  match value with
  | PathCapabilityValue oldCapability =>
      let addressPath := PathCapabilityValue_AddressPath oldCapability in
      match capabilityIDs m ≫= (.!! addressPath) with
      | None => mret (reportTo reporter (MissingCapabilityID address addressPath) m)
      | Some capabilityID =>
          let newCapability :=
            NewUnmeteredIDCapabilityValue capabilityID
              (PathCapabilityValue_Address oldCapability)
              (PathCapabilityValue_BorrowType oldCapability) in
          storage' ← update newCapability (storage m);
          let m := with_storage storage' m in
          mret (reportTo reporter (MigratedPathCapability address addressPath) m)
      end
  | _ => mret m
  end.

(** The loops below run for at most [steps] rounds each. *)
Section Steps.

Variable steps : nat.

(** The loop of [migrateAccountLinksInAccountDomain]:
    [for key := iterator.NextKey(); key != nil; key = iterator.NextKey()]. *)
Fixpoint migrateAccountLinksInAccountDomain_loop (n : nat) (addressValue : AddressValue)
    (domain : PathDomain) (reporter : bool) (iterator : MapIterator)
    (m : CapConsMigration) : Outcome CapConsMigration :=
  match n with
  | 0 => OutOfSteps
  | S n =>
      let '(key, iterator) := NextKey iterator (storage m) in
      match key with
      | None => mret m
      | Some key =>
          identifier ←
            match key with
            | StringAtreeValue identifier => Returned identifier
            | OtherAtreeValue => Panicked
            end;
          let pathValue := NewUnmeteredPathValue domain identifier in
          m ← migrateLink addressValue pathValue reporter m;
          migrateAccountLinksInAccountDomain_loop n addressValue domain reporter iterator m
      end
  end.

(** [func (m *CapConsMigration) migrateAccountLinksInAccountDomain] *)
Definition migrateAccountLinksInAccountDomain (address : Address) (domain : PathDomain)
    (reporter : bool) (m : CapConsMigration) : Outcome CapConsMigration :=
  let addressValue := AddressValue_of address in
  match GetStorageMap address (PathDomain_Identifier domain) false (storage m) with
  | None => mret m
  | Some storageMap =>
      let iterator := StorageMap_Iterator storageMap (storage m) in
      let count := StorageMap_Count storageMap (storage m) in
      if bool_decide (0 < count)%N
      then migrateAccountLinksInAccountDomain_loop steps addressValue domain reporter
             iterator m
      else mret m
  end.

(** [func (m *CapConsMigration) migrateLinksInAccount] *)
Definition migrateLinksInAccount (address : Address) (reporter : bool)
    (m : CapConsMigration) : Outcome CapConsMigration :=
  let migrateDomain (domain : PathDomain) :=
    migrateAccountLinksInAccountDomain address domain reporter in
  m ← migrateDomain PathDomainPublic m;
  migrateDomain PathDomainPrivate m.

(** The loop of [migrateLinks]: [for { ... }]. *)
Fixpoint migrateLinks_loop {Iter : Type} `{!AddressIterator Iter} (n : nat) (addressIterator : Iter)
    (reporter : bool) (m : CapConsMigration) : Outcome (Iter * CapConsMigration) :=
  match n with
  | 0 => OutOfSteps
  | S n =>
      '(address, addressIterator) ← orPanic (NextAddress addressIterator);
      if bool_decide (address = ZeroAddress) then mret (addressIterator, m)
      else
        m ← migrateLinksInAccount address reporter m;
        migrateLinks_loop n addressIterator reporter m
  end.

(** [func (m *CapConsMigration) migrateLinks] *)
Definition migrateLinks {Iter : Type} `{!AddressIterator Iter} (addressIterator : Iter) (reporter : bool)
    (m : CapConsMigration) : Outcome (Iter * CapConsMigration) :=
  migrateLinks_loop steps addressIterator reporter m.

(** The loop of [migratePathCapabilitiesInAccount]:
    [for key, value := iterator.Next(); key != nil; key, value = iterator.Next()].
    The closure passed as [update] converts the key when it is called. *)
Fixpoint migratePathCapabilitiesInAccount_loop (n : nat) (address : Address)
    (storageMap : StorageMap) (reporter : bool) (iterator : MapIterator)
    (m : CapConsMigration) : Outcome CapConsMigration :=
  match n with
  | 0 => OutOfSteps
  | S n =>
      let '(entry, iterator) := Next iterator (storage m) in
      match entry with
      | None => mret m
      | Some (key, value) =>
          m ← migratePathCapability address value
                (λ newValue storage,
                   identifier ←
                     match key with
                     | StringAtreeValue identifier => Returned identifier
                     | OtherAtreeValue => Panicked
                     end;
                   orPanic (StorageMap_SetValue storageMap identifier newValue storage))
                reporter m;
          migratePathCapabilitiesInAccount_loop n address storageMap reporter iterator m
      end
  end.

(** [var pathDomainStorage = common.PathDomainStorage.Identifier()] *)
Definition pathDomainStorage : string := PathDomain_Identifier PathDomainStorage.

(** [func (m *CapConsMigration) migratePathCapabilitiesInAccount] *)
Definition migratePathCapabilitiesInAccount (address : Address) (reporter : bool)
    (m : CapConsMigration) : Outcome CapConsMigration :=
  match GetStorageMap address pathDomainStorage false (storage m) with
  | None => mret m
  | Some storageMap =>
      let iterator := StorageMap_Iterator storageMap (storage m) in
      let count := StorageMap_Count storageMap (storage m) in
      if bool_decide (0 < count)%N
      then migratePathCapabilitiesInAccount_loop steps address storageMap reporter
             iterator m
      else mret m
  end.

(** The loop of [migratePathCapabilities]: [for { ... }]. *)
Fixpoint migratePathCapabilities_loop {Iter : Type} `{!AddressIterator Iter} (n : nat) (addressIterator : Iter)
    (reporter : bool) (m : CapConsMigration) : Outcome (Iter * CapConsMigration) :=
  match n with
  | 0 => OutOfSteps
  | S n =>
      '(address, addressIterator) ← orPanic (NextAddress addressIterator);
      if bool_decide (address = ZeroAddress) then mret (addressIterator, m)
      else
        m ← migratePathCapabilitiesInAccount address reporter m;
        migratePathCapabilities_loop n addressIterator reporter m
  end.

(** [func (m *CapConsMigration) migratePathCapabilities] *)
Definition migratePathCapabilities {Iter : Type} `{!AddressIterator Iter} (addressIterator : Iter)
    (reporter : bool) (m : CapConsMigration) : Outcome (Iter * CapConsMigration) :=
  migratePathCapabilities_loop steps addressIterator reporter m.

(** [func (m *CapConsMigration) Migrate].  The result is the error of
    [Commit]; the deferred function sets [capabilityIDs] to nil once
    [Commit] has returned. *)
Definition Migrate {Iter : Type} `{!AddressIterator Iter} (addressIterator : Iter) (reporter : bool)
    (m : CapConsMigration) : Outcome (option string * Iter * CapConsMigration) :=
  let m := with_capabilityIDs (Some ∅) m in
  '(addressIterator, m) ← migrateLinks addressIterator reporter m;
  addressIterator ← orPanic (Reset addressIterator);
  '(addressIterator, m) ← migratePathCapabilities addressIterator reporter m;
  '(err, storage') ← orPanic (Commit (storage m) false);
  mret (err, addressIterator, with_capabilityIDs None (with_storage storage' m)).

End Steps.

(** The accounts in order, one call of [f] each. *)
Fixpoint forEachAddress (f : Address → CapConsMigration → Outcome CapConsMigration)
    (addresses : list Address) (m : CapConsMigration) : Outcome CapConsMigration :=
  match addresses with
  | [] => mret m
  | address :: rest => m ← f address m; forEachAddress f rest m
  end.

(** Every entry of [capabilityIDs] satisfies [P]. *)
Definition recorded (P : AddressPath → UInt64Value → Prop) (m : CapConsMigration) : Prop :=
  ∀ ids addressPath capabilityID,
    capabilityIDs m = Some ids →
    ids !! addressPath = Some capabilityID →
    P addressPath capabilityID.

(** What [migrateLinks] records: a capability ID other than zero, for a
    public or private path of an account other than the zero address. *)
Definition linkEntry (addressPath : AddressPath) (capabilityID : UInt64Value) : Prop :=
  capabilityID ≠ 0%N
  ∧ AddressPath_Address addressPath ≠ ZeroAddress
  ∧ (PathValue_Domain (AddressPath_Path addressPath) = PathDomainPublic
     ∨ PathValue_Domain (AddressPath_Path addressPath) = PathDomainPrivate).

End Migration.

Arguments CapConsMigration : clear implicits.

(** An environment for the examples.  The storage is the number of
    capability IDs issued so far, and migrating a link issues the next
    one.  Each account has a public and a storage domain, not a private
    one, with one entry each: the public link [k], and a path capability of
    account 1 for the public path [k]. *)
Definition sample_capability : PathCapability unit :=
  {| PathCapabilityValue_Address := 1%N;
     PathCapabilityValue_Path := NewUnmeteredPathValue PathDomainPublic "k";
     PathCapabilityValue_BorrowType := tt |}.

Definition sample_storage_capability : PathCapability unit :=
  {| PathCapabilityValue_Address := 1%N;
     PathCapabilityValue_Path := NewUnmeteredPathValue PathDomainStorage "k";
     PathCapabilityValue_BorrowType := tt |}.

#[export] Instance sample_environment : MigrationEnvironment N unit nat unit unit := {|
  MigrateLinkToCapabilityController := λ _ _ storage, Some (storage + 1, storage + 1)%N;
  PathDomain_Identifier := λ domain,
    match domain with
    | PathDomainStorage => "storage"
    | PathDomainPrivate => "private"
    | PathDomainPublic => "public"
    | PathDomainOther _ => "other"
    end;
  GetStorageMap := λ _ identifier _ _,
    if bool_decide (identifier = "private") then None else Some tt;
  StorageMap_Iterator := λ _ _, 1;
  StorageMap_Count := λ _ _, 1%N;
  NextKey := λ iterator _,
    match iterator with
    | 0 => (None, 0)
    | S iterator => (Some (StringAtreeValue "k"), iterator)
    end;
  Next := λ iterator _,
    match iterator with
    | 0 => (None, 0)
    | S iterator =>
        (Some (StringAtreeValue "k", PathCapabilityValue sample_capability), iterator)
    end;
  StorageMap_SetValue := λ _ _ _ storage, Some storage;
  PathCapabilityValue_AddressPath := λ capability,
    {| AddressPath_Address := AddressValue_ToAddress (PathCapabilityValue_Address capability);
       AddressPath_Path := PathCapabilityValue_Path capability |};
  Commit := λ storage _, Some (None, storage)
|}.

Definition sample_migration : CapConsMigration N :=
  {| storage := 0%N; capabilityIDs := None; reporterCalls := [] |}.

Definition sample_iterator : AddressSliceIterator :=
  {| Addresses := [1; 2; 0; 3]%N; index := 1 |}.

End runtime.

(** ** The storage explorer: values prepared for display *)

Module storage_explorer.

(** [make([]T, 0, cap)]: a slice of length zero, whatever its capacity;
    and [copy(dst, src)], which overwrites the first
    [min(len(dst), len(src))] elements of [dst]. *)
Definition make_0 {A : Type} (cap : nat) : list A := [].

Definition copy {A : Type} (dst src : list A) : list A :=
  take (length dst `min` length src) src ++ drop (length dst `min` length src) dst.

Section Values.

(** [Ref] is an interpreter value as the interpreter holds it, [Ty] a
    prepared type ([any] in the source), [Exported] a [cadence.Value],
    [RawMessage] a [json.RawMessage]. *)
Context {Ref Ty Exported RawMessage : Type}.

(** [interpreter.Value], by the cases [prepareValue] tells apart, with
    what it reads of each: the keys [IterateKeys] goes through, the names
    [ForEachFieldName] goes through, the field [FieldNames], the result of
    [Count()], the result of [InnerValue]. *)
Inductive InterpreterValue :=
  | Interpreter_Primitive (ref : Ref)
  | Interpreter_DictionaryValue (ref : Ref) (keys : list InterpreterValue)
  | Interpreter_CompositeValue (ref : Ref) (fieldNames : list string)
  | Interpreter_SimpleCompositeValue (ref : Ref) (FieldNames : list string)
  | Interpreter_PathLinkValue (ref : Ref)
  | Interpreter_AccountLinkValue (ref : Ref)
  | Interpreter_PublishedValue (ref : Ref)
  | Interpreter_ArrayValue (ref : Ref) (count : Z)
  | Interpreter_SomeValue (ref : Ref) (innerValue : InterpreterValue)
  | Interpreter_Other (ref : Ref).

Definition ref_of (value : InterpreterValue) : Ref :=
  match value with
  | Interpreter_Primitive ref
  | Interpreter_DictionaryValue ref _
  | Interpreter_CompositeValue ref _
  | Interpreter_SimpleCompositeValue ref _
  | Interpreter_PathLinkValue ref
  | Interpreter_AccountLinkValue ref
  | Interpreter_PublishedValue ref
  | Interpreter_ArrayValue ref _
  | Interpreter_SomeValue ref _
  | Interpreter_Other ref => ref
  end.

(** [type Value interface] and its six implementations.  A slice of
    strings that may be nil is an [option]. *)
Inductive Value :=
  | FallbackValue (Type_ : Ty) (Description : string)
  | PrimitiveValue (Type_ : Ty) (Value_ : RawMessage)
  | DictionaryValue (Type_ : Ty) (Keys : list Value)
  | ArrayValue (Type_ : Ty) (Count : Z)
  | CompositeValue (Type_ : Ty) (Fields : option (list string))
  | SomeValue (Type_ : Ty) (Value_ : Value).

Definition pathLinkValueFieldNames : list string := ["targetPath"; "type"].
Definition publishedValueFieldNames : list string := ["recipient"; "type"].

(** The code [prepareValue] calls: [prepareType], [runtime.ExportValue],
    [jsoncdc.Encode], [sort.Strings] and the method [String] of a
    value.  An error is its message. *)
Class ExplorerEnvironment := {
  prepareType : Ref → Ty;
  ExportValue : Ref → Exported + string;
  Encode : Exported → RawMessage + string;
  sort_Strings : list string → list string;
  Value_String : Ref → string
}.

Context `{!ExplorerEnvironment}.

(** [func prepareValue(value interpreter.Value, inter *interpreter.Interpreter) (Value, error)] *)
Fixpoint prepareValue (value : InterpreterValue) : Value + string :=
  let ty := prepareType (ref_of value) in
  match value with
  | Interpreter_Primitive ref =>
      match ExportValue ref with
      | inr err => inr err
      | inl exported =>
          match Encode exported with
          | inr err => inr err
          | inl exportedJSON => inl (PrimitiveValue ty exportedJSON)
          end
      end
  | Interpreter_DictionaryValue _ dictionaryKeys =>
      (* [IterateKeys] stops at the first key for which the function
         returns false *)
      let fix IterateKeys (remaining : list InterpreterValue) (keys : list Value)
        : list Value * option string :=
        match remaining with
        | [] => (keys, None)
        | key :: remaining =>
            match prepareValue key with
            | inr err => (keys, Some err)
            | inl preparedKey => IterateKeys remaining (keys ++ [preparedKey])
            end
        end in
      match IterateKeys dictionaryKeys (make_0 (length dictionaryKeys)) with
      | (_, Some err) => inr err
      | (keys, None) => inl (DictionaryValue ty keys)
      end
  | Interpreter_CompositeValue _ fieldNames =>
      let fields :=
        foldl (λ fields field, fields ++ [field]) (make_0 (length fieldNames))
          fieldNames in
      let fields := sort_Strings fields in
      inl (CompositeValue ty (Some fields))
  | Interpreter_SimpleCompositeValue _ fieldNames =>
      let fields := make_0 (length fieldNames) in
      let fields := copy fields fieldNames in
      let fields := sort_Strings fields in
      inl (CompositeValue ty (Some fields))
  | Interpreter_PathLinkValue _ =>
      inl (CompositeValue ty (Some pathLinkValueFieldNames))
  | Interpreter_AccountLinkValue _ =>
      inl (CompositeValue ty None)
  | Interpreter_PublishedValue _ =>
      inl (CompositeValue ty (Some publishedValueFieldNames))
  | Interpreter_ArrayValue _ count =>
      inl (ArrayValue ty count)
  | Interpreter_SomeValue _ innerValue =>
      match prepareValue innerValue with
      | inr err => inr err
      | inl preparedInnerValue => inl (SomeValue ty preparedInnerValue)
      end
  | Interpreter_Other ref =>
      inl (FallbackValue ty (Value_String ref))
  end.

(** The loop of the dictionary case, by itself. *)
Fixpoint IterateKeys (remaining : list InterpreterValue) (keys : list Value)
  : list Value * option string :=
  match remaining with
  | [] => (keys, None)
  | key :: remaining =>
      match prepareValue key with
      | inr err => (keys, Some err)
      | inl preparedKey => IterateKeys remaining (keys ++ [preparedKey])
      end
  end.

(** The values [prepareValue] goes into from a value: the keys of a
    dictionary and the inner value of an optional, and theirs. *)
Inductive partOf : InterpreterValue → InterpreterValue → Prop :=
  | partOf_refl value : partOf value value
  | partOf_key part ref keys key :
      key ∈ keys → partOf part key → partOf part (Interpreter_DictionaryValue ref keys)
  | partOf_inner part ref innerValue :
      partOf part innerValue → partOf part (Interpreter_SomeValue ref innerValue).

(** The error of exporting and encoding a primitive value, if any. *)
Definition exportError (ref : Ref) : option string :=
  match ExportValue ref with
  | inr err => Some err
  | inl exported =>
      match Encode exported with
      | inr err => Some err
      | inl _ => None
      end
  end.

End Values.

Arguments InterpreterValue : clear implicits.
Arguments Value : clear implicits.
Arguments ExplorerEnvironment : clear implicits.

(** An environment for the examples: values are numbers, the value 0
    cannot be exported, and strings are sorted by merging, in the order of
    their bytes. *)
#[export] Instance sample_explorer : ExplorerEnvironment nat nat nat string := {|
  prepareType := λ ref, ref;
  ExportValue := λ ref, if bool_decide (ref = 0) then inr "export" else inl ref;
  Encode := λ _, inl "json";
  sort_Strings := merge_sort (λ a b, Is_true (String.leb a b));
  Value_String := λ _, "value"
|}.

End storage_explorer.

(** * Properties *)

(** ** Access modifiers *)

Section AccessProperties.

Import ast.

Implicit Types (e other : EntitlementAccess) (a b : PrimitiveAccess).

Lemma elem_of_subset_otherSet (x : NominalTypeRef) (l : list NominalTypeRef) :
  x ∈ subset_otherSet l ↔ x ∈ l.
Proof.
  unfold subset_otherSet.
  assert (G : ∀ (acc : gset NominalTypeRef),
             x ∈ foldl (λ s y, {[y]} ∪ s) acc l ↔ x ∈ acc ∨ x ∈ l).
  { induction l as [|y l IH]; intros acc; simpl.
    - rewrite elem_of_nil. tauto.
    - rewrite IH, elem_of_union, elem_of_singleton, elem_of_cons. tauto. }
  rewrite G, elem_of_empty. tauto.
Qed.

Lemma subset_loop_true (otherSet : gset NominalTypeRef) (l : list NominalTypeRef) :
  subset_loop otherSet l = true ↔ ∀ x, x ∈ l → x ∈ otherSet.
Proof.
  induction l as [|y l IH]; simpl.
  - split; [intros _ x Hx; by apply elem_of_nil in Hx | done].
  - destruct (decide (y ∈ otherSet)) as [Hy|Hy].
    + rewrite IH. split.
      * intros H x [->|Hx]%elem_of_cons; auto.
      * intros H x Hx. apply H. by right.
    + split; [done|]. intros H. exfalso. apply Hy, H. by left.
Qed.

Lemma subset_true e other :
  subset e other = true ↔
  Entitlements (EntitlementSet_of e) ⊆ Entitlements (EntitlementSet_of other).
Proof.
  unfold subset. rewrite subset_loop_true.
  split; intros H x Hx; specialize (H x Hx).
  - by apply elem_of_subset_otherSet.
  - by apply elem_of_subset_otherSet.
Qed.

(** C1. An entitlement access over [S1] is less permissive than one over
    [S2] exactly when every entitlement of [S1] is an entitlement of [S2],
    whichever of the two kinds of set (conjunctive, disjunctive) [S1] and
    [S2] are: the inclusion is that of the sets of addresses. *)
Theorem entitlement_subset_law (S1 S2 : EntitlementSet) :
  IsLessPermissiveThan (NewEntitlementAccess S1)
    (AccessOfEntitlement (NewEntitlementAccess S2)) = true
  ↔ (list_to_set (Entitlements S1) : gset NominalTypeRef)
      ⊆ list_to_set (Entitlements S2).
Proof.
  simpl. rewrite subset_true. simpl. split.
  - intros H x. rewrite !elem_of_list_to_set. apply H.
  - intros H x Hx. specialize (H x). rewrite !elem_of_list_to_set in H. auto.
Qed.

Lemma IsLessPermissiveThan_primitive e a :
  IsLessPermissiveThan e (AccessOfPrimitive a) =
  match a with
  | AccessPublic | AccessPublicSettable => true
  | _ => false
  end.
Proof. by destruct a. Qed.

(** C2. An entitlement access is less permissive than a primitive access
    exactly when the primitive access is [AccessPublic] or
    [AccessPublicSettable]; the comparison is false for every other
    primitive access, among them [AccessNotSpecified], [AccessPrivate],
    [AccessContract] and [AccessAccount]. *)
Theorem entitlement_vs_primitive_law e a :
  (IsLessPermissiveThan e (AccessOfPrimitive a) = true
   ↔ a = AccessPublic ∨ a = AccessPublicSettable)
  ∧ (IsLessPermissiveThan e (AccessOfPrimitive a) = false
     ↔ a ≠ AccessPublic ∧ a ≠ AccessPublicSettable)
  ∧ IsLessPermissiveThan e (AccessOfPrimitive AccessNotSpecified) = false
  ∧ IsLessPermissiveThan e (AccessOfPrimitive AccessPrivate) = false
  ∧ IsLessPermissiveThan e (AccessOfPrimitive AccessContract) = false
  ∧ IsLessPermissiveThan e (AccessOfPrimitive AccessAccount) = false.
Proof.
  rewrite !IsLessPermissiveThan_primitive.
  repeat split; try done; destruct a; try done; intros H;
    try (by destruct H); try (by left); try (by right).
Qed.

Lemma index_of_constants a :
  index_of a PrimitiveAccess_constants = N.to_nat (PrimitiveAccess_value a).
Proof. by destruct a. Qed.

(** C6. On the primitive accesses, "less permissive than" is the strict
    order of the constants in the order of their declaration
    (NotSpecified, Private, Contract, Account, Public, PublicSettable), and
    of two primitive accesses exactly one is less permissive than the
    other, unless they are equal. *)
Theorem primitive_permissiveness_total_order a b :
  (PrimitiveAccess_IsLessPermissiveThan a b = true
   ↔ index_of a PrimitiveAccess_constants < index_of b PrimitiveAccess_constants)
  ∧ ((PrimitiveAccess_IsLessPermissiveThan a b = true
        ∧ PrimitiveAccess_IsLessPermissiveThan b a = false ∧ a ≠ b)
     ∨ (PrimitiveAccess_IsLessPermissiveThan a b = false
        ∧ PrimitiveAccess_IsLessPermissiveThan b a = true ∧ a ≠ b)
     ∨ (PrimitiveAccess_IsLessPermissiveThan a b = false
        ∧ PrimitiveAccess_IsLessPermissiveThan b a = false ∧ a = b)).
Proof.
  split.
  - rewrite !index_of_constants. unfold PrimitiveAccess_IsLessPermissiveThan.
    rewrite N.ltb_lt. lia.
  - destruct a, b; vm_compute;
      first [ left; by repeat split
            | right; left; by repeat split
            | right; right; by repeat split ].
Qed.


(** *** The text of an access *)

Lemma string_append_cons (ch : Ascii.ascii) (s1 s2 : string) :
  String.append (String ch s1) s2 = String ch (String.append s1 s2).
Proof. done. Qed.

Lemma string_append_assoc (s1 s2 s3 : string) :
  String.append (String.append s1 s2) s3 = String.append s1 (String.append s2 s3).
Proof.
  induction s1 as [|ch s1 IH]; [done|].
  rewrite !string_append_cons. by f_equal.
Qed.

Lemma string_append_nil_r (s : string) : String.append s EmptyString = s.
Proof.
  induction s as [|ch s IH]; [done|].
  rewrite string_append_cons. by f_equal.
Qed.

Lemma entitlementsString_loop_concat (name : NominalTypeRef → string)
    (separator : Separator) (entitlements : list NominalTypeRef) (len i : Z)
    (prefix : string) :
  (i + Z.of_nat (length entitlements) = len)%Z →
  entitlementsString_loop name separator len i entitlements prefix
  = String.append prefix
      (String.concat (Separator_String separator) (map name entitlements)).
Proof.
  revert i prefix. induction entitlements as [|x l IH]; intros i prefix Hlen.
  - cbn [entitlementsString_loop map String.concat].
    by rewrite string_append_nil_r.
  - cbn [entitlementsString_loop]. rewrite IH by (cbn [length] in Hlen; lia).
    destruct l as [|y l].
    + cbn [length] in Hlen. assert ((i <? len - 1)%Z = false) as -> by lia.
      cbn [map String.concat]. by rewrite !string_append_nil_r.
    + cbn [length] in Hlen. assert ((i <? len - 1)%Z = true) as -> by lia.
      change (String.concat (Separator_String separator) (map name (x :: y :: l)))
        with (String.append (name x)
                (String.append (Separator_String separator)
                   (String.concat (Separator_String separator) (map name (y :: l))))).
      by rewrite !string_append_assoc.
Qed.

(** X1. The text of an entitlement access is the names of its
    entitlements joined by the separator of its set, [","] for a
    conjunctive set and [" |"] for a disjunctive one, with no separator
    after the last name: [Keyword] puts it between ["access("] and [")"],
    and [String] after ["ConjunctiveEntitlementAccess "], for sets of both
    kinds. *)
Theorem entitlement_text_is_join (name : NominalTypeRef → string) e :
  let separator := Separator_String (EntitlementSet_Separator (EntitlementSet_of e)) in
  let joined := String.concat separator (map name (Entitlements (EntitlementSet_of e))) in
  EntitlementAccess_Keyword name e
  = String.append "access(" (String.append joined ")")
  ∧ EntitlementAccess_String name e
    = String.append "ConjunctiveEntitlementAccess " joined
  ∧ (∀ prefix, entitlementsString name e prefix = String.append prefix joined)
  ∧ separator
    = match EntitlementSet_of e with
      | NewConjunctiveEntitlementSet _ => ","
      | NewDisjunctiveEntitlementSet _ => " |"
      end.
Proof.
  intros separator joined.
  assert (H : ∀ prefix, entitlementsString name e prefix = String.append prefix joined).
  { intros prefix. unfold entitlementsString.
    apply entitlementsString_loop_concat. lia. }
  split; [|split; [|split]].
  - unfold EntitlementAccess_Keyword. cbv zeta. rewrite H.
    change (String.append EmptyString "access(") with "access(".
    by rewrite string_append_assoc.
  - unfold EntitlementAccess_String. cbv zeta. by rewrite H.
  - exact H.
  - unfold separator. by destruct (EntitlementSet_of e).
Qed.

(** X2. The keyword and the description of a primitive access identify
    it: two primitive accesses with the same keyword, or with the same
    description, are the same access. Only [AccessNotSpecified] has the
    empty keyword. *)
Theorem primitive_access_text_injective a b :
  (PrimitiveAccess_Keyword a = PrimitiveAccess_Keyword b ↔ a = b)
  ∧ (PrimitiveAccess_Description a = PrimitiveAccess_Description b ↔ a = b)
  ∧ (PrimitiveAccess_Keyword a = EmptyString ↔ a = AccessNotSpecified).
Proof.
  split; [|split]; (split; [|by intros ->]); by destruct a, b.
Qed.

(** X3. On entitlement accesses the comparison is transitive, and two
    accesses are each less permissive than the other exactly when they
    have the same set of entitlements. *)
Theorem entitlement_comparison_preorder e1 e2 e3 :
  (IsLessPermissiveThan e1 (AccessOfEntitlement e2) = true →
   IsLessPermissiveThan e2 (AccessOfEntitlement e3) = true →
   IsLessPermissiveThan e1 (AccessOfEntitlement e3) = true)
  ∧ (IsLessPermissiveThan e1 (AccessOfEntitlement e2) = true
     ∧ IsLessPermissiveThan e2 (AccessOfEntitlement e1) = true
     ↔ (list_to_set (Entitlements (EntitlementSet_of e1)) : gset NominalTypeRef)
       = list_to_set (Entitlements (EntitlementSet_of e2))).
Proof.
  simpl. rewrite !subset_true. split.
  - intros H12 H23 x Hx. by apply H23, H12.
  - split.
    + intros [H12 H21]. apply set_eq. intros x. rewrite !elem_of_list_to_set.
      split; [apply H12|apply H21].
    + intros H. split; intros x Hx.
      * apply (elem_of_list_to_set (C := gset NominalTypeRef)). rewrite <- H.
        by apply elem_of_list_to_set.
      * apply (elem_of_list_to_set (C := gset NominalTypeRef)). rewrite H.
        by apply elem_of_list_to_set.
Qed.

(** X4. The comparison of an entitlement access with any access depends
    only on the set of its entitlements: two accesses with the same
    entitlements, in another order, with repetitions or in a set of the
    other kind, compare alike on both sides. *)
Theorem entitlement_comparison_by_set e1 e2 (other : Access) :
  (list_to_set (Entitlements (EntitlementSet_of e1)) : gset NominalTypeRef)
  = list_to_set (Entitlements (EntitlementSet_of e2)) →
  IsLessPermissiveThan e1 other = IsLessPermissiveThan e2 other
  ∧ ∀ e, IsLessPermissiveThan e (AccessOfEntitlement e1)
         = IsLessPermissiveThan e (AccessOfEntitlement e2).
Proof.
  intros H.
  assert (Hin : ∀ x, x ∈ Entitlements (EntitlementSet_of e1)
                     ↔ x ∈ Entitlements (EntitlementSet_of e2)).
  { intros x. rewrite <- !(elem_of_list_to_set (C := gset NominalTypeRef)).
    by rewrite H. }
  split.
  - destruct other as [a|o|]; [done| |done]. simpl.
    apply eq_true_iff_eq. rewrite !subset_true.
    split; intros Hs x Hx; apply Hs; by apply Hin.
  - intros e. simpl. apply eq_true_iff_eq. rewrite !subset_true.
    split; intros Hs x Hx; apply Hin; by apply Hs.
Qed.

End AccessProperties.

(** ** The interface checker *)

Section CheckerProperties.

Import sema.

Context {Env : Type} `{!Collaborators Env}.

Implicit Types (c checker : Checker Env) (d declaration : InterfaceDeclaration).

Lemma with_errors_app_ne (e : CheckerError) c :
  with_errors (errors c ++ [e]) c ≠ c.
Proof.
  intros H. apply (f_equal errors) in H. simpl in H.
  apply (f_equal length) in H. rewrite length_app in H. simpl in H. lia.
Qed.

Lemma checkDuplicateInterfaceMembers_cases
    (interfaceType : loc) (x : Member) (conflictingInterfaceType : loc) (y : Member)
    (getRange : unit → Range) c :
  checkDuplicateInterfaceMembers interfaceType x conflictingInterfaceType y getRange c =
  if negb (memberSatisfied interfaceType x y c)
     || (HasImplementation x || HasConditions x || HasImplementation y || HasConditions y)
  then with_errors
         (errors c ++
            [InterfaceMemberConflictError interfaceType conflictingInterfaceType
               (Identifier_Identifier (Member_Identifier x))
               (Member_DeclarationKind x) (Member_DeclarationKind y) (getRange tt)]) c
  else c.
Proof.
  unfold checkDuplicateInterfaceMembers.
  destruct (memberSatisfied interfaceType x y c); simpl; [|done].
  by destruct (HasImplementation x), (HasConditions x),
    (HasImplementation y), (HasConditions y).
Qed.

Lemma checkDuplicateInterfaceMembers_interfaceTypes
    (interfaceType : loc) (x : Member) (conflictingInterfaceType : loc) (y : Member)
    (getRange : unit → Range) c :
  interfaceTypes
    (checkDuplicateInterfaceMembers interfaceType x conflictingInterfaceType y getRange c)
  = interfaceTypes c.
Proof. rewrite checkDuplicateInterfaceMembers_cases. by case_match. Qed.

Lemma checkDuplicateInterfaceMembers_errors_prefix
    (interfaceType : loc) (x : Member) (conflictingInterfaceType : loc) (y : Member)
    (getRange : unit → Range) c :
  errors c `prefix_of`
  errors (checkDuplicateInterfaceMembers interfaceType x conflictingInterfaceType y getRange c).
Proof.
  rewrite checkDuplicateInterfaceMembers_cases. case_match; simpl.
  - by apply prefix_app_r.
  - done.
Qed.

(** C3. The duplicate-member rule reports one member-conflict error for
    the members [x] and [y] exactly when their signatures do not match, or
    match while [x] or [y] has a default implementation or conditions; it
    leaves the checker as it is exactly when the signatures match and
    neither member has an implementation or conditions. *)
Theorem duplicate_member_rule
    (interfaceType : loc) (x : Member) (conflictingInterfaceType : loc) (y : Member)
    (getRange : unit → Range) c :
  let conflict :=
    InterfaceMemberConflictError interfaceType conflictingInterfaceType
      (Identifier_Identifier (Member_Identifier x))
      (Member_DeclarationKind x) (Member_DeclarationKind y) (getRange tt) in
  let after :=
    checkDuplicateInterfaceMembers interfaceType x conflictingInterfaceType y getRange c in
  let signaturesMatch := memberSatisfied interfaceType x y c in
  let carried :=
    HasImplementation x || HasConditions x || HasImplementation y || HasConditions y in
  (after = with_errors (errors c ++ [conflict]) c
   ↔ signaturesMatch = false ∨ (signaturesMatch = true ∧ carried = true))
  ∧ (after = c ↔ signaturesMatch = true ∧ carried = false)
  ∧ (errors after = errors c ++ [conflict] ∨ errors after = errors c).
Proof.
  intros conflict after signaturesMatch carried.
  unfold after. rewrite checkDuplicateInterfaceMembers_cases.
  fold conflict signaturesMatch carried.
  pose proof (with_errors_app_ne conflict c) as Hne.
  destruct signaturesMatch, carried; simpl; repeat split;
    try tauto; try done; intros H; try (by destruct H as [|[]]); try (by destruct H);
    try (by left); try (by right); auto.
Qed.

(** C4. For a member [m] named [name] of a conformance: when the name is
    in [inheritedMembers], the duplicate-member check runs on [m] and the
    member of the earlier conformance, the one in the map before the write;
    then the map holds [m] under the name; then, when the interface
    declares a member of that name itself, the check runs on the declared
    member and [m]. The diagnostics come in this order and none is
    dropped. *)
Theorem conformance_member_merge
    d (interfaceType conformance : loc) (name : string) (m : Member)
    (inheritedMembers : gmap string Member) c (object : InterfaceType) :
  interfaceTypes c !! interfaceType = Some object →
  (∀ earlier, inheritedMembers !! name = Some earlier →
              isInterfaceType (Member_ContainerType earlier) = true) →
  let c1 := afterInheritedCheck d conformance name m inheritedMembers c in
  let c2 := afterOwnCheck interfaceType conformance name m (Members object) c1 in
  checkInterfaceConformance_member d interfaceType conformance (name, m) inheritedMembers c
  = Ok (<[name := m]> inheritedMembers, c2)
  ∧ (<[name := m]> inheritedMembers) !! name = Some m
  ∧ errors c `prefix_of` errors c1
  ∧ errors c1 `prefix_of` errors c2.
Proof.
  intros Hobject Hearlier c1 c2.
  assert (Hc1 : interfaceTypes c1 !! interfaceType = Some object).
  { unfold c1, afterInheritedCheck. repeat case_match; try done.
    by rewrite checkDuplicateInterfaceMembers_interfaceTypes. }
  repeat split.
  - unfold checkInterfaceConformance_member, bind.
    assert (Hfirst :
      match inheritedMembers !! name with
      | Some conflictingMember =>
          match Member_ContainerType conflictingMember with
          | InterfaceTypeRef conflictingInterface =>
              run (checkDuplicateInterfaceMembers conformance m conflictingInterface
                     conflictingMember
                     (λ _, NewRangeFromPositioned (decl_Identifier d)))
          | _ => panic RuntimeError
          end
      | None => ret tt
      end c = Ok (tt, c1)).
    { unfold c1, afterInheritedCheck.
      destruct (inheritedMembers !! name) as [earlier|] eqn:E; [|done].
      specialize (Hearlier earlier eq_refl).
      by destruct (Member_ContainerType earlier). }
    rewrite Hfirst. unfold derefInterfaceType. rewrite Hc1.
    unfold c2, afterOwnCheck.
    by destruct (orderedmap.Get (Members object) name).
  - by rewrite lookup_insert_eq.
  - unfold c1, afterInheritedCheck. repeat case_match; try done.
    apply checkDuplicateInterfaceMembers_errors_prefix.
  - unfold c2, afterOwnCheck. case_match; [|done].
    apply checkDuplicateInterfaceMembers_errors_prefix.
Qed.

(** C5. A function of an interface is checked by the shape of its body: a
    body with statements is visited with [mustExit] and
    [checkResourceLoss] set; for an empty body without conditions one
    [InvalidImplementationError] with the kind of the container and the
    kind of functions is reported before the visit, which has both options
    unset; without a body, or with conditions only, nothing is reported and
    both options are unset. The functions are checked one after the
    other. *)
Theorem interface_function_body_rule
    (selfType : SemaType) (declarationKind : DeclarationKind) (selfDocString : string)
    (function : FunctionDeclaration) (functions : list FunctionDeclaration) c :
  let entered := declareSelfValue selfType selfDocString (enterValueScope c) in
  let visit (mustExit checkResourceLoss : bool) (c : Checker Env) :=
    leaveValueScope (FunctionDeclaration_EndPosition function) false
      (visitFunctionDeclaration function
         {| mustExit := mustExit;
            declareFunction := false;
            checkResourceLoss := checkResourceLoss |} c) in
  checkInterfaceFunctions_function selfType declarationKind selfDocString function c
  = match functionBodyShape function with
    | BodyWithStatements => visit true true entered
    | EmptyBodyWithoutConditions block =>
        visit false false
          (with_errors
             (errors entered ++
                [InvalidImplementationError (FunctionBlock_StartPosition block)
                   declarationKind DeclarationKindFunction])
             entered)
    | NoBodyOrConditionsOnly => visit false false entered
    end
  ∧ checkInterfaceFunctions (function :: functions) selfType declarationKind selfDocString c
    = checkInterfaceFunctions functions selfType declarationKind selfDocString
        (checkInterfaceFunctions_function selfType declarationKind selfDocString function c)
  ∧ checkInterfaceFunctions [] selfType declarationKind selfDocString c = c
  ∧ (functionBodyShape function = BodyWithStatements
     ↔ ∃ block, FunctionDeclaration_FunctionBlock function = Some block
                ∧ HasStatements block = true)
  ∧ (∀ block,
       functionBodyShape function = EmptyBodyWithoutConditions block
       ↔ FunctionDeclaration_FunctionBlock function = Some block
         ∧ HasStatements block = false
         ∧ PreConditions_IsEmpty block = true
         ∧ PostConditions_IsEmpty block = true)
  ∧ (functionBodyShape function = NoBodyOrConditionsOnly
     ↔ FunctionDeclaration_FunctionBlock function = None
       ∨ ∃ block, FunctionDeclaration_FunctionBlock function = Some block
                  ∧ HasStatements block = false
                  ∧ (PreConditions_IsEmpty block = false
                     ∨ PostConditions_IsEmpty block = false)).
Proof.
  intros entered visit. split; [|split; [done|split; [done|]]].
  - unfold checkInterfaceFunctions_function, functionBodyShape.
    destruct (FunctionDeclaration_FunctionBlock function) as [block|]; [|done].
    destruct (HasStatements block); [done|].
    by destruct (PreConditions_IsEmpty block), (PostConditions_IsEmpty block).
  - unfold functionBodyShape.
    destruct (FunctionDeclaration_FunctionBlock function) as [block|].
    + destruct (HasStatements block) eqn:Hs,
        (PreConditions_IsEmpty block) eqn:Hpre,
        (PostConditions_IsEmpty block) eqn:Hpost; simpl;
        (split; [split; [intros H; try done; by exists block|intros [b [[= <-] H]]; congruence]|]);
        (split; [intros b; split;
                 [intros [= <-]; by rewrite ?Hs, ?Hpre, ?Hpost
                 |intros ([= <-] & ? & ? & ?); congruence]|]);
        (split; [intros H; try done; right; exists block; repeat split; auto
                |intros [H|(b & [= <-] & ? & [?|?])]; congruence]).
    + split; [split; [done|by intros (b & ? & ?)]|].
      split; [intros b; split; [done|by intros (? & ?)]|].
      split; [by left|done].
Qed.

Lemma with_errors_app_nil c : with_errors (errors c ++ []) c = c.
Proof. destruct c. unfold with_errors. simpl. by rewrite app_nil_r. Qed.

Lemma with_errors_id c : with_errors (errors c) c = c.
Proof. by destruct c. Qed.

Lemma compositeKindOf_with_errors (l : list CheckerError) c (t : SemaType) :
  compositeKindOf (with_errors l c) t = compositeKindOf c t.
Proof. by destruct t. Qed.

Lemma GetCompositeKind_compositeKindOf (t : SemaType) c :
  GetCompositeKind t c =
  match compositeKindOf c t with
  | Some kind => Ok (kind, c)
  | None => Panic RuntimeError
  end.
Proof.
  destruct t as [l|l|n]; simpl; [| |done].
  - by destruct (interfaceTypes c !! l).
  - by destruct (compositeTypes c !! l).
Qed.

Lemma typeConflictErrors_with_errors
    d (interfaceType conformance : loc) (typeName : string) (typ other : SemaType)
    (l : list CheckerError) c :
  typeConflictErrors d interfaceType conformance typeName typ other (with_errors l c)
  = typeConflictErrors d interfaceType conformance typeName typ other c.
Proof. unfold typeConflictErrors. by rewrite !compositeKindOf_with_errors. Qed.

Lemma reportTypeConflictError_Ok
    d (interfaceType conformance : loc) (typeName : string) (typ other : SemaType) c :
  is_Some (compositeKindOf c typ) →
  (is_Some (asCompositeKindedType other) → is_Some (compositeKindOf c other)) →
  reportTypeConflictError d interfaceType conformance typeName typ other c
  = Ok (tt, with_errors
              (errors c ++
                 typeConflictErrors d interfaceType conformance typeName typ other c) c).
Proof.
  intros [kind Hkind] Hother. unfold reportTypeConflictError, typeConflictErrors.
  destruct (asCompositeKindedType other) as [otherCompositeType|] eqn:E.
  - assert (otherCompositeType = other) as -> by (destruct other; naive_solver).
    destruct (Hother (mk_is_Some _ _ eq_refl)) as [otherKind HotherKind].
    unfold bind. rewrite GetCompositeKind_compositeKindOf, Hkind. simpl.
    by rewrite GetCompositeKind_compositeKindOf, HotherKind.
  - destruct other; try done. simpl. rewrite Hkind. simpl.
    by rewrite with_errors_app_nil.
Qed.

(** C8, as the code has it. A nested type of a conformance that is not
    composite-kinded is skipped: nothing is checked and nothing is
    recorded. A composite-kinded one, a composite type or an interface
    type alike, is checked against the type of that name in
    [inheritedNestedTypes], then recorded there, then checked against the
    nested type of that name of the interface itself; each collision is
    reported with the declaration kinds of the two types, computed from
    their composite kinds and from whether each is an interface type. *)
Theorem conformance_nested_type_merge
    d (interfaceType conformance : loc) (name : string) (t : SemaType)
    (inheritedNestedTypes : gmap string SemaType) c (object : InterfaceType) :
  interfaceTypes c !! interfaceType = Some object →
  is_Some (compositeKindOf c t) →
  (∀ earlier, inheritedNestedTypes !! name = Some earlier →
              is_Some (compositeKindOf c earlier)) →
  (∀ own, orderedmap.Get (NestedTypes object) name = Some own →
          is_Some (asCompositeKindedType own) → is_Some (compositeKindOf c own)) →
  let inheritedConflict :=
    match inheritedNestedTypes !! name with
    | Some earlier => typeConflictErrors d interfaceType conformance name t earlier c
    | None => []
    end in
  let ownConflict :=
    match orderedmap.Get (NestedTypes object) name with
    | Some own => typeConflictErrors d interfaceType conformance name t own c
    | None => []
    end in
  checkInterfaceConformance_nestedType d interfaceType conformance (name, t)
    inheritedNestedTypes c
  = Ok (<[name := t]> inheritedNestedTypes,
        with_errors (errors c ++ inheritedConflict ++ ownConflict) c)
  ∧ (∀ earlier, inheritedNestedTypes !! name = Some earlier →
                length inheritedConflict = 1)
  ∧ (∀ own, orderedmap.Get (NestedTypes object) name = Some own →
            length ownConflict
            = match asCompositeKindedType own with Some _ => 1 | None => 0 end)
  ∧ (∀ code,
       checkInterfaceConformance_nestedType d interfaceType conformance
         (name, OtherType code) inheritedNestedTypes c
       = Ok (inheritedNestedTypes, c))
  ∧ (∀ l, asCompositeKindedType (InterfaceTypeRef l) = Some (InterfaceTypeRef l)
          ∧ asCompositeKindedType (CompositeTypeRef l) = Some (CompositeTypeRef l)).
Proof.
  intros Hobject Ht Hearlier Hown inheritedConflict ownConflict.
  assert (Hkinded : asCompositeKindedType t = Some t).
  { destruct t; try done. by destruct Ht. }
  split; [|repeat split].
  - unfold checkInterfaceConformance_nestedType. rewrite Hkinded.
    assert (Hrest : ∀ l,
      (let* interfaceTypeObject := derefInterfaceType interfaceType in
       match orderedmap.Get (NestedTypes interfaceTypeObject) name with
       | Some nestedType =>
           let* _ := reportTypeConflictError d interfaceType conformance name t nestedType in
           ret (<[name := t]> inheritedNestedTypes)
       | None => ret (<[name := t]> inheritedNestedTypes)
       end) (with_errors l c)
      = Ok (<[name := t]> inheritedNestedTypes, with_errors (l ++ ownConflict) c)).
    { intros l. unfold bind at 1. unfold derefInterfaceType. simpl. rewrite Hobject.
      unfold ownConflict.
      destruct (orderedmap.Get (NestedTypes object) name) as [own|] eqn:E.
      - unfold bind. rewrite reportTypeConflictError_Ok.
        + by rewrite typeConflictErrors_with_errors.
        + by rewrite compositeKindOf_with_errors.
        + rewrite compositeKindOf_with_errors. by apply Hown.
      - by rewrite app_nil_r. }
    unfold inheritedConflict.
    destruct (inheritedNestedTypes !! name) as [earlier|] eqn:E.
    + destruct (Hearlier earlier eq_refl) as [k Hk].
      assert (asCompositeKindedType earlier = Some earlier) as ->
        by (by destruct earlier).
      unfold bind at 1. rewrite reportTypeConflictError_Ok; [|done|by rewrite Hk].
      rewrite Hrest. by rewrite app_assoc.
    + pose proof (Hrest (errors c)) as H. rewrite with_errors_id in H.
      simpl. by rewrite H.
  - intros earlier E. unfold inheritedConflict. rewrite E. unfold typeConflictErrors.
    destruct Ht as [k ->]. by destruct (Hearlier earlier E) as [k' ->].
  - intros own E. unfold ownConflict. rewrite E. unfold typeConflictErrors.
    destruct Ht as [k ->].
    destruct (asCompositeKindedType own) eqn:Eown.
    + destruct (Hown own E) as [k' ->]; done.
    + by destruct own.
Qed.

(** *** The declaration of an interface type *)

Lemma orderedmap_Get_Set {V} (m : orderedmap.OrderedMap V) (k k' : string) (v : V) :
  is_Some (orderedmap.Get (orderedmap.Set_ m k v) k')
  ↔ k' = k ∨ is_Some (orderedmap.Get m k').
Proof.
  induction m as [|[k0 v0] m IH]; simpl.
  - case_decide; subst.
    + split; [by left|by eexists].
    + split; [by intros [? ?]|]. intros [->|[? ?]]; done.
  - destruct (decide (k0 = k)) as [->|Hne]; simpl.
    + destruct (decide (k = k')) as [->|Hne'].
      * split; [by left|by eexists].
      * split; [by right|]. intros [->|H]; done.
    + destruct (decide (k0 = k')) as [->|Hne'].
      * split; [by right|by eexists].
      * apply IH.
Qed.

Lemma objectsKept_refl (X : SemaType) c : objectsKept X c c.
Proof. repeat split; try done; intros l o Ho; exists o; by repeat split. Qed.

Lemma objectsKept_trans (X : SemaType) c1 c2 c3 :
  objectsKept X c1 c2 → objectsKept X c2 c3 → objectsKept X c1 c3.
Proof.
  intros (He & Hel & Hi & Hc) (He' & Hel' & Hi' & Hc').
  split; [congruence|]. split; [congruence|]. split.
  - intros l o Ho. destruct (Hi l o Ho) as (o' & Ho' & Hid & Hct & Hnt).
    destruct (Hi' l o' Ho') as (o'' & Ho'' & Hid' & Hct' & Hnt').
    exists o''. repeat split; [done|congruence|auto|auto].
  - intros l o Ho. destruct (Hc l o Ho) as (o' & Ho' & Hid & Hct).
    destruct (Hc' l o' Ho') as (o'' & Ho'' & Hid' & Hct').
    exists o''. repeat split; [done|congruence|auto].
Qed.

Lemma updateInterfaceType_Ok (l : loc) (f : InterfaceType → InterfaceType) c
    (o : InterfaceType) :
  interfaceTypes c !! l = Some o →
  updateInterfaceType l f c
  = Ok (tt, with_interfaceTypes (<[l := f o]> (interfaceTypes c)) c).
Proof. intros H. unfold updateInterfaceType, bind, derefInterfaceType. by rewrite H. Qed.

Lemma updateCompositeType_Ok (l : loc) (f : CompositeType → CompositeType) c
    (o : CompositeType) :
  compositeTypes c !! l = Some o →
  updateCompositeType l f c
  = Ok (tt, with_compositeTypes (<[l := f o]> (compositeTypes c)) c).
Proof. intros H. unfold updateCompositeType, bind, derefCompositeType. by rewrite H. Qed.

(** A write to an interface type that keeps its name, its container type
    when it is [X], and its nested types. *)
Lemma objectsKept_updateInterfaceType (X : SemaType) (l : loc)
    (f : InterfaceType → InterfaceType) c (o : InterfaceType) :
  interfaceTypes c !! l = Some o →
  InterfaceType_Identifier (f o) = InterfaceType_Identifier o →
  (InterfaceType_containerType o = Some X → InterfaceType_containerType (f o) = Some X) →
  (∀ k, is_Some (orderedmap.Get (NestedTypes o) k) →
        is_Some (orderedmap.Get (NestedTypes (f o)) k)) →
  objectsKept X c (with_interfaceTypes (<[l := f o]> (interfaceTypes c)) c).
Proof.
  intros Ho Hid Hct Hnt. repeat split; try done.
  - intros l' o' Ho'. simpl. destruct (decide (l = l')) as [<-|Hne].
    + rewrite lookup_insert_eq. simplify_eq. by exists (f o).
    + rewrite lookup_insert_ne by done. exists o'. by repeat split.
  - intros l' o' Ho'. exists o'. by repeat split.
Qed.

Lemma objectsKept_updateCompositeType (X : SemaType) (l : loc)
    (f : CompositeType → CompositeType) c (o : CompositeType) :
  compositeTypes c !! l = Some o →
  CompositeType_Identifier (f o) = CompositeType_Identifier o →
  (CompositeType_containerType o = Some X → CompositeType_containerType (f o) = Some X) →
  objectsKept X c (with_compositeTypes (<[l := f o]> (compositeTypes c)) c).
Proof.
  intros Ho Hid Hct. repeat split; try done.
  - intros l' o' Ho'. exists o'. by repeat split.
  - intros l' o' Ho'. simpl. destruct (decide (l = l')) as [<-|Hne].
    + rewrite lookup_insert_eq. simplify_eq. by exists (f o).
    + rewrite lookup_insert_ne by done. exists o'. by repeat split.
Qed.

Lemma forM__cons {A} (x : A) (l : list A) (body : A → M Env unit) :
  forM_ (x :: l) body = bind (body x) (λ _, forM_ l body).
Proof. done. Qed.

Lemma objectsKept_interfaceType (X : SemaType) c c' (l : loc) :
  objectsKept X c c' → is_Some (interfaceTypes c !! l) → is_Some (interfaceTypes c' !! l).
Proof.
  intros (_ & _ & Hi & _) [o Ho]. destruct (Hi l o Ho) as (o' & Ho' & _). by exists o'.
Qed.

Lemma objectsKept_compositeType (X : SemaType) c c' (l : loc) :
  objectsKept X c c' → is_Some (compositeTypes c !! l) → is_Some (compositeTypes c' !! l).
Proof.
  intros (_ & _ & _ & Hc) [o Ho]. destruct (Hc l o Ho) as (o' & Ho' & _). by exists o'.
Qed.

(** The first loop at the end of [declareInterfaceType]. *)
Lemma linkNestedInterfaceTypes_spec (interfaceType : loc) (nested : list loc) c :
  is_Some (interfaceTypes c !! interfaceType) →
  (∀ n, n ∈ nested → is_Some (interfaceTypes c !! n)) →
  ∃ c',
    linkNestedInterfaceTypes interfaceType nested c = Ok (tt, c')
    ∧ objectsKept (InterfaceTypeRef interfaceType) c c'
    ∧ ∀ n, n ∈ nested →
        ∃ o object,
          interfaceTypes c' !! n = Some o
          ∧ InterfaceType_containerType o = Some (InterfaceTypeRef interfaceType)
          ∧ interfaceTypes c' !! interfaceType = Some object
          ∧ is_Some (orderedmap.Get (NestedTypes object) (InterfaceType_Identifier o)).
Proof.
  set (X := InterfaceTypeRef interfaceType).
  revert c. induction nested as [|n nested IH]; intros c Hit Hall.
  - exists c. split; [done|]. split; [apply objectsKept_refl|].
    intros n Hn. by apply elem_of_nil in Hn.
  - destruct Hit as [oit Hoit].
    destruct (Hall n) as [on Hon]; [by left|].
    set (f1 := λ t : InterfaceType,
           with_NestedTypes
             (orderedmap.Set_ (NestedTypes t) (InterfaceType_Identifier on)
                (InterfaceTypeRef n)) t).
    set (c1 := with_interfaceTypes (<[interfaceType := f1 oit]> (interfaceTypes c)) c).
    assert (K1 : objectsKept X c c1).
    { apply objectsKept_updateInterfaceType; try done.
      intros k Hk. simpl. apply orderedmap_Get_Set. by right. }
    destruct K1 as (He1 & Hel1 & Hi1 & Hc1).
    destruct (Hi1 n on Hon) as (o1 & Ho1 & Hid1 & Hct1 & Hnt1).
    set (c2 := with_interfaceTypes
                 (<[n := InterfaceType_SetContainerType X o1]> (interfaceTypes c1)) c1).
    assert (K2 : objectsKept X c1 c2) by (by apply objectsKept_updateInterfaceType).
    assert (K : objectsKept X c c2).
    { eapply objectsKept_trans; [|exact K2]. by repeat split. }
    destruct (IH c2) as (c' & Hrun & K' & Hnested).
    { eapply objectsKept_interfaceType; [exact K|]. by exists oit. }
    { intros n' Hn'. eapply objectsKept_interfaceType; [exact K|]. apply Hall. by right. }
    exists c'. split; [|split].
    + unfold linkNestedInterfaceTypes in *. rewrite forM__cons.
      unfold bind at 1. unfold bind at 1. unfold derefInterfaceType at 1. rewrite Hon.
      unfold bind at 1. rewrite (updateInterfaceType_Ok _ _ _ oit Hoit).
      fold f1 c1. rewrite (updateInterfaceType_Ok _ _ _ o1 Ho1). fold c2. exact Hrun.
    + eapply objectsKept_trans; [exact K|exact K'].
    + intros n' [->|Hn']%elem_of_cons; [|by apply Hnested].
      destruct K2 as (_ & _ & Hi2 & _).
      destruct (Hi2 interfaceType (f1 oit)) as (oit2 & Hoit2 & _ & _ & Hnt2).
      { unfold c1. simpl. by rewrite lookup_insert_eq. }
      destruct K' as (_ & _ & Hi' & _).
      destruct (Hi' n (InterfaceType_SetContainerType X o1))
        as (o' & Ho' & Hid' & Hct' & _).
      { unfold c2. simpl. by rewrite lookup_insert_eq. }
      destruct (Hi' interfaceType oit2 Hoit2) as (object & Hobject & _ & _ & Hnt').
      exists o', object. repeat split; [done|by apply Hct'|done|].
      apply Hnt', Hnt2. rewrite Hid'. simpl. rewrite Hid1.
      apply orderedmap_Get_Set. by left.
Qed.

(** The second loop at the end of [declareInterfaceType]. *)
Lemma linkNestedCompositeTypes_spec (interfaceType : loc) (nested : list loc) c :
  is_Some (interfaceTypes c !! interfaceType) →
  (∀ n, n ∈ nested → is_Some (compositeTypes c !! n)) →
  ∃ c',
    linkNestedCompositeTypes interfaceType nested c = Ok (tt, c')
    ∧ objectsKept (InterfaceTypeRef interfaceType) c c'
    ∧ ∀ n, n ∈ nested →
        ∃ o object,
          compositeTypes c' !! n = Some o
          ∧ CompositeType_containerType o = Some (InterfaceTypeRef interfaceType)
          ∧ interfaceTypes c' !! interfaceType = Some object
          ∧ is_Some (orderedmap.Get (NestedTypes object) (CompositeType_Identifier o)).
Proof.
  set (X := InterfaceTypeRef interfaceType).
  revert c. induction nested as [|n nested IH]; intros c Hit Hall.
  - exists c. split; [done|]. split; [apply objectsKept_refl|].
    intros n Hn. by apply elem_of_nil in Hn.
  - destruct Hit as [oit Hoit].
    destruct (Hall n) as [on Hon]; [by left|].
    set (f1 := λ t : InterfaceType,
           with_NestedTypes
             (orderedmap.Set_ (NestedTypes t) (CompositeType_Identifier on)
                (CompositeTypeRef n)) t).
    set (c1 := with_interfaceTypes (<[interfaceType := f1 oit]> (interfaceTypes c)) c).
    assert (K1 : objectsKept X c c1).
    { apply objectsKept_updateInterfaceType; try done.
      intros k Hk. simpl. apply orderedmap_Get_Set. by right. }
    assert (Hon1 : compositeTypes c1 !! n = Some on) by done.
    set (c2 := with_compositeTypes
                 (<[n := CompositeType_SetContainerType X on]> (compositeTypes c1)) c1).
    assert (K2 : objectsKept X c1 c2) by (by apply objectsKept_updateCompositeType).
    assert (K : objectsKept X c c2) by (by eapply objectsKept_trans).
    destruct (IH c2) as (c' & Hrun & K' & Hnested).
    { eapply objectsKept_interfaceType; [exact K|]. by exists oit. }
    { intros n' Hn'. eapply objectsKept_compositeType; [exact K|]. apply Hall. by right. }
    exists c'. split; [|split].
    + unfold linkNestedCompositeTypes in *. rewrite forM__cons.
      unfold bind at 1. unfold bind at 1. unfold derefCompositeType at 1. rewrite Hon.
      unfold bind at 1. rewrite (updateInterfaceType_Ok _ _ _ oit Hoit).
      fold f1 c1. rewrite (updateCompositeType_Ok _ _ _ on Hon1). fold c2. exact Hrun.
    + eapply objectsKept_trans; [exact K|exact K'].
    + intros n' [->|Hn']%elem_of_cons; [|by apply Hnested].
      destruct K' as (_ & _ & Hi' & Hc').
      destruct (Hc' n (CompositeType_SetContainerType X on)) as (o' & Ho' & Hid' & Hct').
      { unfold c2. simpl. by rewrite lookup_insert_eq. }
      destruct (Hi' interfaceType (f1 oit)) as (object & Hobject & _ & _ & Hnt').
      { unfold c2, c1. simpl. by rewrite lookup_insert_eq. }
      exists o', object. repeat split; [done|by apply Hct'|done|].
      apply Hnt'. rewrite Hid'. simpl. apply orderedmap_Get_Set. by left.
Qed.

Section DeclarePass.

Context (HF : DeclarePassFrame).

(** [declareInterfaceType] up to the two writes to the elaboration: the
    new interface type is in both maps. *)
Lemma declareInterfaceType_register_spec d c :
  ∃ c_reg,
    declareInterfaceType_register d c = Ok (fresh (dom (interfaceTypes c)), c_reg)
    ∧ InterfaceDeclarationTypes (Checker_Elaboration c_reg) !! decl_ptr d
      = Some (fresh (dom (interfaceTypes c)))
    ∧ InterfaceTypeDeclarations (Checker_Elaboration c_reg)
        !! fresh (dom (interfaceTypes c))
      = Some (decl_ptr d)
    ∧ is_Some (interfaceTypes c_reg !! fresh (dom (interfaceTypes c))).
Proof.
  set (it := fresh (dom (interfaceTypes c))).
  unfold declareInterfaceType_register.
  unfold bind at 1. unfold get at 1.
  unfold bind at 1. unfold newInterfaceType at 1. fold it.
  match goal with
  | |- context [with_interfaceTypes (<[it := ?o]> _) c] =>
      set (c1 := with_interfaceTypes (<[it := o]> (interfaceTypes c)) c)
  end.
  assert (H1 : is_Some (interfaceTypes c1 !! it)).
  { unfold c1. simpl. rewrite lookup_insert_eq. by eexists. }
  unfold bind at 1. unfold call at 1.
  match goal with
  | |- context [typeActivations_declareType ?t c1] =>
      pose proof (frame_declareType HF t c1 it H1) as H2;
      destruct (typeActivations_declareType t c1) as [[variable err] c2]
  end.
  simpl in H2.
  unfold bind at 1. unfold run at 1.
  assert (H3 : is_Some (interfaceTypes (report err c2) !! it)) by (by destruct err).
  set (c3 := report err c2) in *.
  unfold bind at 1. unfold get at 1.
  match goal with
  | |- context [bind ?m _ c3] =>
      assert (∃ c4, m c3 = Ok (tt, c4) ∧ is_Some (interfaceTypes c4 !! it))
        as (c4 & Hrecord & H4)
  end.
  { destruct (PositionInfo_notNil c3), variable as [v|]; try by exists c3.
    eexists. split; [done|].
    apply (frame_recordVariableDeclarationOccurrence HF _ v c3 it H3). }
  unfold bind at 1. rewrite Hrecord.
  unfold bind at 1. unfold call at 1.
  pose proof (frame_explicitInterfaceConformances HF d it c4 it H4) as H5.
  destruct (explicitInterfaceConformances d it c4) as [conformances c5].
  simpl in H5. destruct H5 as [o5 H5].
  unfold bind at 1. rewrite (updateInterfaceType_Ok _ _ _ o5 H5).
  eexists. split; [done|]. simpl.
  split; [by rewrite lookup_insert_eq|].
  split; [by rewrite lookup_insert_eq|].
  rewrite lookup_insert_eq. by eexists.
Qed.

(** [declareInterfaceType] from the activation of the scopes on: it
    returns the interface type it is given, records the nested
    declarations and links the nested types. *)
Lemma declareInterfaceType_nested_spec d (interfaceType : loc) c :
  is_Some (interfaceTypes c !! interfaceType) →
  ∃ nestedDeclarations nestedInterfaceTypes nestedCompositeTypes c10 c',
    declareNestedDeclarations (decl_CompositeKind d)
      (InterfaceDeclaration_DeclarationKind d) (Members_Composites d)
      (Members_Interfaces d) (enterValueScope (typeActivations_Enter c))
    = (nestedDeclarations, nestedInterfaceTypes, nestedCompositeTypes, c10)
    ∧ declareInterfaceType_nested d interfaceType c = Ok (interfaceType, c')
    ∧ errors c `prefix_of` errors c'
    ∧ InterfaceDeclarationTypes (Checker_Elaboration c)
        ⊆ InterfaceDeclarationTypes (Checker_Elaboration c')
    ∧ InterfaceTypeDeclarations (Checker_Elaboration c)
        ⊆ InterfaceTypeDeclarations (Checker_Elaboration c')
    ∧ InterfaceNestedDeclarations (Checker_Elaboration c')
      = <[decl_ptr d := nestedDeclarations]>
          (InterfaceNestedDeclarations (Checker_Elaboration c10))
    ∧ InterfaceDeclarationTypes (Checker_Elaboration c')
      = InterfaceDeclarationTypes (Checker_Elaboration c10)
    ∧ nestedTypesLinked c' interfaceType nestedInterfaceTypes nestedCompositeTypes.
Proof.
  intros Hit.
  destruct (frame_typeActivations_Enter HF c) as (He8 & Hel8 & Hi8 & Hc8).
  set (c8 := typeActivations_Enter c) in *.
  destruct (frame_enterValueScope HF c8) as (He9 & Hel9 & Hi9 & Hc9).
  set (c9 := enterValueScope c8) in *.
  pose proof (frame_declareNestedDeclarations HF (decl_CompositeKind d)
                (InterfaceDeclaration_DeclarationKind d) (Members_Composites d)
                (Members_Interfaces d) c9) as H10.
  destruct (declareNestedDeclarations (decl_CompositeKind d)
              (InterfaceDeclaration_DeclarationKind d) (Members_Composites d)
              (Members_Interfaces d) c9) as [[[nds nits] ncts] c10] eqn:E10.
  destruct H10 as (Hnits & Hncts & He10 & Hi10 & Hidt10 & Hitd10).
  set (c11 := with_Elaboration
                {| InterfaceDeclarationTypes :=
                     InterfaceDeclarationTypes (Checker_Elaboration c10);
                   InterfaceTypeDeclarations :=
                     InterfaceTypeDeclarations (Checker_Elaboration c10);
                   InterfaceNestedDeclarations :=
                     <[decl_ptr d := nds]>
                       (InterfaceNestedDeclarations (Checker_Elaboration c10)) |} c10).
  destruct (linkNestedInterfaceTypes_spec interfaceType nits c11)
    as (c12 & Hrun12 & K12 & Hlinked12).
  { apply Hi10. by rewrite Hi9, Hi8. }
  { done. }
  destruct (linkNestedCompositeTypes_spec interfaceType ncts c12)
    as (c13 & Hrun13 & K13 & Hlinked13).
  { eapply objectsKept_interfaceType; [exact K12|]. apply Hi10. by rewrite Hi9, Hi8. }
  { intros n Hn. eapply objectsKept_compositeType; [exact K12|]. by apply Hncts. }
  destruct (frame_leaveValueScope HF (decl_EndPosition d) c13)
    as (He14 & Hel14 & Hi14 & Hc14).
  set (c14 := leaveValueScope (decl_EndPosition d) false c13) in *.
  destruct (frame_typeActivations_Leave HF (decl_EndPosition d) c14)
    as (He15 & Hel15 & Hi15 & Hc15).
  set (c15 := typeActivations_Leave (decl_EndPosition d) c14) in *.
  pose proof K12 as (He12 & Hel12 & _).
  pose proof K13 as (He13 & Hel13 & Hi13 & _).
  exists nds, nits, ncts, c10, c15.
  split; [done|]. split; [|split; [|split; [|split; [|split; [|split]]]]].
  - unfold declareInterfaceType_nested.
    unfold bind at 1. unfold run at 1. fold c8.
    unfold bind at 1. unfold run at 1. fold c9.
    unfold bind at 1. unfold call at 1. rewrite E10.
    unfold bind at 1. unfold run at 1. fold c11.
    unfold bind at 1. rewrite Hrun12.
    unfold bind at 1. rewrite Hrun13.
    done.
  - rewrite He15, He14, He13, He12. simpl. by rewrite <- He8, <- He9.
  - rewrite Hel15, Hel14, Hel13, Hel12. simpl. by rewrite <- Hel8, <- Hel9.
  - rewrite Hel15, Hel14, Hel13, Hel12. simpl. by rewrite <- Hel8, <- Hel9.
  - by rewrite Hel15, Hel14, Hel13, Hel12.
  - by rewrite Hel15, Hel14, Hel13, Hel12.
  - destruct (objectsKept_interfaceType _ _ _ interfaceType K13) as [object Hobject].
    { eapply objectsKept_interfaceType; [exact K12|]. apply Hi10. by rewrite Hi9, Hi8. }
    exists object. rewrite Hi15, Hi14, Hc15, Hc14. split; [done|]. split.
    + intros n Hn. destruct (Hlinked12 n Hn) as (o & oit & Ho & Hct & Hoit & Hnt).
      destruct (Hi13 n o Ho) as (o' & Ho' & Hid' & Hct' & _).
      destruct (Hi13 interfaceType oit Hoit) as (oit' & Hoit' & _ & _ & Hnt').
      exists o'. repeat split; [done|by apply Hct'|].
      rewrite Hid'. simplify_eq. by apply Hnt'.
    + intros n Hn. destruct (Hlinked13 n Hn) as (o & oit & Ho & Hct & Hoit & Hnt).
      exists o. simplify_eq. by repeat split.
Qed.

End DeclarePass.

(** *** No [UnreachableError] once the types are declared *)

Section Unreachable.

Context (HK : PassesKeepElaboration).

Implicit Types (P : Elaboration → Prop).

Lemma keepsOrFails_ret P {A} (a : A) : keepsOrFails (Env := Env) P (ret a).
Proof. by intros c _. Qed.

Lemma keepsOrFails_panic P {A} : keepsOrFails (Env := Env) P (panic (A := A) RuntimeError).
Proof. by intros c _. Qed.

Lemma keepsOrFails_run P (f : Checker Env → Checker Env) :
  keepsElaboration f → keepsOrFails (Env := Env) P (run f).
Proof. intros Hf c _. apply Hf. Qed.

Lemma keepsOrFails_call P {A} (f : Checker Env → A * Checker Env) :
  keepsElaborationR f → keepsOrFails (Env := Env) P (call f).
Proof. intros Hf c _. unfold call. specialize (Hf c). by destruct (f c). Qed.

Lemma keepsOrFails_bind P {A B} (m : M Env A) (k : A → M Env B) :
  keepsOrFails (Env := Env) P m → (∀ a, keepsOrFails (Env := Env) P (k a)) → keepsOrFails (Env := Env) P (bind m k).
Proof.
  intros Hm Hk c HP. unfold bind. specialize (Hm c HP).
  destruct (m c) as [[a c']|p]; [|done].
  specialize (Hk a c'). rewrite Hm in Hk. specialize (Hk HP).
  destruct (k a c') as [[b c'']|p]; [|done]. congruence.
Qed.

Lemma keepsOrFails_get P {B} (k : Checker Env → M Env B) :
  (∀ c0, P (Checker_Elaboration c0) →
         keepsOrFails (Env := Env) (λ e, e = Checker_Elaboration c0) (k c0)) →
  keepsOrFails (Env := Env) P (bind get k).
Proof. intros Hk c HP. unfold bind, get. by apply (Hk c HP c). Qed.

Lemma keepsOrFails_get_plain P : keepsOrFails (Env := Env) P get.
Proof. by intros c _. Qed.

Lemma keepsOrFails_weaken P (Q : Elaboration → Prop) {A} (m : M Env A) :
  (∀ e, P e → Q e) → keepsOrFails (Env := Env) Q m → keepsOrFails (Env := Env) P m.
Proof. intros HPQ Hm c HP. apply Hm, HPQ, HP. Qed.

Lemma keepsOrFails_forM_ P {A} (l : list A) (body : A → M Env unit) :
  Forall (λ x, keepsOrFails (Env := Env) P (body x)) l → keepsOrFails (Env := Env) P (forM_ l body).
Proof.
  unfold forM_. induction 1 as [|x l Hx _ IH].
  - apply keepsOrFails_ret.
  - apply keepsOrFails_bind; [done|]. intros _. apply IH.
Qed.

Lemma keepsOrFails_foldM P {A S} (l : list A) (body : A → S → M Env S) (s : S) :
  (∀ x s, keepsOrFails (Env := Env) P (body x s)) → keepsOrFails (Env := Env) P (foldM l body s).
Proof.
  intros Hbody. revert s. induction l as [|x l IH]; intros s; simpl.
  - apply keepsOrFails_ret.
  - apply keepsOrFails_bind; [apply Hbody|]. intros s'. apply IH.
Qed.

Lemma keepsOrFails_derefInterfaceType P (l : loc) :
  keepsOrFails (Env := Env) P (derefInterfaceType l).
Proof. intros c _. unfold derefInterfaceType. by destruct (interfaceTypes c !! l). Qed.

Lemma keepsOrFails_updateInterfaceType P (l : loc) (f : InterfaceType → InterfaceType) :
  keepsOrFails (Env := Env) P (updateInterfaceType l f).
Proof.
  apply keepsOrFails_bind; [apply keepsOrFails_derefInterfaceType|].
  intros o. by apply keepsOrFails_run.
Qed.

Lemma keepsOrFails_GetCompositeKind P (t : SemaType) :
  keepsOrFails (Env := Env) P (GetCompositeKind t).
Proof.
  intros c _. rewrite GetCompositeKind_compositeKindOf.
  by destruct (compositeKindOf c t).
Qed.

Lemma keepsElaboration_report (err : option CheckerError) :
  keepsElaboration (report (Env := Env) err).
Proof. intros c. by destruct err. Qed.

Lemma keepsElaboration_checkDuplicateInterfaceMembers
    (interfaceType : loc) (x : Member) (conflictingInterfaceType : loc) (y : Member)
    (getRange : unit → Range) :
  keepsElaboration
    (checkDuplicateInterfaceMembers interfaceType x conflictingInterfaceType y getRange).
Proof. intros c. rewrite checkDuplicateInterfaceMembers_cases. by case_match. Qed.

Create HintDb keeps discriminated.

Hint Resolve keepsOrFails_ret keepsOrFails_panic keepsOrFails_get_plain
  keepsOrFails_derefInterfaceType
  keepsOrFails_updateInterfaceType keepsOrFails_GetCompositeKind
  keepsElaboration_report keepsElaboration_checkDuplicateInterfaceMembers : keeps.

(** One step of a pass: split a bind, or close a step by a lemma above or
    by what is asked of the passes. *)
Ltac keeps_step :=
  match goal with
  | |- keepsOrFails _ (bind _ _) => apply keepsOrFails_bind; [|intros ?]
  | |- keepsOrFails _ (run _) => apply keepsOrFails_run
  | |- keepsOrFails _ (call _) => apply keepsOrFails_call
  | |- keepsOrFails _ (forM_ _ _) => apply keepsOrFails_forM_, Forall_forall; intros ? ?
  | |- keepsOrFails _ (foldM _ _ _) => apply keepsOrFails_foldM; intros ? ?
  | |- keepsOrFails _ (let (_, _) := ?x in _) => destruct x
  | |- keepsOrFails _ (match ?x with _ => _ end) => destruct x eqn:?
  | |- keepsOrFails _ (if ?x then _ else _) => destruct x eqn:?
  | |- keepsOrFails _ _ => solve [auto with keeps]
  | |- keepsElaboration _ => solve [auto with keeps | apply HK]
  | |- keepsElaborationR _ => solve [apply HK]
  end.

Lemma keepsOrFails_checkInterfaceConformance P d (interfaceType conformance : loc)
    (inherited : gmap string Member * gmap string SemaType) :
  keepsOrFails (Env := Env) P (checkInterfaceConformance d interfaceType conformance inherited).
Proof.
  unfold checkInterfaceConformance, checkInterfaceConformance_member,
    checkInterfaceConformance_nestedType, reportTypeConflictError.
  repeat keeps_step.
Qed.

Lemma keepsElaboration_checkInterfaceFunctions
    (functions : list FunctionDeclaration) (selfType : SemaType)
    (declarationKind : DeclarationKind) (selfDocString : string) :
  keepsElaboration (checkInterfaceFunctions functions selfType declarationKind selfDocString).
Proof.
  unfold checkInterfaceFunctions. induction functions as [|f fs IH]; intros c; [done|].
  simpl. rewrite IH. unfold checkInterfaceFunctions_function.
  repeat case_match; simplify_eq;
    rewrite ?(keeps_leaveValueScope HK), ?(keeps_visitFunctionDeclaration HK),
      ?keepsElaboration_report, ?(keeps_declareSelfValue HK), ?(keeps_enterValueScope HK);
    done.
Qed.

Lemma typesDeclared_nested (e : Elaboration) (l : list InterfaceDeclaration) :
  Forall (typeDeclared e)
    ((fix nested (l : list InterfaceDeclaration) : list InterfaceDeclaration :=
        match l with
        | [] => []
        | n :: l' => interface_declarations n ++ nested l'
        end) l)
  ↔ Forall (typesDeclared e) l.
Proof.
  induction l as [|n l IH].
  - split; constructor.
  - rewrite Forall_app, IH, Forall_cons. done.
Qed.

Lemma typesDeclared_unfold (e : Elaboration) d :
  typesDeclared e d ↔ typeDeclared e d ∧ Forall (typesDeclared e) (Members_Interfaces d).
Proof.
  unfold typesDeclared at 1. destruct d. cbn [interface_declarations Members_Interfaces].
  by rewrite Forall_cons, typesDeclared_nested.
Qed.

Lemma keepsOrFails_declareInterfaceNestedTypes d :
  keepsOrFails (Env := Env) (λ e, typeDeclared e d) (declareInterfaceNestedTypes d).
Proof.
  unfold declareInterfaceNestedTypes. apply keepsOrFails_get. intros c0 [_ Hids].
  lazy zeta. repeat keeps_step.
  exfalso.
  destruct (InterfaceNestedDeclarations (Checker_Elaboration c0) !! decl_ptr d)
    as [nestedDeclarations|] eqn:E; simpl in *.
  - match goal with
    | H : nestedDeclarations !! _ = Some ?nd, H' : DeclarationIdentifier ?nd = None |- _ =>
        destruct (Hids _ _ _ eq_refl H) as [i Hi]; congruence
    end.
  - match goal with
    | H : ∅ !! _ = Some _ |- _ => by rewrite lookup_empty in H
    end.
Qed.

Lemma keepsOrFails_declareInterfaceMembers d :
  keepsOrFails (Env := Env) (λ e, typesDeclared e d) (declareInterfaceMembers d).
Proof.
  induction d as [d IH] using InterfaceDeclaration_tree_ind.
  destruct d as [ptr access kind identifier doc startPos endPos fields functions
                   specials interfaces composites].
  cbn [declareInterfaceMembers Members_Interfaces Members_Composites decl_ptr
         decl_EndPosition] in *.
  set (d := Build_InterfaceDeclaration _ _ _ _ _ _ _ _ _ _ _ _) in *.
  apply keepsOrFails_get. intros c0 Hd.
  apply typesDeclared_unfold in Hd as [Hd Hnested].
  cbn [Members_Interfaces d] in Hnested.
  destruct (InterfaceDeclarationTypes (Checker_Elaboration c0) !! ptr)
    as [interfaceType|] eqn:E; [|destruct Hd as [[? Hd] _]; simpl in Hd; congruence].
  repeat first
    [ apply (keepsOrFails_weaken _ (λ e, typeDeclared e d));
      [by intros e ->|apply keepsOrFails_declareInterfaceNestedTypes]
    | keeps_step ].
  rewrite Forall_forall in IH, Hnested.
  match goal with
  | H : ?n ∈ interfaces |- _ =>
      apply (keepsOrFails_weaken _ (λ e, typesDeclared e n)); [|by apply IH];
      intros e ->; by apply Hnested
  end.
Qed.

Lemma keepsElaboration_setContainerType (l : loc) (v : bool) :
  keepsElaboration (setContainerType (Env := Env) l v).
Proof. done. Qed.

Lemma keepsOrFails_VisitInterfaceDeclaration d :
  keepsOrFails (Env := Env) (λ e, typesDeclared e d) (VisitInterfaceDeclaration d).
Proof.
  induction d as [d IH] using InterfaceDeclaration_tree_ind.
  destruct d as [ptr access kind identifier doc startPos endPos fields functions
                   specials interfaces composites].
  cbn [VisitInterfaceDeclaration Members_Interfaces Members_Composites decl_ptr
         decl_EndPosition Members_Fields Members_Functions Members_SpecialFunctions
         decl_Access decl_StartPos decl_DocString] in *.
  set (d := Build_InterfaceDeclaration _ _ _ _ _ _ _ _ _ _ _ _) in *.
  lazy zeta.
  apply keepsOrFails_get. intros c0 Hd.
  apply typesDeclared_unfold in Hd as [Hd Hnested].
  cbn [Members_Interfaces d] in Hnested.
  destruct (InterfaceDeclarationTypes (Checker_Elaboration c0) !! ptr)
    as [interfaceType|] eqn:E; [|destruct Hd as [[? Hd] _]; simpl in Hd; congruence].
  repeat first
    [ apply (keepsOrFails_weaken _ (λ e, typeDeclared e d));
      [by intros e ->|apply keepsOrFails_declareInterfaceNestedTypes]
    | apply keepsOrFails_checkInterfaceConformance
    | apply keepsOrFails_run, keepsElaboration_checkInterfaceFunctions
    | apply keepsOrFails_run, keepsElaboration_setContainerType
    | keeps_step ].
  rewrite Forall_forall in IH, Hnested.
  match goal with
  | H : ?n ∈ interfaces |- _ =>
      apply (keepsOrFails_weaken _ (λ e, typesDeclared e n)); [|by apply IH];
      intros e ->; by apply Hnested
  end.
Qed.

End Unreachable.

(** C10. For a declaration whose composite kind does not support
    interfaces, [declareInterfaceType] reports the
    [InvalidInterfaceDeclarationError] and goes on: the new interface type
    is in both maps of the elaboration when the kind is checked, the error
    is added to the diagnostics of that checker, and the rest of the pass
    runs from there; it returns the new interface type, with the
    diagnostic kept, the two entries of the elaboration in place, the
    nested declarations recorded and the nested types linked to the
    interface type, which is their container type. *)
Theorem unsupported_kind_still_declared d c :
  DeclarePassFrame →
  CompositeKind_SupportsInterfaces (decl_CompositeKind d) = false →
  let interfaceType := fresh (dom (interfaceTypes c)) in
  let invalid :=
    InvalidInterfaceDeclarationError (decl_CompositeKind d)
      (NewRangeFromPositioned (decl_Identifier d)) in
  ∃ c_reg nestedDeclarations nestedInterfaceTypes nestedCompositeTypes c10 c',
    declareInterfaceType_register d c = Ok (interfaceType, c_reg)
    ∧ InterfaceDeclarationTypes (Checker_Elaboration c_reg) !! decl_ptr d
      = Some interfaceType
    ∧ InterfaceTypeDeclarations (Checker_Elaboration c_reg) !! interfaceType
      = Some (decl_ptr d)
    ∧ declareInterfaceType d c
      = declareInterfaceType_nested d interfaceType (report (Some invalid) c_reg)
    ∧ declareInterfaceType d c = Ok (interfaceType, c')
    ∧ errors c_reg ++ [invalid] `prefix_of` errors c'
    ∧ InterfaceDeclarationTypes (Checker_Elaboration c') !! decl_ptr d
      = Some interfaceType
    ∧ InterfaceTypeDeclarations (Checker_Elaboration c') !! interfaceType
      = Some (decl_ptr d)
    ∧ declareNestedDeclarations (decl_CompositeKind d)
        (InterfaceDeclaration_DeclarationKind d) (Members_Composites d)
        (Members_Interfaces d)
        (enterValueScope (typeActivations_Enter (report (Some invalid) c_reg)))
      = (nestedDeclarations, nestedInterfaceTypes, nestedCompositeTypes, c10)
    ∧ InterfaceNestedDeclarations (Checker_Elaboration c') !! decl_ptr d
      = Some nestedDeclarations
    ∧ nestedTypesLinked c' interfaceType nestedInterfaceTypes nestedCompositeTypes.
Proof.
  intros HF Hkind interfaceType invalid.
  destruct (declareInterfaceType_register_spec HF d c)
    as (c_reg & Hreg & Hidt & Hitd & Hobject).
  fold interfaceType in Hreg, Hidt, Hitd, Hobject.
  destruct (declareInterfaceType_nested_spec HF d interfaceType
              (report (Some invalid) c_reg) Hobject)
    as (nds & nits & ncts & c10 & c' & Hdnd & Hnested & Herr & Hidt' & Hitd'
        & Hnds & _ & Hlinked).
  assert (Hrun : declareInterfaceType d c
                 = declareInterfaceType_nested d interfaceType
                     (report (Some invalid) c_reg)).
  { unfold declareInterfaceType. unfold bind at 1. rewrite Hreg.
    rewrite Hkind. simpl negb. cbv iota. by unfold bind at 1. }
  exists c_reg, nds, nits, ncts, c10, c'.
  repeat split; try done.
  - by rewrite Hrun.
  - eapply lookup_weaken; [|exact Hidt']. done.
  - eapply lookup_weaken; [|exact Hitd']. done.
  - rewrite Hnds. by rewrite lookup_insert_eq.
Qed.


(** *** More on the conformance checker *)

Lemma bind_Ok {A B} (m : M Env A) (k : A → M Env B) c (r : B * Checker Env) :
  bind m k c = Ok r → ∃ a c1, m c = Ok (a, c1) ∧ k a c1 = Ok r.
Proof.
  unfold bind. destruct (m c) as [[a c1]|p]; [|done]. intros H. by exists a, c1.
Qed.

Lemma addsDiagnostics_ret {A} (a : A) : addsDiagnostics (Env := Env) 0 (ret a).
Proof. intros c. exists []. by rewrite with_errors_app_nil. Qed.

Lemma addsDiagnostics_panic {A} (p : PanicKind) (n : nat) :
  addsDiagnostics (Env := Env) n (panic (A := A) p).
Proof. by intros c. Qed.

Lemma addsDiagnostics_weaken {A} (n n' : nat) (m : M Env A) :
  n ≤ n' → addsDiagnostics n m → addsDiagnostics n' m.
Proof.
  intros Hn Hm c. specialize (Hm c). destruct (m c) as [[a c']|p]; [|done].
  destruct Hm as (l & Hl & ->). exists l. split; [lia|done].
Qed.

Lemma addsDiagnostics_bind {A B} (n k : nat) (m : M Env A) (f : A → M Env B) :
  addsDiagnostics n m → (∀ a, addsDiagnostics k (f a)) →
  addsDiagnostics (n + k) (bind m f).
Proof.
  intros Hm Hf c. unfold bind. specialize (Hm c).
  destruct (m c) as [[a c1]|p]; [|done]. destruct Hm as (l1 & Hl1 & ->).
  specialize (Hf a (with_errors (errors c ++ l1) c)).
  destruct (f a (with_errors (errors c ++ l1) c)) as [[b c2]|p]; [|done].
  destruct Hf as (l2 & Hl2 & ->). exists (l1 ++ l2). split.
  - rewrite length_app. lia.
  - simpl. unfold with_errors. simpl. by rewrite app_assoc.
Qed.

Lemma addsDiagnostics_foldM {A St} (k : nat) (l : list A) (body : A → St → M Env St)
    (s : St) :
  (∀ x s, addsDiagnostics k (body x s)) →
  addsDiagnostics (length l * k) (foldM l body s).
Proof.
  intros Hbody. revert s. induction l as [|x l IH]; intros s.
  - apply addsDiagnostics_ret.
  - cbn [foldM length]. replace (S (length l) * k) with (k + length l * k) by lia.
    apply addsDiagnostics_bind; [apply Hbody|]. intros s'. apply IH.
Qed.

Lemma addsDiagnostics_derefInterfaceType (l : loc) :
  addsDiagnostics (Env := Env) 0 (derefInterfaceType l).
Proof.
  intros c. unfold derefInterfaceType. destruct (interfaceTypes c !! l); [|done].
  exists []. by rewrite with_errors_app_nil.
Qed.

Lemma addsDiagnostics_GetCompositeKind (t : SemaType) :
  addsDiagnostics (Env := Env) 0 (GetCompositeKind t).
Proof.
  intros c. rewrite GetCompositeKind_compositeKindOf.
  destruct (compositeKindOf c t); [|done]. exists []. by rewrite with_errors_app_nil.
Qed.

Lemma addsDiagnostics_report (e : CheckerError) :
  addsDiagnostics (Env := Env) 1 (run (report (Some e))).
Proof. intros c. by exists [e]. Qed.

Lemma addsDiagnostics_checkDuplicateInterfaceMembers
    (interfaceType : loc) (x : Member) (conflictingInterfaceType : loc) (y : Member)
    (getRange : unit → Range) :
  addsDiagnostics 1
    (run (checkDuplicateInterfaceMembers interfaceType x conflictingInterfaceType y
            getRange)).
Proof.
  intros c. unfold run. rewrite checkDuplicateInterfaceMembers_cases. case_match.
  - by eexists [_].
  - exists []. split; [simpl; lia|]. by rewrite with_errors_app_nil.
Qed.

Lemma addsDiagnostics_reportTypeConflictError
    d (interfaceType conformance : loc) (typeName : string) (typ other : SemaType) :
  addsDiagnostics 1
    (reportTypeConflictError d interfaceType conformance typeName typ other).
Proof.
  unfold reportTypeConflictError. destruct (asCompositeKindedType other).
  - apply (addsDiagnostics_bind 0 1); [apply addsDiagnostics_GetCompositeKind|].
    intros k. apply (addsDiagnostics_bind 0 1); [apply addsDiagnostics_GetCompositeKind|].
    intros k'. apply addsDiagnostics_report.
  - apply (addsDiagnostics_weaken 0); [lia|apply addsDiagnostics_ret].
Qed.

Lemma addsDiagnostics_member d (interfaceType conformance : loc)
    (entry : string * Member) (inheritedMembers : gmap string Member) :
  addsDiagnostics 2
    (checkInterfaceConformance_member d interfaceType conformance entry inheritedMembers).
Proof.
  unfold checkInterfaceConformance_member. destruct entry as [name m].
  apply (addsDiagnostics_bind 1 1).
  - destruct (inheritedMembers !! name) as [old|].
    + destruct (Member_ContainerType old);
        first [apply addsDiagnostics_checkDuplicateInterfaceMembers
              |apply addsDiagnostics_panic].
    + apply (addsDiagnostics_weaken 0); [lia|apply addsDiagnostics_ret].
  - intros _. apply (addsDiagnostics_bind 0 1); [apply addsDiagnostics_derefInterfaceType|].
    intros o. destruct (orderedmap.Get (Members o) name).
    + apply (addsDiagnostics_bind 1 0);
        [apply addsDiagnostics_checkDuplicateInterfaceMembers|].
      intros _. apply addsDiagnostics_ret.
    + apply (addsDiagnostics_weaken 0); [lia|apply addsDiagnostics_ret].
Qed.

Lemma addsDiagnostics_nestedType d (interfaceType conformance : loc)
    (entry : string * SemaType) (inheritedNestedTypes : gmap string SemaType) :
  addsDiagnostics 2
    (checkInterfaceConformance_nestedType d interfaceType conformance entry
       inheritedNestedTypes).
Proof.
  unfold checkInterfaceConformance_nestedType. destruct entry as [name t].
  destruct (asCompositeKindedType t) as [compositeType|];
    [|apply (addsDiagnostics_weaken 0); [lia|apply addsDiagnostics_ret]].
  lazy zeta.
  assert (Hrest : addsDiagnostics (Env := Env) 1
    (let* interfaceTypeObject := derefInterfaceType interfaceType in
     match orderedmap.Get (NestedTypes interfaceTypeObject) name with
     | Some nestedType =>
         let* _ := reportTypeConflictError d interfaceType conformance name
                     compositeType nestedType in
         ret (<[name := t]> inheritedNestedTypes)
     | None => ret (<[name := t]> inheritedNestedTypes)
     end)).
  { apply (addsDiagnostics_bind 0 1); [apply addsDiagnostics_derefInterfaceType|].
    intros o. destruct (orderedmap.Get (NestedTypes o) name).
    - apply (addsDiagnostics_bind 1 0); [apply addsDiagnostics_reportTypeConflictError|].
      intros _. apply addsDiagnostics_ret.
    - apply (addsDiagnostics_weaken 0); [lia|apply addsDiagnostics_ret]. }
  destruct (inheritedNestedTypes !! name) as [inheritedType|].
  - destruct (asCompositeKindedType inheritedType).
    + apply (addsDiagnostics_bind 1 1); [apply addsDiagnostics_reportTypeConflictError|].
      intros _. exact Hrest.
    + apply (addsDiagnostics_weaken 0); [lia|apply addsDiagnostics_ret].
  - apply (addsDiagnostics_weaken 1); [lia|exact Hrest].
Qed.

(** X5. When [checkInterfaceConformance] returns, it has changed nothing
    but the diagnostics of the checker that the check of the kinds left:
    it has added at most two diagnostics for each member and each nested
    type of the conformance, after the ones that were there. *)
Theorem conformance_only_adds_diagnostics
    d (interfaceType conformance : loc)
    (inherited : gmap string Member * gmap string SemaType) c (object : InterfaceType) :
  interfaceTypes (checkConformanceKindMatch d interfaceType conformance c) !! conformance
  = Some object →
  match checkInterfaceConformance d interfaceType conformance inherited c with
  | Ok (_, c') =>
      ∃ added,
        length added ≤ 2 * (length (Members object) + length (NestedTypes object))
        ∧ c' = with_errors
                 (errors (checkConformanceKindMatch d interfaceType conformance c) ++ added)
                 (checkConformanceKindMatch d interfaceType conformance c)
  | Panic _ => True
  end.
Proof.
  intros Hobject. set (ck := checkConformanceKindMatch d interfaceType conformance c) in *.
  unfold checkInterfaceConformance. destruct inherited as [inheritedMembers inheritedTypes].
  unfold bind at 1. unfold run at 1. fold ck.
  unfold bind at 1. unfold derefInterfaceType at 1. rewrite Hobject.
  unfold bind at 1.
  pose proof (addsDiagnostics_foldM 2 (Members object)
                (checkInterfaceConformance_member d interfaceType conformance)
                inheritedMembers (addsDiagnostics_member d interfaceType conformance) ck)
    as H1.
  destruct (foldM (Members object) _ inheritedMembers ck) as [[inh1 c1]|p]; [|done].
  destruct H1 as (l1 & Hl1 & ->).
  unfold bind at 1. unfold derefInterfaceType at 1. simpl interfaceTypes. rewrite Hobject.
  unfold bind at 1.
  pose proof (addsDiagnostics_foldM 2 (NestedTypes object)
                (checkInterfaceConformance_nestedType d interfaceType conformance)
                inheritedTypes (addsDiagnostics_nestedType d interfaceType conformance)
                (with_errors (errors ck ++ l1) ck))
    as H2.
  destruct (foldM (NestedTypes object) _ inheritedTypes (with_errors (errors ck ++ l1) ck))
    as [[inh2 c2]|p]; [|done].
  destruct H2 as (l2 & Hl2 & ->). simpl.
  exists (l1 ++ l2). split.
  - rewrite length_app. lia.
  - unfold with_errors. simpl. by rewrite app_assoc.
Qed.

Lemma checkInterfaceConformance_member_Ok
    d (interfaceType conformance : loc) (name : string) (m : Member)
    (inheritedMembers : gmap string Member) c (object : InterfaceType) :
  interfaceTypes c !! interfaceType = Some object →
  (∀ earlier, inheritedMembers !! name = Some earlier →
              isInterfaceType (Member_ContainerType earlier) = true) →
  ∃ added,
    length added ≤ 2
    ∧ checkInterfaceConformance_member d interfaceType conformance (name, m)
        inheritedMembers c
      = Ok (<[name := m]> inheritedMembers, with_errors (errors c ++ added) c).
Proof.
  intros Hobject Hearlier.
  assert (∃ c2, checkInterfaceConformance_member d interfaceType conformance (name, m)
                  inheritedMembers c = Ok (<[name := m]> inheritedMembers, c2))
    as [c2 Hrun].
  { unfold checkInterfaceConformance_member.
    match goal with
    | |- ∃ c2, bind ?first _ c = _ =>
        assert (∃ c1, first c = Ok (tt, c1)
                      ∧ interfaceTypes c1 !! interfaceType = Some object)
          as (c1 & Hfirst & Hc1)
    end.
    { destruct (inheritedMembers !! name) as [earlier|]; [|by exists c].
      specialize (Hearlier earlier eq_refl).
      destruct (Member_ContainerType earlier); try done.
      eexists. split; [done|]. by rewrite checkDuplicateInterfaceMembers_interfaceTypes. }
    unfold bind at 1. rewrite Hfirst.
    unfold bind at 1. unfold derefInterfaceType. rewrite Hc1.
    destruct (orderedmap.Get (Members object) name); by eexists. }
  pose proof (addsDiagnostics_member d interfaceType conformance (name, m)
                inheritedMembers c) as Hadd.
  rewrite Hrun in Hadd. destruct Hadd as (added & Hlen & ->).
  by exists added.
Qed.

(** X6. The loop over the members of a conformance returns, with every
    member of the conformance in [inheritedMembers] under its name (the
    last one, when a name comes twice) and the other entries as they were;
    the checker has at most two more diagnostics for each member and is
    otherwise the same. The loop needs that the container types of the
    members, the inherited ones and those of the conformance, are interface
    types. *)
Theorem conformance_members_merged
    d (interfaceType conformance : loc) (members : StringMemberOrderedMap)
    (inheritedMembers : gmap string Member) c (object : InterfaceType) :
  interfaceTypes c !! interfaceType = Some object →
  (∀ name earlier, inheritedMembers !! name = Some earlier →
                   isInterfaceType (Member_ContainerType earlier) = true) →
  (∀ name m, (name, m) ∈ members → isInterfaceType (Member_ContainerType m) = true) →
  ∃ added,
    length added ≤ 2 * length members
    ∧ foldM members (checkInterfaceConformance_member d interfaceType conformance)
        inheritedMembers c
      = Ok (list_to_map (reverse members) ∪ inheritedMembers,
            with_errors (errors c ++ added) c)
    ∧ (∀ name, name ∉ members.*1 →
               (list_to_map (reverse members) ∪ inheritedMembers) !! name
               = inheritedMembers !! name)
    ∧ (NoDup members.*1 →
       ∀ name m, (name, m) ∈ members →
                 (list_to_map (reverse members) ∪ inheritedMembers) !! name = Some m).
Proof.
  intros Hobject Hinherited Hmembers.
  assert (Hrun : ∃ added,
    length added ≤ 2 * length members
    ∧ foldM members (checkInterfaceConformance_member d interfaceType conformance)
        inheritedMembers c
      = Ok (list_to_map (reverse members) ∪ inheritedMembers,
            with_errors (errors c ++ added) c)).
  { revert inheritedMembers c Hobject Hinherited.
    induction members as [|[name m] members IH]; intros inheritedMembers c Hobject Hinherited.
    - exists []. split; [done|]. simpl.
      rewrite with_errors_app_nil. by rewrite (left_id_L ∅ (∪)).
    - destruct (checkInterfaceConformance_member_Ok d interfaceType conformance name m
                  inheritedMembers c object Hobject (Hinherited name))
        as (a1 & Hl1 & Hstep).
      destruct (IH (λ n' m' H, Hmembers n' m' (list_elem_of_further _ _ _ H))
                  (<[name := m]> inheritedMembers)
                  (with_errors (errors c ++ a1) c)) as (a2 & Hl2 & Hloop).
      { done. }
      { intros n' earlier. destruct (decide (name = n')) as [<-|Hne].
        - rewrite lookup_insert_eq. intros [= <-]. apply (Hmembers name m). by left.
        - rewrite lookup_insert_ne by done. apply Hinherited. }
      exists (a1 ++ a2). split; [rewrite length_app; simpl; lia|].
      cbn [foldM]. unfold bind at 1. rewrite Hstep, Hloop. f_equal. f_equal.
      + rewrite reverse_cons, list_to_map_app. simpl.
        rewrite <- (assoc_L (∪)). f_equal.
        rewrite insert_empty. by rewrite <- insert_union_singleton_l.
      + unfold with_errors. simpl. by rewrite app_assoc. }
  destruct Hrun as (added & Hlen & Hrun).
  exists added. split; [done|]. split; [done|]. split.
  - intros name Hname. rewrite lookup_union_r; [done|].
    apply not_elem_of_list_to_map. rewrite fmap_reverse. by rewrite elem_of_reverse.
  - intros Hnodup name m Hin. apply lookup_union_Some_l.
    apply elem_of_list_to_map_1.
    + rewrite fmap_reverse. by rewrite reverse_Permutation.
    + by apply elem_of_reverse.
Qed.

Lemma checkInterfaceConformance_nestedType_cases
    d (interfaceType conformance : loc) (name : string) (t : SemaType)
    (inheritedNestedTypes inherited' : gmap string SemaType) c c' :
  checkInterfaceConformance_nestedType d interfaceType conformance (name, t)
    inheritedNestedTypes c = Ok (inherited', c') →
  inherited' = inheritedNestedTypes
  ∨ (inherited' = <[name := t]> inheritedNestedTypes
     ∧ is_Some (asCompositeKindedType t)).
Proof.
  unfold checkInterfaceConformance_nestedType.
  destruct (asCompositeKindedType t) as [compositeType|] eqn:Ekinded;
    [|intros [= <- <-]; by left].
  lazy zeta. intros H.
  assert (Hrest : ∀ c0,
    (let* interfaceTypeObject := derefInterfaceType interfaceType in
     match orderedmap.Get (NestedTypes interfaceTypeObject) name with
     | Some nestedType =>
         let* _ := reportTypeConflictError d interfaceType conformance name
                     compositeType nestedType in
         ret (<[name := t]> inheritedNestedTypes)
     | None => ret (<[name := t]> inheritedNestedTypes)
     end) c0 = Ok (inherited', c') →
    inherited' = <[name := t]> inheritedNestedTypes).
  { intros c0 H0. apply bind_Ok in H0 as (o & c1 & _ & H0).
    destruct (orderedmap.Get (NestedTypes o) name).
    - apply bind_Ok in H0 as (? & c2 & _ & H0). by injection H0 as <- <-.
    - by injection H0 as <- <-. }
  destruct (inheritedNestedTypes !! name) as [inheritedType|].
  - destruct (asCompositeKindedType inheritedType).
    + apply bind_Ok in H as (? & c1 & _ & H). right. split; [by eapply Hrest|by eexists].
    + injection H as <- <-. by left.
  - right. split; [by eapply Hrest|by eexists].
Qed.

(** X7. [inheritedNestedTypes] only ever holds composite-kinded types:
    when every type in it is composite-kinded before a conformance is
    checked, so is every type in it afterwards, and each is a type that was
    there or a nested type of a conformance; this holds for all the
    conformances of an interface, checked one after the other from the
    empty maps. *)
Theorem inherited_nested_types_composite_kinded
    d (interfaceType : loc) (conformances : list loc)
    (inherited inherited' : gmap string Member * gmap string SemaType) c c' :
  map_Forall (λ _ t, is_Some (asCompositeKindedType t)) inherited.2 →
  foldM conformances
    (λ conformance inherited,
       checkInterfaceConformance d interfaceType conformance inherited)
    inherited c
  = Ok (inherited', c') →
  map_Forall (λ _ t, is_Some (asCompositeKindedType t)) inherited'.2.
Proof.
  revert inherited c. induction conformances as [|conformance conformances IH];
    intros inherited c Hinv Hrun.
  - by injection Hrun as <- <-.
  - cbn [foldM] in Hrun. apply bind_Ok in Hrun as (inherited1 & c1 & Hstep & Hrun).
    apply (IH inherited1 c1); [|done]. clear IH Hrun.
    unfold checkInterfaceConformance in Hstep.
    destruct inherited as [inheritedMembers inheritedTypes].
    apply bind_Ok in Hstep as (? & c2 & _ & Hstep).
    apply bind_Ok in Hstep as (o & c3 & _ & Hstep).
    apply bind_Ok in Hstep as (members' & c4 & _ & Hstep).
    apply bind_Ok in Hstep as (o' & c5 & _ & Hstep).
    apply bind_Ok in Hstep as (types' & c6 & Hloop & Hstep).
    injection Hstep as <- <-. simpl in *.
    clear -Hinv Hloop. revert inheritedTypes c5 Hinv Hloop.
    induction (NestedTypes o') as [|[name t] nested IH]; intros inheritedTypes c5 Hinv Hloop.
    + by injection Hloop as <- <-.
    + cbn [foldM] in Hloop. apply bind_Ok in Hloop as (types1 & c7 & Hstep & Hloop).
      apply (IH types1 c7); [|done].
      apply checkInterfaceConformance_nestedType_cases in Hstep as [->|[-> Hkinded]];
        [done|].
      by apply map_Forall_insert_2.
Qed.

(** X8. When the passes that [checkInterfaceFunctions] calls leave the
    diagnostics as they are, the diagnostics it adds are one
    [InvalidImplementationError] for each function whose body is empty and
    without conditions, in the order of the functions, and nothing else. *)
Theorem interface_functions_diagnostics
    (functions : list FunctionDeclaration) (selfType : SemaType)
    (declarationKind : DeclarationKind) (selfDocString : string) c :
  keepsErrors enterValueScope →
  (∀ t doc, keepsErrors (declareSelfValue t doc)) →
  (∀ f options, keepsErrors (visitFunctionDeclaration f options)) →
  (∀ p b, keepsErrors (leaveValueScope p b)) →
  errors (checkInterfaceFunctions functions selfType declarationKind selfDocString c)
  = errors c ++ flat_map (functionDiagnostics declarationKind) functions.
Proof.
  intros Henter Hself Hvisit Hleave. unfold checkInterfaceFunctions.
  revert c. induction functions as [|f functions IH]; intros c.
  - simpl. by rewrite app_nil_r.
  - cbn [foldl flat_map]. rewrite IH, app_assoc. f_equal.
    unfold checkInterfaceFunctions_function, functionDiagnostics.
    destruct (FunctionDeclaration_FunctionBlock f) as [block|].
    + destruct (HasStatements block), (PreConditions_IsEmpty block),
        (PostConditions_IsEmpty block); simpl;
        rewrite Hleave, Hvisit; simpl; rewrite ?Hself, ?Henter, ?app_nil_r; done.
    + rewrite Hleave, Hvisit, Hself, Henter. by rewrite app_nil_r.
Qed.

Lemma declareInterfaceNestedTypes_loop
    (nestedDeclarations : gmap string Declaration) (nestedTypes : StringTypeOrderedMap) c :
  match
    forM_ nestedTypes (λ '(name, nestedType),
      match nestedDeclarations !! name with
      | None => panic RuntimeError
      | Some nestedDeclaration =>
          match DeclarationIdentifier nestedDeclaration with
          | None => panic UnreachableError
          | Some identifier =>
              let* (_, err) :=
                call (typeActivations_declareType
                        {| typeDeclaration_identifier := identifier;
                           typeDeclaration_ty := nestedType;
                           typeDeclaration_declarationKind :=
                             Declaration_DeclarationKind nestedDeclaration;
                           typeDeclaration_access := DeclarationAccess nestedDeclaration;
                           typeDeclaration_docString :=
                             DeclarationDocString nestedDeclaration;
                           allowOuterScopeShadowing := false |}) in
              run (report err)
          end
      end) c
  with
  | Ok _ => firstUndeclarable nestedDeclarations nestedTypes = None
  | Panic p => firstUndeclarable nestedDeclarations nestedTypes = Some p
  end.
Proof.
  revert c. induction nestedTypes as [|[name t] nestedTypes IH]; intros c.
  - done.
  - cbn [firstUndeclarable]. rewrite forM__cons. unfold bind at 1.
    destruct (nestedDeclarations !! name) as [nestedDeclaration|]; [|done].
    destruct (DeclarationIdentifier nestedDeclaration) as [identifier|]; [|done].
    unfold bind at 1. unfold call at 1.
    destruct (typeActivations_declareType _ c) as [[variable err] c1].
    unfold run at 1. apply IH.
Qed.

(** X9. [declareInterfaceNestedTypes] has no guard of its own: without
    an interface type for the declaration in the elaboration, or without
    the object, it ends in a panic of the Go runtime, not in
    [UnreachableError]. Otherwise it goes through the nested types of the
    interface type in their order and stops at the first one that has no
    nested declaration (a panic of the runtime) or whose nested declaration
    has no identifier ([UnreachableError]); it returns when there is none,
    and so for an interface type without nested types. *)
Theorem nested_types_declared_or_panic d c :
  match InterfaceDeclarationTypes (Checker_Elaboration c) !! decl_ptr d with
  | None => declareInterfaceNestedTypes d c = Panic RuntimeError
  | Some interfaceType =>
      match interfaceTypes c !! interfaceType with
      | None => declareInterfaceNestedTypes d c = Panic RuntimeError
      | Some object =>
          match firstUndeclarable
                  (default ∅ (InterfaceNestedDeclarations (Checker_Elaboration c)
                                !! decl_ptr d))
                  (NestedTypes object) with
          | Some p => declareInterfaceNestedTypes d c = Panic p
          | None => ∃ c', declareInterfaceNestedTypes d c = Ok (tt, c')
          end
      end
  end.
Proof.
  assert (Hunfold :
    declareInterfaceNestedTypes d c
    = (let* interfaceTypeObject :=
         match InterfaceDeclarationTypes (Checker_Elaboration c) !! decl_ptr d with
         | Some interfaceType => derefInterfaceType interfaceType
         | None => panic RuntimeError
         end in
       forM_ (NestedTypes interfaceTypeObject) (λ '(name, nestedType),
         match default ∅ (InterfaceNestedDeclarations (Checker_Elaboration c)
                            !! decl_ptr d) !! name with
         | None => panic RuntimeError
         | Some nestedDeclaration =>
             match DeclarationIdentifier nestedDeclaration with
             | None => panic UnreachableError
             | Some identifier =>
                 let* (_, err) :=
                   call (typeActivations_declareType
                           {| typeDeclaration_identifier := identifier;
                              typeDeclaration_ty := nestedType;
                              typeDeclaration_declarationKind :=
                                Declaration_DeclarationKind nestedDeclaration;
                              typeDeclaration_access := DeclarationAccess nestedDeclaration;
                              typeDeclaration_docString :=
                                DeclarationDocString nestedDeclaration;
                              allowOuterScopeShadowing := false |}) in
                 run (report err)
             end
         end)) c) by reflexivity.
  rewrite Hunfold. clear Hunfold.
  destruct (InterfaceDeclarationTypes (Checker_Elaboration c) !! decl_ptr d)
    as [interfaceType|]; [|reflexivity].
  unfold bind, derefInterfaceType.
  destruct (interfaceTypes c !! interfaceType) as [object|]; [|reflexivity].
  match goal with
  | |- context [forM_ ?l ?body c] =>
      pose proof (declareInterfaceNestedTypes_loop
                    (default ∅ (InterfaceNestedDeclarations (Checker_Elaboration c)
                                  !! decl_ptr d))
                    (NestedTypes object) c) as H;
      unfold bind in H;
      destruct (forM_ l body c) as [[[] c']|p]
  end.
  - rewrite H. by exists c'.
  - by rewrite H.
Qed.

(** X10. When [VisitInterfaceDeclaration] returns, the interface type of
    the declaration is no longer marked in [containerTypes]: the mark set
    at the start is false at the end. *)
Theorem visit_unmarks_container_type d c c' (interfaceType : loc) :
  InterfaceDeclarationTypes (Checker_Elaboration c) !! decl_ptr d = Some interfaceType →
  VisitInterfaceDeclaration d c = Ok (tt, c') →
  containerTypes c' !! InterfaceTypeRef interfaceType = Some false.
Proof.
  intros Htype Hrun. destruct d.
  cbn [VisitInterfaceDeclaration] in Hrun. lazy zeta in Hrun.
  unfold bind at 1 in Hrun. unfold get at 1 in Hrun.
  cbn [decl_ptr] in Htype, Hrun. rewrite Htype in Hrun.
  repeat (apply bind_Ok in Hrun as (? & ? & _ & Hrun)).
  injection Hrun as <-. unfold setContainerType. simpl. by rewrite lookup_insert_eq.
Qed.

(** X11. Whether the duplicate-member rule reports does not depend on
    which of the two members is checked against the other, when the test
    of the signatures gives the same verdict both ways. *)
Theorem duplicate_member_rule_symmetric
    (interfaceType : loc) (x : Member) (conflictingInterfaceType : loc) (y : Member)
    (getRange getRange' : unit → Range) c :
  memberSatisfied interfaceType x y c = memberSatisfied conflictingInterfaceType y x c →
  (checkDuplicateInterfaceMembers interfaceType x conflictingInterfaceType y getRange c = c
   ↔ checkDuplicateInterfaceMembers conflictingInterfaceType y interfaceType x getRange' c
     = c).
Proof.
  intros Hsym. rewrite !checkDuplicateInterfaceMembers_cases, Hsym.
  replace (HasImplementation y || HasConditions y || HasImplementation x || HasConditions x)
    with (HasImplementation x || HasConditions x || HasImplementation y || HasConditions y)
    by (by destruct (HasImplementation x), (HasConditions x),
             (HasImplementation y), (HasConditions y)).
  case_match; [|done].
  split; intros Hsame; by apply with_errors_app_ne in Hsame.
Qed.

(** *** More on the declaration of an interface type *)

Section DeclaredObjects.

Context (HF : DeclarePassFrame).

Lemma keepsObjects_ret {A} (a : A) : keepsObjects (Env := Env) (ret a).
Proof. by intros c l. Qed.

Lemma keepsObjects_bind {A B} (m : M Env A) (k : A → M Env B) :
  keepsObjects m → (∀ a, keepsObjects (k a)) → keepsObjects (bind m k).
Proof.
  intros Hm Hk c. unfold bind. specialize (Hm c).
  destruct (m c) as [[a c1]|p]; [|done]. specialize (Hk a c1).
  destruct (k a c1) as [[b c2]|p]; [|done]. intros l Hl. by apply Hk, Hm.
Qed.

Lemma keepsObjects_run (f : Checker Env → Checker Env) :
  keepsInterfaceTypes (λ c, (tt, f c)) → keepsObjects (run f).
Proof. intros Hf c l. apply (Hf c l). Qed.

Lemma keepsObjects_run_same (f : Checker Env → Checker Env) :
  (∀ c, interfaceTypes (f c) = interfaceTypes c) → keepsObjects (run f).
Proof. intros Hf c l. unfold run. simpl. by rewrite Hf. Qed.

Lemma keepsObjects_call {A} (f : Checker Env → A * Checker Env) :
  keepsInterfaceTypes f → keepsObjects (call f).
Proof. intros Hf c. unfold call. specialize (Hf c). by destruct (f c). Qed.

Lemma keepsObjects_forM_ {A} (l : list A) (body : A → M Env unit) :
  (∀ x, keepsObjects (body x)) → keepsObjects (forM_ l body).
Proof.
  intros Hbody. induction l as [|x l IH].
  - apply keepsObjects_ret.
  - rewrite forM__cons. apply keepsObjects_bind; [apply Hbody|]. intros _. apply IH.
Qed.

Lemma keepsObjects_derefInterfaceType (l : loc) :
  keepsObjects (Env := Env) (derefInterfaceType l).
Proof. intros c. unfold derefInterfaceType. by destruct (interfaceTypes c !! l). Qed.

Lemma keepsObjects_derefCompositeType (l : loc) :
  keepsObjects (Env := Env) (derefCompositeType l).
Proof. intros c. unfold derefCompositeType. by destruct (compositeTypes c !! l). Qed.

Lemma keepsObjects_updateInterfaceType (l : loc) (f : InterfaceType → InterfaceType) :
  keepsObjects (Env := Env) (updateInterfaceType l f).
Proof.
  apply keepsObjects_bind; [apply keepsObjects_derefInterfaceType|].
  intros o c l' Hl'. simpl. apply lookup_insert_is_Some'. by right.
Qed.

Lemma keepsObjects_updateCompositeType (l : loc) (f : CompositeType → CompositeType) :
  keepsObjects (Env := Env) (updateCompositeType l f).
Proof.
  apply keepsObjects_bind; [apply keepsObjects_derefCompositeType|].
  intros o. by apply keepsObjects_run_same.
Qed.

Lemma keepsObjects_newInterfaceType (object : InterfaceType) :
  keepsObjects (Env := Env) (newInterfaceType object).
Proof. intros c l Hl. simpl. apply lookup_insert_is_Some'. by right. Qed.

Lemma keepsObjects_report (err : option CheckerError) :
  keepsObjects (Env := Env) (run (report err)).
Proof. apply keepsObjects_run_same. intros c. by destruct err. Qed.

Lemma keepsObjects_declareInterfaceType d : keepsObjects (declareInterfaceType d).
Proof.
  unfold declareInterfaceType, declareInterfaceType_register,
    declareInterfaceType_nested, linkNestedInterfaceTypes, linkNestedCompositeTypes.
  repeat first
    [ apply keepsObjects_ret
    | apply keepsObjects_report
    | apply keepsObjects_newInterfaceType
    | apply keepsObjects_updateInterfaceType
    | apply keepsObjects_updateCompositeType
    | apply keepsObjects_derefInterfaceType
    | apply keepsObjects_derefCompositeType
    | apply keepsObjects_forM_; intros ?
    | apply keepsObjects_bind; [|intros ?]
    | apply keepsObjects_call, (frame_declareType HF)
    | apply keepsObjects_call, (frame_explicitInterfaceConformances HF)
    | apply keepsObjects_run, (frame_recordVariableDeclarationOccurrence HF)
    | apply keepsObjects_run_same, (frame_typeActivations_Enter HF)
    | apply keepsObjects_run_same, (frame_enterValueScope HF)
    | apply keepsObjects_run_same, (frame_leaveValueScope HF)
    | apply keepsObjects_run_same, (frame_typeActivations_Leave HF)
    | by apply keepsObjects_run_same
    | match goal with
      | |- keepsObjects (call (declareNestedDeclarations ?k ?dk ?cs ?is_)) =>
          apply keepsObjects_call; intros c0 l0;
          pose proof (frame_declareNestedDeclarations HF k dk cs is_ c0) as Hframe;
          destruct (declareNestedDeclarations k dk cs is_ c0) as [[[? ?] ?] ?];
          apply Hframe
      | |- keepsObjects (let (_, _) := ?x in _) => destruct x
      | |- keepsObjects (match ?x with _ => _ end) => destruct x
      | |- keepsObjects (if ?x then _ else _) => destruct x
      | |- keepsObjects get => by intros ? ?
      end ].
Qed.

(** X12. Under what is asked of the passes it calls, [declareInterfaceType]
    returns, and the interface type it returns is new: no interface type
    was at its address before, one is there afterwards, and every interface
    type that was there before is still there, at another address. *)
Theorem declared_interface_type_is_new d c :
  ∃ c',
    declareInterfaceType d c = Ok (fresh (dom (interfaceTypes c)), c')
    ∧ interfaceTypes c !! fresh (dom (interfaceTypes c)) = None
    ∧ is_Some (interfaceTypes c' !! fresh (dom (interfaceTypes c)))
    ∧ ∀ l, is_Some (interfaceTypes c !! l) →
           is_Some (interfaceTypes c' !! l) ∧ l ≠ fresh (dom (interfaceTypes c)).
Proof.
  assert (Hfresh : interfaceTypes c !! fresh (dom (interfaceTypes c)) = None).
  { apply not_elem_of_dom. apply is_fresh. }
  destruct (declareInterfaceType_register_spec HF d c)
    as (c_reg & Hreg & _ & _ & Hobject).
  set (c_chk :=
         if negb (CompositeKind_SupportsInterfaces (decl_CompositeKind d))
         then report (Some (InvalidInterfaceDeclarationError (decl_CompositeKind d)
                              (NewRangeFromPositioned (decl_Identifier d)))) c_reg
         else c_reg).
  assert (Hobject' : is_Some (interfaceTypes c_chk !! fresh (dom (interfaceTypes c)))).
  { unfold c_chk. by case_match. }
  destruct (declareInterfaceType_nested_spec HF d _ c_chk Hobject')
    as (nds & nits & ncts & c10 & c' & _ & Hnested & _ & _ & _ & _ & _ & Hlinked).
  assert (Hrun : declareInterfaceType d c = Ok (fresh (dom (interfaceTypes c)), c')).
  { unfold declareInterfaceType. unfold bind at 1. rewrite Hreg.
    unfold bind at 1. fold c_chk in Hnested |- *.
    by destruct (negb (CompositeKind_SupportsInterfaces (decl_CompositeKind d))). }
  exists c'. split; [done|]. split; [done|]. split.
  - destruct Hlinked as (object & Hobj & _). by exists object.
  - intros l Hl. split.
    + pose proof (keepsObjects_declareInterfaceType d c) as Hkeeps.
      rewrite Hrun in Hkeeps. by apply Hkeeps.
    + intros ->. rewrite Hfresh in Hl. by destruct Hl.
Qed.

End DeclaredObjects.

End CheckerProperties.

(** ** The migration to capability controllers *)

Section RuntimeProperties.

Import runtime.

Context {Storage StorageMap MapIterator StaticType OtherValue : Type}.
Context `{!MigrationEnvironment Storage StorageMap MapIterator StaticType OtherValue}.

Local Abbreviation Migration := (CapConsMigration Storage).

Lemma Outcome_bind_Returned {A B} (o : Outcome A) (k : A → Outcome B) b :
  o ≫= k = Returned b → ∃ a, o = Returned a ∧ k a = Returned b.
Proof. destruct o as [a| |]; [|done..]. intros Hk. by exists a. Qed.

Lemma orPanic_Returned {A} (o : option A) a : orPanic o = Returned a → o = Some a.
Proof. destruct o; [|done]. by intros [= ->]. Qed.

Lemma nextAddresses_exhausted (addresses : list Address) (z : Z) (k : nat) :
  (Z.of_nat (length addresses) ≤ z)%Z →
  nextAddresses k {| Addresses := addresses; index := z |}
  = Some (replicate k ZeroAddress, {| Addresses := addresses; index := z |}).
Proof.
  intros Hz. induction k as [|k IH]; [done|].
  cbn [nextAddresses NextAddress AddressSliceIterator_AddressIterator].
  unfold AddressSliceIterator_NextAddress. cbn [index Addresses].
  rewrite bool_decide_eq_true_2 by lia. rewrite IH. done.
Qed.

Lemma NextAddress_in_range (addresses : list Address) (i : nat) address :
  addresses !! i = Some address →
  NextAddress {| Addresses := addresses; index := Z.of_nat i |}
  = Some (address, {| Addresses := addresses; index := Z.of_nat (S i) |}).
Proof.
  intros Hi. pose proof (lookup_lt_Some _ _ _ Hi) as Hlt.
  cbn [NextAddress AddressSliceIterator_AddressIterator].
  unfold AddressSliceIterator_NextAddress. cbn [index Addresses].
  rewrite bool_decide_eq_false_2 by lia. rewrite bool_decide_eq_false_2 by lia.
  rewrite Nat2Z.id, Hi. do 3 f_equal. lia.
Qed.

Lemma NextAddress_at_end (addresses : list Address) :
  NextAddress {| Addresses := addresses; index := Z.of_nat (length addresses) |}
  = Some (ZeroAddress, {| Addresses := addresses; index := Z.of_nat (length addresses) |}).
Proof.
  cbn [NextAddress AddressSliceIterator_AddressIterator].
  unfold AddressSliceIterator_NextAddress. cbn [index Addresses].
  by rewrite bool_decide_eq_true_2 by lia.
Qed.

(** X13.  The [k] calls of [NextAddress] that follow index [i] return the
    addresses at [i], [i+1], ... and the zero address from the end of the
    slice on; none panics, and the index stops at the length of the slice.
    At a negative index, a call panics. *)
Theorem slice_iterator_sequence (addresses : list Address) (i k : nat) :
  nextAddresses k {| Addresses := addresses; index := Z.of_nat i |}
  = Some (map (λ j, default ZeroAddress (addresses !! j)) (seq i k),
          {| Addresses := addresses;
             index := Z.of_nat (i `max` ((i + k) `min` length addresses)) |})
  ∧ (∀ z, (z < 0)%Z → NextAddress {| Addresses := addresses; index := z |} = None).
Proof.
  split.
  - revert i. induction k as [|k IH]; intros i.
    + cbn. do 3 f_equal. lia.
    + destruct (addresses !! i) as [address|] eqn:Hi.
      * pose proof (lookup_lt_Some _ _ _ Hi) as Hlt.
        cbn [nextAddresses]. rewrite (NextAddress_in_range _ _ _ Hi), IH.
        cbn [seq map]. rewrite Hi. cbn [default]. do 4 f_equal. lia.
      * pose proof (lookup_ge_None_1 _ _ Hi) as Hge.
        rewrite nextAddresses_exhausted by lia.
        f_equal. f_equal; [|do 2 f_equal; lia].
        generalize (S k). intros n. clear IH.
        assert (Hall : ∀ j, i ≤ j → default ZeroAddress (addresses !! j) = ZeroAddress).
        { intros j Hj. by rewrite lookup_ge_None_2 by lia. }
        revert i Hi Hge Hall. induction n as [|n IHn]; intros i Hi Hge Hall; [done|].
        cbn [replicate seq map]. rewrite Hall by lia. f_equal.
        apply IHn; [by apply lookup_ge_None_2; lia|lia|].
        intros j Hj. apply Hall. lia.
  - intros z Hz. cbn [NextAddress AddressSliceIterator_AddressIterator].
    unfold AddressSliceIterator_NextAddress. cbn [index Addresses].
    rewrite bool_decide_eq_false_2 by lia. by rewrite bool_decide_eq_true_2 by lia.
Qed.

(** One loop over the addresses of a slice iterator: [body] for each
    address before the first zero address, from the index of the iterator
    on. *)
Lemma slice_loop {St : Type} (loop : nat → AddressSliceIterator → St
                                     → Outcome (AddressSliceIterator * St))
    (body : Address → St → Outcome St)
    (each : list Address → St → Outcome St) :
  (∀ s, each [] s = Returned s) →
  (∀ a l s, each (a :: l) s = body a s ≫= each l) →
  (∀ n it s,
     loop (S n) it s
     = '(address, it) ← orPanic (NextAddress it);
       if bool_decide (address = ZeroAddress) then mret (it, s)
       else s ← body address s; loop n it s) →
  ∀ n addresses i s,
    i ≤ length addresses → length addresses - i < n →
    loop n {| Addresses := addresses; index := Z.of_nat i |} s
    = s' ← each (untilZero (drop i addresses)) s;
      mret ({| Addresses := addresses;
               index := Z.of_nat ((i + length (untilZero (drop i addresses)) + 1)
                                    `min` length addresses) |}, s').
Proof.
  intros Hnil Hcons Hloop n addresses.
  induction n as [|n IH]; intros i s Hi Hn; [lia|].
  rewrite Hloop.
  destruct (addresses !! i) as [address|] eqn:Haddress.
  - pose proof (lookup_lt_Some _ _ _ Haddress) as Hlt.
    rewrite (NextAddress_in_range _ _ _ Haddress).
    rewrite (drop_S _ _ _ Haddress). cbn [orPanic mbind Outcome_bind untilZero].
    case_bool_decide as Hzero.
    + rewrite Hnil. cbn [mbind Outcome_bind mret Outcome_ret length]. do 3 f_equal. lia.
    + rewrite Hcons. destruct (body address s) as [s1| |]; [|done..].
      cbn [mbind Outcome_bind]. rewrite IH by lia.
      destruct (each _ s1) as [s2| |]; [|done..].
      cbn [mbind Outcome_bind mret Outcome_ret length]. do 3 f_equal. lia.
  - pose proof (lookup_ge_None_1 _ _ Haddress) as Hge.
    assert (i = length addresses) as -> by lia.
    rewrite NextAddress_at_end. rewrite drop_all. cbn [orPanic mbind Outcome_bind untilZero].
    rewrite bool_decide_eq_true_2 by done. rewrite Hnil.
    cbn [mbind Outcome_bind mret Outcome_ret length]. do 3 f_equal. lia.
Qed.

Lemma migrateLinks_loop_slice steps n addresses i reporter (m : Migration) :
  i ≤ length addresses → length addresses - i < n →
  migrateLinks_loop steps n {| Addresses := addresses; index := Z.of_nat i |} reporter m
  = m' ← forEachAddress (λ address, migrateLinksInAccount steps address reporter)
          (untilZero (drop i addresses)) m;
    mret ({| Addresses := addresses;
             index := Z.of_nat ((i + length (untilZero (drop i addresses)) + 1)
                                  `min` length addresses) |}, m').
Proof.
  apply (slice_loop (λ n it m, migrateLinks_loop steps n it reporter m)
           (λ address, migrateLinksInAccount steps address reporter)
           (forEachAddress (λ address, migrateLinksInAccount steps address reporter)));
    reflexivity.
Qed.

Lemma migratePathCapabilities_loop_slice steps n addresses i reporter (m : Migration) :
  i ≤ length addresses → length addresses - i < n →
  migratePathCapabilities_loop steps n {| Addresses := addresses; index := Z.of_nat i |}
    reporter m
  = m' ← forEachAddress (λ address, migratePathCapabilitiesInAccount steps address reporter)
          (untilZero (drop i addresses)) m;
    mret ({| Addresses := addresses;
             index := Z.of_nat ((i + length (untilZero (drop i addresses)) + 1)
                                  `min` length addresses) |}, m').
Proof.
  apply (slice_loop (λ n it m, migratePathCapabilities_loop steps n it reporter m)
           (λ address, migratePathCapabilitiesInAccount steps address reporter)
           (forEachAddress
              (λ address, migratePathCapabilitiesInAccount steps address reporter)));
    reflexivity.
Qed.

(** X14.  Over a slice iterator, [migrateLinks] and
    [migratePathCapabilities] handle the accounts from the index of the
    iterator up to the first zero address of the slice, in order, and no
    account after it; the iterator is left just after that zero address, or
    at the end of the slice. *)
Theorem migration_loops_stop_at_zero_address steps addresses i reporter (m : Migration) :
  i ≤ length addresses →
  length addresses - i < steps →
  let visited := untilZero (drop i addresses) in
  let addressIterator := {| Addresses := addresses; index := Z.of_nat i |} in
  let left :=
    {| Addresses := addresses;
       index := Z.of_nat ((i + length visited + 1) `min` length addresses) |} in
  migrateLinks steps addressIterator reporter m
  = (m' ← forEachAddress (λ address, migrateLinksInAccount steps address reporter)
            visited m;
     mret (left, m'))
  ∧ migratePathCapabilities steps addressIterator reporter m
    = (m' ← forEachAddress
              (λ address, migratePathCapabilitiesInAccount steps address reporter)
              visited m;
       mret (left, m'))
  ∧ Forall (λ address, address ≠ ZeroAddress) visited
  ∧ visited `prefix_of` drop i addresses.
Proof.
  intros Hi Hsteps visited addressIterator left.
  split; [by apply migrateLinks_loop_slice|].
  split; [by apply migratePathCapabilities_loop_slice|].
  subst visited. generalize (drop i addresses). intros l. split.
  - induction l as [|a l IH]; cbn; [done|]. case_bool_decide; [done|]. by constructor.
  - induction l as [|a l IH]; cbn; [done|]. case_bool_decide; [apply prefix_nil|].
    by apply prefix_cons.
Qed.

(** X15.  [Migrate] over a slice iterator: the links pass starts from the
    index the iterator has on entry, the path-capabilities pass from the
    start of the slice, each up to the first zero address; the mapping is
    empty when the links pass starts and nil when [Migrate] returns. *)
Theorem migrate_passes steps addresses i reporter (m : Migration) :
  i ≤ length addresses →
  length addresses < steps →
  Migrate steps {| Addresses := addresses; index := Z.of_nat i |} reporter m
  = (m1 ← forEachAddress (λ address, migrateLinksInAccount steps address reporter)
            (untilZero (drop i addresses)) (with_capabilityIDs (Some ∅) m);
     m2 ← forEachAddress
            (λ address, migratePathCapabilitiesInAccount steps address reporter)
            (untilZero addresses) m1;
     '(err, storage') ← orPanic (Commit (storage m2) false);
     mret (err,
           {| Addresses := addresses;
              index := Z.of_nat ((length (untilZero addresses) + 1)
                                   `min` length addresses) |},
           with_capabilityIDs None (with_storage storage' m2))).
Proof.
  intros Hi Hsteps. unfold Migrate, migrateLinks, migratePathCapabilities.
  rewrite migrateLinks_loop_slice by lia.
  destruct (forEachAddress _ (untilZero (drop i addresses)) _) as [m1| |]; [|done..].
  cbn [mbind Outcome_bind mret Outcome_ret orPanic Reset AddressSliceIterator_AddressIterator
       AddressSliceIterator_Reset Addresses].
  rewrite (migratePathCapabilities_loop_slice steps steps addresses 0) by lia.
  rewrite drop_0.
  destruct (forEachAddress _ (untilZero addresses) m1) as [m2| |]; [|done..].
  reflexivity.
Qed.

Lemma recorded_migrateLink (P : AddressPath → UInt64Value → Prop)
    address path reporter (m m' : Migration) :
  (∀ capabilityID,
     capabilityID ≠ 0%N →
     P {| AddressPath_Address := AddressValue_ToAddress address;
          AddressPath_Path := path |} capabilityID) →
  recorded P m →
  migrateLink address path reporter m = Returned m' →
  recorded P m'.
Proof.
  intros HP Hm Hrun. unfold migrateLink in Hrun.
  apply Outcome_bind_Returned in Hrun as ([capabilityID storage'] & _ & Hrun).
  case_bool_decide as Hzero.
  - injection Hrun as <-. exact Hm.
  - apply Outcome_bind_Returned in Hrun as (ids & Hids & Hrun).
    apply orPanic_Returned in Hids. cbn in Hids.
    injection Hrun as <-.
    intros ids' addressPath id Hids' Hlookup.
    assert (ids' = <[{| AddressPath_Address := AddressValue_ToAddress address;
                        AddressPath_Path := path |} := capabilityID]> ids) as ->.
    { destruct reporter; cbn in Hids'; congruence. }
    apply lookup_insert_Some in Hlookup as [[<- <-]|[_ Hlookup]].
    + by apply HP.
    + by apply (Hm ids).
Qed.

Lemma recorded_links_domain_loop (P : AddressPath → UInt64Value → Prop)
    n addressValue domain reporter iterator (m m' : Migration) :
  (∀ identifier capabilityID,
     capabilityID ≠ 0%N →
     P {| AddressPath_Address := AddressValue_ToAddress addressValue;
          AddressPath_Path := NewUnmeteredPathValue domain identifier |} capabilityID) →
  recorded P m →
  migrateAccountLinksInAccountDomain_loop n addressValue domain reporter iterator m
  = Returned m' →
  recorded P m'.
Proof.
  intros HP. revert iterator m.
  induction n as [|n IH]; intros iterator m Hm Hrun; [done|].
  cbn [migrateAccountLinksInAccountDomain_loop] in Hrun.
  destruct (NextKey iterator (storage m)) as [[key|] iterator'].
  - apply Outcome_bind_Returned in Hrun as (identifier & _ & Hrun).
    apply Outcome_bind_Returned in Hrun as (m1 & Hlink & Hrun).
    apply (IH iterator' m1); [|exact Hrun].
    eapply recorded_migrateLink; [|exact Hm|exact Hlink].
    intros capabilityID. apply HP.
  - by injection Hrun as <-.
Qed.

Lemma recorded_links_domain (P : AddressPath → UInt64Value → Prop)
    steps address domain reporter (m m' : Migration) :
  (∀ identifier capabilityID,
     capabilityID ≠ 0%N →
     P {| AddressPath_Address := address;
          AddressPath_Path := NewUnmeteredPathValue domain identifier |} capabilityID) →
  recorded P m →
  migrateAccountLinksInAccountDomain steps address domain reporter m = Returned m' →
  recorded P m'.
Proof.
  intros HP Hm Hrun. unfold migrateAccountLinksInAccountDomain in Hrun.
  destruct (GetStorageMap _ _ _ _) as [storageMap|]; [|by injection Hrun as <-].
  case_bool_decide; [|by injection Hrun as <-].
  eapply recorded_links_domain_loop; [|exact Hm|exact Hrun]. exact HP.
Qed.

Lemma recorded_migrateLinksInAccount steps address reporter (m m' : Migration) :
  address ≠ ZeroAddress →
  recorded linkEntry m →
  migrateLinksInAccount steps address reporter m = Returned m' →
  recorded linkEntry m'.
Proof.
  intros Haddress Hm Hrun. unfold migrateLinksInAccount in Hrun.
  apply Outcome_bind_Returned in Hrun as (m1 & Hpublic & Hprivate).
  eapply recorded_links_domain; [| |exact Hprivate].
  { intros identifier capabilityID Hid. repeat split; [done..|by right]. }
  eapply recorded_links_domain; [|exact Hm|exact Hpublic].
  intros identifier capabilityID Hid. repeat split; [done..|by left].
Qed.

(** X16.  Whatever the address iterator, [migrateLinks] records only
    capability IDs other than zero, under public or private paths of
    accounts other than the zero address. *)
Theorem migrate_links_records_links {Iter : Type} `{!AddressIterator Iter}
    steps (addressIterator addressIterator' : Iter) reporter (m m' : Migration) :
  recorded linkEntry m →
  migrateLinks steps addressIterator reporter m = Returned (addressIterator', m') →
  recorded linkEntry m'.
Proof.
  unfold migrateLinks. generalize steps at 2. intros n. revert addressIterator m.
  induction n as [|n IH]; intros addressIterator m Hm Hrun; [done|].
  cbn [migrateLinks_loop] in Hrun.
  apply Outcome_bind_Returned in Hrun as ([address addressIterator1] & _ & Hrun).
  case_bool_decide as Hzero.
  - by injection Hrun as _ <-.
  - apply Outcome_bind_Returned in Hrun as (m1 & Haccount & Hrun).
    apply (IH addressIterator1 m1); [|exact Hrun].
    by eapply recorded_migrateLinksInAccount.
Qed.

(** X17.  Once the mapping holds link entries only, a path capability
    whose address path is neither public nor private (a storage path, for
    one) is never rewritten:
    [migratePathCapability] leaves the storage as it is and reports the
    missing capability ID. *)
Theorem storage_path_capability_not_migrated
    address (capability : PathCapability StaticType)
    (update : interpreter_Value StaticType OtherValue → Storage → Outcome Storage)
    reporter (m : Migration) :
  recorded linkEntry m →
  PathValue_Domain (AddressPath_Path (PathCapabilityValue_AddressPath capability))
  ≠ PathDomainPublic →
  PathValue_Domain (AddressPath_Path (PathCapabilityValue_AddressPath capability))
  ≠ PathDomainPrivate →
  migratePathCapability address (PathCapabilityValue capability) update reporter m
  = Returned
      (reportTo reporter
         (MissingCapabilityID address (PathCapabilityValue_AddressPath capability)) m).
Proof.
  intros Hm Hpublic Hprivate. unfold migratePathCapability.
  destruct (capabilityIDs m ≫= _) as [capabilityID|] eqn:Hlookup; [|done].
  destruct (capabilityIDs m) as [ids|] eqn:Hids; [|done]. cbn in Hlookup.
  destruct (Hm ids _ _ Hids Hlookup) as (_ & _ & [Hd|Hd]); congruence.
Qed.

(** X18.  A link migrated with a capability ID other than zero is found
    again: a path capability with the address path of the link is replaced
    by the ID capability with that ID, the address and the borrow type of
    the old capability. *)
Theorem migrated_link_found_by_path_capability
    (linkAddress : AddressValue) (path : PathValue) (capabilityID : UInt64Value)
    (address : Address) (capability : PathCapability StaticType)
    (update : interpreter_Value StaticType OtherValue → Storage → Outcome Storage)
    (reporter reporter' : bool) (m : Migration) storage1 storage2 :
  MigrateLinkToCapabilityController linkAddress path (storage m)
  = Some (capabilityID, storage1) →
  capabilityID ≠ 0%N →
  is_Some (capabilityIDs m) →
  PathCapabilityValue_AddressPath capability
  = {| AddressPath_Address := AddressValue_ToAddress linkAddress;
       AddressPath_Path := path |} →
  update (IDCapabilityValue capabilityID (PathCapabilityValue_Address capability)
            (PathCapabilityValue_BorrowType capability)) storage1
  = Returned storage2 →
  ∃ m1,
    migrateLink linkAddress path reporter m = Returned m1
    ∧ migratePathCapability address (PathCapabilityValue capability) update reporter' m1
      = Returned
          (reportTo reporter'
             (MigratedPathCapability address
                (PathCapabilityValue_AddressPath capability))
             (with_storage storage2 m1)).
Proof.
  intros Hlink Hid [ids Hids] Hpath Hupdate.
  unfold migrateLink. rewrite Hlink. cbn [orPanic mbind Outcome_bind].
  rewrite bool_decide_eq_false_2 by done.
  cbn [with_storage capabilityIDs]. rewrite Hids. cbn [orPanic mbind Outcome_bind].
  eexists. split; [reflexivity|].
  unfold migratePathCapability. rewrite Hpath.
  destruct reporter; cbn [reportTo with_capabilityIDs with_storage capabilityIDs storage
                          mbind option_bind];
    rewrite lookup_insert_eq; unfold NewUnmeteredIDCapabilityValue;
    rewrite Hupdate; reflexivity.
Qed.

Lemma keeps_ids_migratePathCapability address value update reporter (m m' : Migration) :
  migratePathCapability address value update reporter m = Returned m' →
  capabilityIDs m' = capabilityIDs m
  ∧ (reporter = false → reporterCalls m' = reporterCalls m).
Proof.
  unfold migratePathCapability. intros Hrun.
  destruct value as [oldCapability| |]; [|by injection Hrun as <-..].
  destruct (capabilityIDs m ≫= _) as [capabilityID|].
  - apply Outcome_bind_Returned in Hrun as (storage' & _ & Hrun).
    injection Hrun as <-. by destruct reporter.
  - injection Hrun as <-. by destruct reporter.
Qed.

Lemma keeps_ids_account_loop n address storageMap reporter iterator (m m' : Migration) :
  migratePathCapabilitiesInAccount_loop n address storageMap reporter iterator m
  = Returned m' →
  capabilityIDs m' = capabilityIDs m
  ∧ (reporter = false → reporterCalls m' = reporterCalls m).
Proof.
  revert iterator m.
  induction n as [|n IH]; intros iterator m Hrun; [done|].
  cbn [migratePathCapabilitiesInAccount_loop] in Hrun.
  destruct (Next iterator (storage m)) as [[[key value]|] iterator'].
  - apply Outcome_bind_Returned in Hrun as (m1 & Hone & Hrun).
    apply keeps_ids_migratePathCapability in Hone as [Hids Hcalls].
    apply IH in Hrun as [Hids' Hcalls'].
    split; [congruence|]. intros ->. by rewrite Hcalls', Hcalls.
  - by injection Hrun as <-.
Qed.

(** X19.  The path-capabilities pass reads the mapping and never changes
    it; with a nil reporter it makes no reporter call. *)
Theorem path_capability_pass_keeps_mapping {Iter : Type} `{!AddressIterator Iter}
    steps (addressIterator addressIterator' : Iter) reporter (m m' : Migration) :
  migratePathCapabilities steps addressIterator reporter m
  = Returned (addressIterator', m') →
  capabilityIDs m' = capabilityIDs m
  ∧ (reporter = false → reporterCalls m' = reporterCalls m).
Proof.
  unfold migratePathCapabilities. generalize steps at 2. intros n. revert addressIterator m.
  induction n as [|n IH]; intros addressIterator m Hrun; [done|].
  cbn [migratePathCapabilities_loop] in Hrun.
  apply Outcome_bind_Returned in Hrun as ([address addressIterator1] & _ & Hrun).
  case_bool_decide as Hzero.
  - by injection Hrun as _ <-.
  - apply Outcome_bind_Returned in Hrun as (m1 & Haccount & Hrun).
    apply IH in Hrun as [Hids Hcalls].
    assert (capabilityIDs m1 = capabilityIDs m
            ∧ (reporter = false → reporterCalls m1 = reporterCalls m)) as [Hids1 Hcalls1].
    { unfold migratePathCapabilitiesInAccount in Haccount.
      destruct (GetStorageMap _ _ _ _) as [storageMap|]; [|by injection Haccount as <-].
      case_bool_decide; [|by injection Haccount as <-].
      by eapply keeps_ids_account_loop. }
    split; [congruence|]. intros ->. by rewrite Hcalls, Hcalls1.
Qed.

End RuntimeProperties.

(** ** The storage explorer *)

Section ExplorerProperties.

Import storage_explorer.

Context {Ref Ty Exported RawMessage : Type}.
Context `{!ExplorerEnvironment Ref Ty Exported RawMessage}.

Local Abbreviation IValue := (InterpreterValue Ref).
Local Abbreviation PValue := (Value Ty RawMessage).

(** Induction on a value, with the hypothesis for every key of a
    dictionary. *)
Lemma InterpreterValue_tree_ind (P : IValue → Prop) :
  (∀ ref, P (Interpreter_Primitive ref)) →
  (∀ ref keys, Forall P keys → P (Interpreter_DictionaryValue ref keys)) →
  (∀ ref names, P (Interpreter_CompositeValue ref names)) →
  (∀ ref names, P (Interpreter_SimpleCompositeValue ref names)) →
  (∀ ref, P (Interpreter_PathLinkValue ref)) →
  (∀ ref, P (Interpreter_AccountLinkValue ref)) →
  (∀ ref, P (Interpreter_PublishedValue ref)) →
  (∀ ref count, P (Interpreter_ArrayValue ref count)) →
  (∀ ref inner, P inner → P (Interpreter_SomeValue ref inner)) →
  (∀ ref, P (Interpreter_Other ref)) →
  ∀ value, P value.
Proof.
  intros Hp Hd Hc Hs Hl Ha Hpub Harr Hsome Ho.
  fix IH 1. intros [ref|ref keys|ref names|ref names|ref|ref|ref|ref count|ref inner|ref];
    [apply Hp|apply Hd|apply Hc|apply Hs|apply Hl|apply Ha|apply Hpub|apply Harr
    |apply Hsome; apply IH|apply Ho].
  induction keys as [|key keys IHkeys]; constructor; [apply IH|apply IHkeys].
Qed.

Lemma prepareValue_dictionary ref (keys : list IValue) :
  prepareValue (Interpreter_DictionaryValue ref keys)
  = match IterateKeys keys [] with
    | (_, Some err) => inr err
    | (prepared, None) => inl (DictionaryValue (prepareType ref) prepared)
    end.
Proof.
  cbn [prepareValue ref_of make_0].
  assert (Hsame : ∀ remaining (acc : list PValue),
            (fix IterateKeys (remaining : list IValue) (keys : list PValue) {struct remaining}
               : list PValue * option string :=
               match remaining with
               | [] => (keys, None)
               | key :: remaining =>
                   match prepareValue key with
                   | inr err => (keys, Some err)
                   | inl preparedKey => IterateKeys remaining (keys ++ [preparedKey])
                   end
               end) remaining acc
            = IterateKeys remaining acc).
  { induction remaining as [|key remaining IH]; intros acc; [done|].
    cbn [IterateKeys]. destruct (prepareValue key); [apply IH|done]. }
  by rewrite Hsame.
Qed.

Lemma IterateKeys_all (keys : list IValue) (acc : list PValue) :
  Forall (λ key, ∃ prepared, prepareValue key = inl prepared) keys →
  ∃ prepared,
    IterateKeys keys acc = (acc ++ prepared, None)
    ∧ Forall2 (λ key p, prepareValue key = inl p) keys prepared.
Proof.
  intros Hkeys. revert acc.
  induction Hkeys as [|key keys [p Hp] _ IH]; intros acc.
  - exists []. by rewrite app_nil_r.
  - cbn [IterateKeys]. rewrite Hp. destruct (IH (acc ++ [p])) as (prepared & -> & Hall).
    exists (p :: prepared). split; [by rewrite <- app_assoc|by constructor].
Qed.

Lemma IterateKeys_error (keys : list IValue) (acc prepared : list PValue) err :
  IterateKeys keys acc = (prepared, Some err) →
  ∃ key, key ∈ keys ∧ prepareValue key = inr err.
Proof.
  revert acc. induction keys as [|key keys IH]; intros acc Hrun; [done|].
  cbn [IterateKeys] in Hrun. destruct (prepareValue key) as [p|err'] eqn:Hkey.
  - destruct (IH _ Hrun) as (key' & Hin & Herr). exists key'. split; [by right|done].
  - injection Hrun as _ <-. exists key. split; [by left|done].
Qed.

(** X20.  [prepareValue] fails only on a primitive value: an error it
    returns is the error of exporting or encoding a primitive value among
    the keys of dictionaries and the inner values of optionals of the
    value; when all of these can be exported and encoded, it returns a
    prepared value. *)
Theorem prepare_value_errors (value : IValue) :
  (∀ err, prepareValue value = inr err →
          ∃ ref, partOf (Interpreter_Primitive ref) value ∧ exportError ref = Some err)
  ∧ ((∀ ref, partOf (Interpreter_Primitive ref) value → exportError ref = None) →
     ∃ prepared, prepareValue value = inl prepared).
Proof.
  induction value as [ref|ref keys IH|ref names|ref names|ref|ref|ref|ref count
                     |ref inner IH|ref] using InterpreterValue_tree_ind;
    try (split; [done|intros _; by eexists]).
  - cbn [prepareValue]. unfold exportError. split.
    + intros err Herr. exists ref. split; [constructor|].
      destruct (ExportValue ref) as [exported|]; [|congruence].
      destruct (Encode exported); congruence.
    + intros Hok. specialize (Hok ref (partOf_refl _)).
      destruct (ExportValue ref) as [exported|]; [|done].
      destruct (Encode exported); [by eexists|done].
  - rewrite prepareValue_dictionary. split.
    + intros err Herr.
      destruct (IterateKeys keys []) as [prepared [err'|]] eqn:Hrun; [|done].
      injection Herr as ->.
      apply IterateKeys_error in Hrun as (key & Hin & Hkey).
      rewrite Forall_forall in IH. destruct (IH key Hin) as [Hfails _].
      destruct (Hfails err Hkey) as (ref' & Hpart & Hexport).
      exists ref'. split; [by eapply partOf_key|done].
    + intros Hok.
      destruct (IterateKeys_all keys []) as (prepared & -> & _); [|by eexists].
      rewrite Forall_forall in IH. apply Forall_forall. intros key Hin.
      destruct (IH key Hin) as [_ Hreturns]. apply Hreturns.
      intros ref' Hpart. apply Hok. by eapply partOf_key.
  - cbn [prepareValue]. destruct IH as [Hfails Hreturns]. split.
    + intros err Herr. destruct (prepareValue inner) as [p|err'] eqn:Hinner; [done|].
      injection Herr as ->. destruct (Hfails err eq_refl) as (ref' & Hpart & Hexport).
      exists ref'. split; [by constructor|done].
    + intros Hok. destruct Hreturns as [p ->]; [|by eexists].
      intros ref' Hpart. apply Hok. by constructor.
Qed.


End ExplorerProperties.

(** ** The passes on a checker *)

Section Examples.

Import sema.

Existing Instance sample_collaborators.

Lemma sample_PassesKeepElaboration : PassesKeepElaboration.
Proof. by split. Qed.

Lemma sample_DeclarePassFrame : DeclarePassFrame.
Proof.
  split; try done.
  - by intros t c l H.
  - by intros n v c l H.
  - by intros d l c l' H.
  - intros k dk cs is_ c. simpl. repeat split; try done.
    + intros n Hn. by apply elem_of_nil in Hn.
    + intros n Hn. by apply elem_of_nil in Hn.
Qed.

(** C8, as it is worded, fails: a nested interface of a conformance is not
    exempt from the collision check. The interface [I] and its conformance
    [C] both have a nested interface [N]; the closure reports the
    collision, with the declaration kind of an interface on both sides. *)
Lemma nested_interface_collision_reported :
  match checkInterfaceConformance_nestedType example_declaration 1%positive 2%positive
          ("N", InterfaceTypeRef 4%positive) ∅ example_checker with
  | Ok (_, c) => errors c
  | Panic _ => []
  end
  = [InterfaceMemberConflictError 1%positive 2%positive "N"
       (CompositeKind_DeclarationKind (CompositeKindOther 1) true)
       (CompositeKind_DeclarationKind (CompositeKindOther 1) true)
       (NewRangeFromPositioned (sample_identifier "I"))].
Proof. vm_compute. reflexivity. Qed.


(** C4 on the member [f] of the conformance [C], when the earlier
    conformance [B] has a member [f] and the interface declares one: the
    member of [C] has an implementation, so both checks report. *)
Lemma conformance_member_merge_witness :
  interfaceTypes example_checker !! 1%positive
  = Some (sample_interfaceType "I" CompositeKindContract
            [("N", InterfaceTypeRef 3%positive)]
            [("f", sample_member 1%positive "f" 7%N false false)])
  ∧ ∃ c,
      checkInterfaceConformance_member example_declaration 1%positive 2%positive
        ("f", example_member) example_inheritedMembers example_checker
      = Ok (<["f" := example_member]> example_inheritedMembers, c)
      ∧ errors c
        = [InterfaceMemberConflictError 2%positive 5%positive "f"
             DeclarationKindFunction DeclarationKindFunction
             (NewRangeFromPositioned (sample_identifier "I"));
           InterfaceMemberConflictError 1%positive 2%positive "f"
             DeclarationKindFunction DeclarationKindFunction
             (NewRangeFromPositioned (sample_identifier "f"))].
Proof.
  split; [vm_compute; reflexivity|].
  eexists. split.
  - apply (conformance_member_merge example_declaration 1%positive 2%positive "f"
             example_member example_inheritedMembers example_checker
             (sample_interfaceType "I" CompositeKindContract
                [("N", InterfaceTypeRef 3%positive)]
                [("f", sample_member 1%positive "f" 7%N false false)])).
    + vm_compute; reflexivity.
    + intros earlier H. unfold example_inheritedMembers in H.
      rewrite lookup_singleton_eq in H. injection H as <-. reflexivity.
  - vm_compute. reflexivity.
Defined.

(** C8, as the code has it, on the nested interface [N] of the conformance
    [C]: the interface [I] has a nested interface [N] too. *)
Lemma conformance_nested_type_merge_witness :
  is_Some (compositeKindOf example_checker (InterfaceTypeRef 4%positive))
  ∧ ∃ c,
      checkInterfaceConformance_nestedType example_declaration 1%positive 2%positive
        ("N", InterfaceTypeRef 4%positive) ∅ example_checker
      = Ok (<["N" := InterfaceTypeRef 4%positive]> ∅, c)
      ∧ errors c
        = [InterfaceMemberConflictError 1%positive 2%positive "N"
             (CompositeKind_DeclarationKind (CompositeKindOther 1) true)
             (CompositeKind_DeclarationKind (CompositeKindOther 1) true)
             (NewRangeFromPositioned (sample_identifier "I"))].
Proof.
  split; [by eexists|].
  eexists. split.
  - apply (conformance_nested_type_merge example_declaration 1%positive 2%positive "N"
             (InterfaceTypeRef 4%positive) ∅ example_checker
             (sample_interfaceType "I" CompositeKindContract
                [("N", InterfaceTypeRef 3%positive)]
                [("f", sample_member 1%positive "f" 7%N false false)])).
    + vm_compute; reflexivity.
    + by eexists.
    + intros earlier H. by rewrite lookup_empty in H.
    + intros own H _. vm_compute in H. injection H as <-. by eexists.
  - vm_compute. reflexivity.
Defined.


(** C10 on a declaration of the kind that does not support interfaces. *)
Lemma unsupported_kind_still_declared_witness :
  CompositeKind_SupportsInterfaces (decl_CompositeKind example_unsupported_declaration)
  = false
  ∧ ∃ c,
      declareInterfaceType example_unsupported_declaration example_checker
      = Ok (fresh (dom (interfaceTypes example_checker)), c)
      ∧ InvalidInterfaceDeclarationError (CompositeKindOther 5)
          (NewRangeFromPositioned (sample_identifier "E")) ∈ errors c
      ∧ InterfaceDeclarationTypes (Checker_Elaboration c) !! 11%positive
        = Some (fresh (dom (interfaceTypes example_checker)))
      ∧ InterfaceTypeDeclarations (Checker_Elaboration c)
          !! fresh (dom (interfaceTypes example_checker))
        = Some 11%positive.
Proof.
  split; [vm_compute; reflexivity|].
  destruct (unsupported_kind_still_declared example_unsupported_declaration
              example_checker sample_DeclarePassFrame eq_refl)
    as (c_reg & nds & nits & ncts & c10 & c & _ & _ & _ & _ & Hrun & Hprefix
        & Hidt & Hitd & _).
  exists c. split; [exact Hrun|]. split; [|split; [exact Hidt|exact Hitd]].
  eapply elem_of_prefix; [|exact Hprefix].
  apply elem_of_app. right. by left.
Defined.


(** X4 on the conjunctive set of the entitlements 1 and 2 and the
    disjunctive set that lists them as 2, 1, 2, compared with the set of
    the entitlement 1. *)
Lemma entitlement_comparison_by_set_witness :
  ast.IsLessPermissiveThan
    (ast.NewEntitlementAccess
       (ast.NewConjunctiveEntitlementSet [1%positive; 2%positive]))
    (ast.AccessOfEntitlement
       (ast.NewEntitlementAccess (ast.NewConjunctiveEntitlementSet [1%positive])))
  = ast.IsLessPermissiveThan
      (ast.NewEntitlementAccess
         (ast.NewDisjunctiveEntitlementSet [2%positive; 1%positive; 2%positive]))
      (ast.AccessOfEntitlement
         (ast.NewEntitlementAccess (ast.NewConjunctiveEntitlementSet [1%positive]))).
Proof.
  apply (entitlement_comparison_by_set
           (ast.NewEntitlementAccess
              (ast.NewConjunctiveEntitlementSet [1%positive; 2%positive]))
           (ast.NewEntitlementAccess
              (ast.NewDisjunctiveEntitlementSet [2%positive; 1%positive; 2%positive]))).
  apply set_eq. intros x. rewrite !elem_of_list_to_set. simpl.
  rewrite !elem_of_cons, !elem_of_nil. tauto.
Defined.

(** X5 on the conformance [C] of the interface [I]. *)
Lemma conformance_only_adds_diagnostics_witness :
  interfaceTypes
    (checkConformanceKindMatch example_declaration 1%positive 2%positive example_checker)
    !! 2%positive
  = Some example_conformance_object
  ∧ match checkInterfaceConformance example_declaration 1%positive 2%positive
            (example_inheritedMembers, ∅) example_checker with
    | Ok (_, c') =>
        ∃ added,
          length added
          ≤ 2 * (length (Members example_conformance_object)
                 + length (NestedTypes example_conformance_object))
          ∧ c' = with_errors
                   (errors (checkConformanceKindMatch example_declaration 1%positive
                              2%positive example_checker) ++ added)
                   (checkConformanceKindMatch example_declaration 1%positive 2%positive
                      example_checker)
    | Panic _ => True
    end.
Proof.
  split; [vm_compute; reflexivity|].
  exact (conformance_only_adds_diagnostics example_declaration 1%positive 2%positive
           (example_inheritedMembers, ∅) example_checker example_conformance_object
           eq_refl).
Defined.

(** X6 on the members of the conformance [C], after the conformance [B]. *)
Lemma conformance_members_merged_witness :
  ∃ added,
    length added ≤ 2 * 1
    ∧ foldM (Members example_conformance_object)
        (checkInterfaceConformance_member example_declaration 1%positive 2%positive)
        example_inheritedMembers example_checker
      = Ok (list_to_map (reverse (Members example_conformance_object))
              ∪ example_inheritedMembers,
            with_errors (errors example_checker ++ added) example_checker).
Proof.
  destruct (conformance_members_merged example_declaration 1%positive 2%positive
              (Members example_conformance_object) example_inheritedMembers
              example_checker example_interface_object)
    as (added & Hlen & Hrun & _).
  - vm_compute; reflexivity.
  - intros name earlier H. unfold example_inheritedMembers in H.
    apply lookup_singleton_Some in H as [_ <-]. reflexivity.
  - intros name m H. apply list_elem_of_singleton in H. injection H as _ ->. reflexivity.
  - exists added. split; [exact Hlen|exact Hrun].
Defined.

(** X7 on the conformances [B] and [C] of the interface [I], from the
    empty maps. *)
Lemma inherited_nested_types_composite_kinded_witness :
  ∃ inherited c',
    foldM [5%positive; 2%positive]
      (λ conformance inherited,
         checkInterfaceConformance example_declaration 1%positive conformance inherited)
      (∅, ∅) example_checker
    = Ok (inherited, c')
    ∧ map_Forall (λ _ t, is_Some (asCompositeKindedType t)) inherited.2.
Proof.
  destruct (foldM [5%positive; 2%positive]
              (λ conformance inherited,
                 checkInterfaceConformance example_declaration 1%positive conformance
                   inherited)
              (∅, ∅) example_checker) as [[inherited c']|p] eqn:Hrun.
  - exists inherited, c'. split; [reflexivity|].
    apply (inherited_nested_types_composite_kinded example_declaration 1%positive
             [5%positive; 2%positive] (∅, ∅) inherited example_checker c').
    + apply map_Forall_empty.
    + exact Hrun.
  - vm_compute in Hrun. discriminate Hrun.
Defined.

(** X8 on three functions, of which the second has an empty body without
    conditions. *)
Lemma interface_functions_diagnostics_witness :
  errors (checkInterfaceFunctions example_functions (InterfaceTypeRef 1%positive)
            (DeclarationKindOther 1) EmptyString example_checker)
  = [InvalidImplementationError sample_position (DeclarationKindOther 1)
       DeclarationKindFunction].
Proof.
  apply (interface_functions_diagnostics example_functions (InterfaceTypeRef 1%positive)
           (DeclarationKindOther 1) EmptyString example_checker);
    intros; intros ?; reflexivity.
Defined.

(** X10 on the checker after the declare pass. *)
Lemma visit_unmarks_container_type_witness :
  match VisitInterfaceDeclaration example_declaration example_declared_checker with
  | Ok (_, c') => containerTypes c' !! InterfaceTypeRef 6%positive = Some false
  | Panic _ => False
  end.
Proof.
  destruct (VisitInterfaceDeclaration example_declaration example_declared_checker)
    as [[[] c']|p] eqn:Hrun.
  - apply (visit_unmarks_container_type example_declaration example_declared_checker c'
             6%positive); [vm_compute; reflexivity|exact Hrun].
  - vm_compute in Hrun. discriminate Hrun.
Defined.

(** X11 on the members [f] of the conformances [C] and [B]. *)
Lemma duplicate_member_rule_symmetric_witness :
  checkDuplicateInterfaceMembers 2%positive example_member 5%positive
    example_earlier_member (λ _, NewRangeFromPositioned (sample_identifier "I"))
    example_checker = example_checker
  ↔ checkDuplicateInterfaceMembers 5%positive example_earlier_member 2%positive
      example_member (λ _, NewRangeFromPositioned (sample_identifier "I"))
      example_checker = example_checker.
Proof.
  apply (duplicate_member_rule_symmetric 2%positive example_member 5%positive
           example_earlier_member).
  vm_compute; reflexivity.
Defined.

(** X12 on the declaration of [example_declaration]. *)
Lemma declared_interface_type_is_new_witness :
  ∃ c',
    declareInterfaceType example_declaration example_checker
    = Ok (fresh (dom (interfaceTypes example_checker)), c')
    ∧ interfaceTypes example_checker !! fresh (dom (interfaceTypes example_checker))
      = None
    ∧ is_Some (interfaceTypes c' !! fresh (dom (interfaceTypes example_checker))).
Proof.
  destruct (declared_interface_type_is_new sample_DeclarePassFrame example_declaration
              example_checker) as (c' & Hrun & Hnew & Hthere & _).
  exists c'. split; [exact Hrun|]. split; [exact Hnew|exact Hthere].
Defined.

End Examples.

Section RuntimeExamples.

Import runtime.

(** X14 on the slice 1, 2, 0, 3 from index 1: account 2 only. *)
Lemma migration_loops_stop_at_zero_address_witness :
  ∃ m',
    migrateLinks 5 sample_iterator true
      (with_capabilityIDs (Some ∅) sample_migration)
    = Returned ({| Addresses := [1; 2; 0; 3]%N; index := 3 |}, m')
    ∧ reporterCalls m'
      = [MigratedLink
           {| AddressPath_Address := 2%N;
              AddressPath_Path := NewUnmeteredPathValue PathDomainPublic "k" |} 1%N].
Proof.
  destruct (migration_loops_stop_at_zero_address 5 [1; 2; 0; 3]%N 1 true
              (with_capabilityIDs (Some ∅) sample_migration))
    as (Hlinks & _); [simpl; lia..|].
  change {| Addresses := [1; 2; 0; 3]%N; index := Z.of_nat 1 |} with sample_iterator
    in Hlinks.
  rewrite Hlinks. eexists. split; vm_compute; reflexivity.
Defined.

(** X15 on the same iterator: the second pass handles account 1, which
    the first pass skipped. *)
Lemma migrate_passes_witness :
  ∃ m',
    Migrate 5 sample_iterator true sample_migration
    = Returned (None, {| Addresses := [1; 2; 0; 3]%N; index := 3 |}, m')
    ∧ capabilityIDs m' = None
    ∧ reporterCalls m'
      = [MigratedLink
           {| AddressPath_Address := 2%N;
              AddressPath_Path := NewUnmeteredPathValue PathDomainPublic "k" |} 1%N;
         MissingCapabilityID 1%N
           {| AddressPath_Address := 1%N;
              AddressPath_Path := NewUnmeteredPathValue PathDomainPublic "k" |};
         MissingCapabilityID 2%N
           {| AddressPath_Address := 1%N;
              AddressPath_Path := NewUnmeteredPathValue PathDomainPublic "k" |}].
Proof.
  pose proof (migrate_passes 5 [1; 2; 0; 3]%N 1 true sample_migration) as Hpasses.
  change {| Addresses := [1; 2; 0; 3]%N; index := Z.of_nat 1 |} with sample_iterator
    in Hpasses.
  rewrite Hpasses by (simpl; lia).
  eexists. split; [|split]; vm_compute; reflexivity.
Defined.

(** X16 on the links pass over the same iterator, from the empty
    mapping. *)
Lemma migrate_links_records_links_witness :
  ∃ addressIterator m',
    migrateLinks 5 sample_iterator true (with_capabilityIDs (Some ∅) sample_migration)
    = Returned (addressIterator, m')
    ∧ recorded linkEntry m'.
Proof.
  destruct (migrateLinks 5 sample_iterator true
              (with_capabilityIDs (Some ∅) sample_migration))
    as [[addressIterator m']| |] eqn:Hrun.
  - exists addressIterator, m'. split; [reflexivity|].
    apply (migrate_links_records_links 5 sample_iterator addressIterator true
             (with_capabilityIDs (Some ∅) sample_migration) m'); [|exact Hrun].
    intros ids addressPath capabilityID [= <-] Hlookup.
    by rewrite lookup_empty in Hlookup.
  - vm_compute in Hrun. discriminate Hrun.
  - vm_compute in Hrun. discriminate Hrun.
Defined.

(** X17 on a capability for the storage path [k], with the public link
    [k] of account 1 recorded. *)
Lemma storage_path_capability_not_migrated_witness :
  migratePathCapability 1%N (PathCapabilityValue sample_storage_capability)
    (λ _ storage, Returned storage) true
    (with_capabilityIDs
       (Some {[ {| AddressPath_Address := 1%N;
                   AddressPath_Path := NewUnmeteredPathValue PathDomainPublic "k" |}
                := 7%N ]})
       sample_migration)
  = Returned
      (reportTo true
         (MissingCapabilityID 1%N
            {| AddressPath_Address := 1%N;
               AddressPath_Path := NewUnmeteredPathValue PathDomainStorage "k" |})
         (with_capabilityIDs
            (Some {[ {| AddressPath_Address := 1%N;
                        AddressPath_Path := NewUnmeteredPathValue PathDomainPublic "k" |}
                     := 7%N ]})
            sample_migration)).
Proof.
  apply (storage_path_capability_not_migrated (MigrationEnvironment0 := sample_environment) 1%N sample_storage_capability
           (λ _ storage, Returned storage) true
           (with_capabilityIDs
              (Some {[ {| AddressPath_Address := 1%N;
                          AddressPath_Path := NewUnmeteredPathValue PathDomainPublic "k" |}
                       := 7%N ]})
              sample_migration)).
  - intros ids addressPath capabilityID [= <-] Hlookup.
    apply lookup_singleton_Some in Hlookup as [<- <-].
    repeat split; [done..|by left].
  - discriminate.
  - discriminate.
Defined.

(** X18 on the public link [k] of account 1 and the capability for it. *)
Lemma migrated_link_found_by_path_capability_witness :
  ∃ m1,
    migrateLink 1%N (NewUnmeteredPathValue PathDomainPublic "k") false
      (with_capabilityIDs (Some ∅) sample_migration)
    = Returned m1
    ∧ migratePathCapability 2%N (PathCapabilityValue sample_capability)
        (λ _ storage, Returned (storage + 10)%N) true m1
      = Returned
          (reportTo true
             (MigratedPathCapability 2%N (PathCapabilityValue_AddressPath sample_capability))
             (with_storage 11%N m1)).
Proof.
  apply (migrated_link_found_by_path_capability (MigrationEnvironment0 := sample_environment)
           1%N
           (NewUnmeteredPathValue PathDomainPublic "k") 1%N 2%N sample_capability
           (λ _ storage, Returned (storage + 10)%N) false true
           (with_capabilityIDs (Some ∅) sample_migration) 1%N 11%N).
  - reflexivity.
  - discriminate.
  - by eexists.
  - reflexivity.
  - reflexivity.
Defined.

(** X19 on the path-capabilities pass over the same iterator. *)
Lemma path_capability_pass_keeps_mapping_witness :
  ∃ addressIterator m',
    migratePathCapabilities 5 sample_iterator false
      (with_capabilityIDs (Some ∅) sample_migration)
    = Returned (addressIterator, m')
    ∧ capabilityIDs m' = Some ∅
    ∧ reporterCalls m' = [].
Proof.
  destruct (migratePathCapabilities 5 sample_iterator false
              (with_capabilityIDs (Some ∅) sample_migration))
    as [[addressIterator m']| |] eqn:Hrun.
  - exists addressIterator, m'. split; [reflexivity|].
    destruct (path_capability_pass_keeps_mapping 5 sample_iterator addressIterator false
                (with_capabilityIDs (Some ∅) sample_migration) m' Hrun)
      as [Hids Hcalls].
    split; [exact Hids|]. by apply Hcalls.
  - vm_compute in Hrun. discriminate Hrun.
  - vm_compute in Hrun. discriminate Hrun.
Defined.

End RuntimeExamples.

Section ExplorerExamples.

Import storage_explorer.


End ExplorerExamples.
